(** * Clocked: optimistic vote reconciliation and feed synchronisation

    A shallow embedding of the client-side state logic of the Clocked
    mobile app, and the properties of it that the specification states.

    The model:
    - [Gateway]: [PostService.getPosts] of [src/services/supabase.ts];
    - [Feed]: the [usePosts] hook of [src/hooks/usePosts.ts] and the
      end-reached handler of [src/components/PostFeed.tsx];
    - [Vote]: the [useVote] hook of [src/hooks/useVote.ts], together with
      the JavaScript timers and pending promises it creates;
    - [Card]: the vote controls of [src/components/PostCard.tsx];
    - [FeedView], [Session]: what [PostFeed] renders, and the feed hook
      run against a backend;
    - [Service], [Detail]: [PostService.voteOnPost] and [removeVote], and
      the [useSinglePost] hook;
    - [Auth], [Account]: the phone and code steps of
      [src/screens/AuthScreen.tsx] with the checks of [useAuth] and
      [AuthService], and the auth state of [src/hooks/useAuth.ts];
    - [Storage], [Content]: [StorageService.uploadImage],
      [PostService.createPost] and [CommentService.addComment];
    - [Age]: [formatTime] of [PostCard].

    React state is modelled by explicit state passing.  An asynchronous
    function is split at its [await]: the part before it registers a
    pending call, the part after it runs when the environment delivers the
    outcome.  Time is a natural number of milliseconds; a schedule is a
    list of events with the times at which they happen, and before an
    event is handled every timer due by then fires, earliest first.

    The properties follow the model: the gateway, the feed store, the vote
    hook and its timers, the card, and debouncing. *)

From stdpp Require Import gmap strings list fin_maps.
From stdpp Require Import pretty.

(** ** Shared types ([src/types/index.ts]) *)

(** ['green' | 'red'].  A nullable vote ['green' | 'red' | null] is
    [option VoteType]. *)
Inductive VoteType := green | red.

#[global] Instance VoteType_eq_dec : EqDecision VoteType.
Proof. solve_decision. Defined.

(** The [Post] interface.  Optional computed fields are options;
    [user_vote] is only ever read through [|| null] and [===], which do not
    tell [undefined] from [null], so both are [None].  The joined profile is
    kept as its optional user name. *)
Module Post.
Record t := mk {
  id : string;
  created_by : string;
  image_url : string;
  person_name : option string;
  description : option string;
  is_active : bool;
  created_at : string;
  green_votes : option Z;
  red_votes : option Z;
  user_vote : option VoteType;
  profiles : option string
}.
End Post.

Abbreviation Post := Post.t.

(** JavaScript truthiness of a [string | null | undefined]. *)
Definition truthy (x : option string) : bool :=
  match x with
  | Some s => negb (String.eqb s EmptyString)
  | None => false
  end.

(** [{ data, error }], the shape of every service and SDK result. *)
Module Response.
Record t (A : Type) := mk {
  data : option A;
  error : option string
}.
Arguments mk {A} _ _.
Arguments data {A} _.
Arguments error {A} _.
End Response.

Abbreviation response := Response.t.

(** What an [await] delivers: the promise resolves with a value or rejects
    (the [catch] branch of the surrounding [try]). *)
Inductive awaited (A : Type) :=
| Resolved (value : A)
| Rejected.
Arguments Resolved {A} _.
Arguments Rejected {A}.

(** ** The remote data gateway: [PostService.getPosts] *)

Module Gateway.

(** A row of the [posts] select; [is_active] may come back null. *)
Record post_row := PostRow {
  row_id : string;
  row_created_by : string;
  row_image_url : string;
  row_person_name : option string;
  row_description : option string;
  row_is_active : option bool;
  row_created_at : string;
  row_profiles : option string
}.

(** A row of the [votes] select ([post_id, vote_type]). *)
Record vote_row := VoteRow {
  post_id : string;
  vote_type : VoteType
}.

(** The backend as seen through the SDK: one answer per query the function
    issues. *)
Record backend := Backend {
  (** [from('posts')...range(offset, offset + limit - 1)] *)
  select_posts : nat → nat → awaited (response (list post_row));
  (** [from('votes').select(...).in('post_id', postIds)] *)
  select_votes : list string → awaited (response (list vote_row));
  (** [from('votes').select(...).eq('user_id', userId).in('post_id', postIds)] *)
  select_user_votes : string → list string → awaited (response (list vote_row))
}.

Definition count_votes (kind : VoteType) (postVotes : list vote_row) : nat :=
  length (filter (λ v, vote_type v = kind) postVotes).

(** The body of [posts.map(post => ...)]. *)
Definition with_votes (votes : option (list vote_row)) (userVotes : list vote_row)
    (post : post_row) : Post :=
  let postVotes :=
    default [] (filter (λ v, post_id v = row_id post) <$> votes) in
  let greenVotes := count_votes green postVotes in
  let redVotes := count_votes red postVotes in
  let userVote :=
    vote_type <$> List.find (λ v, bool_decide (post_id v = row_id post)) userVotes in
  Post.mk (row_id post) (row_created_by post) (row_image_url post)
    (row_person_name post) (row_description post)
    (default true (row_is_active post)) (row_created_at post)
    (Some (Z.of_nat greenVotes)) (Some (Z.of_nat redVotes)) userVote
    (row_profiles post).

Definition network_error : response (list Post) :=
  Response.mk None (Some "Network error").

Definition getPosts (db : backend) (userId : option string) (limit offset : nat)
    : response (list Post) :=
  match select_posts db limit offset with
  | Rejected => network_error
  | Resolved q =>
    if truthy (Response.error q) then Response.mk None (Some "Failed to load posts")
    else
      match Response.data q with
      | None | Some [] => Response.mk (Some []) None
      | Some posts =>
        let postIds := row_id <$> posts in
        match select_votes db postIds with
        | Rejected => network_error
        | Resolved qv =>
          let votes := Response.data qv in
          if truthy userId then
            match select_user_votes db (default EmptyString userId) postIds with
            | Rejected => network_error
            | Resolved qu =>
              let userVotes := default [] (Response.data qu) in
              Response.mk (Some (with_votes votes userVotes <$> posts)) None
            end
          else Response.mk (Some (with_votes votes [] <$> posts)) None
        end
      end
  end.

End Gateway.

(** ** The feed synchronisation store: [usePosts] *)

Module Feed.

Definition pageSize : nat := 20.

(** The list updates only look at the [id] of a post, so they are written
    once over any element type with a key; the hook uses them at [Post],
    the provenance replay below at posts paired with their origin. *)
Section Merge.
Context {A : Type} (key : A → string).

(** The functional update of the load-more branch of [loadPosts]. *)
Definition appendUnique (newPosts prevPosts : list A) : list A :=
  let existingIds : gset string := list_to_set (key <$> prevPosts) in
  let uniqueNewPosts := filter (λ p, key p ∉ existingIds) newPosts in
  prevPosts ++ uniqueNewPosts.

(** The functional update of [handleNewPost]. *)
Definition prependNew (newPost : A) (prevPosts : list A) : list A :=
  let exists_ := existsb (λ p, bool_decide (key p = key newPost)) prevPosts in
  if exists_ then prevPosts else newPost :: prevPosts.

(** The functional update of [removePost]. *)
Definition dropPost (postId : string) (prevPosts : list A) : list A :=
  filter (λ post, key post ≠ postId) prevPosts.
End Merge.

(** [Partial<Post>]: every field may be absent. *)
Record partial := Partial {
  p_id : option string;
  p_created_by : option string;
  p_image_url : option string;
  p_person_name : option (option string);
  p_description : option (option string);
  p_is_active : option bool;
  p_created_at : option string;
  p_green_votes : option (option Z);
  p_red_votes : option (option Z);
  p_user_vote : option (option VoteType);
  p_profiles : option (option string)
}.

(** [{ ...post, ...updates }] *)
Definition spread (post : Post) (updates : partial) : Post :=
  Post.mk
    (default (Post.id post) (p_id updates))
    (default (Post.created_by post) (p_created_by updates))
    (default (Post.image_url post) (p_image_url updates))
    (default (Post.person_name post) (p_person_name updates))
    (default (Post.description post) (p_description updates))
    (default (Post.is_active post) (p_is_active updates))
    (default (Post.created_at post) (p_created_at updates))
    (default (Post.green_votes post) (p_green_votes updates))
    (default (Post.red_votes post) (p_red_votes updates))
    (default (Post.user_vote post) (p_user_vote updates))
    (default (Post.profiles post) (p_profiles updates)).

(** The five ways the hook calls [setPosts]. *)
Inductive update :=
| Replace (newPosts : list Post)
| Append (newPosts : list Post)
| Prepend (newPost : Post)
| Patch (postId : string) (updates : partial)
| Remove (postId : string).

Definition setPosts (u : update) (prevPosts : list Post) : list Post :=
  match u with
  | Replace newPosts => newPosts
  | Append newPosts => appendUnique Post.id newPosts prevPosts
  | Prepend newPost => prependNew Post.id newPost prevPosts
  | Patch postId updates =>
      (λ post, if decide (Post.id post = postId) then spread post updates else post)
        <$> prevPosts
  | Remove postId => dropPost Post.id postId prevPosts
  end.

(** A suspended [loadPosts(pageNum, replace)] waiting for [getPosts]. *)
Record fetch := Fetch {
  fetch_id : nat;
  pageNum : nat;
  replace : bool
}.

(** The state of one [usePosts(userId)] instance.  [pending], [next_fetch],
    [requests] and [history] are not React state: they record the
    [getPosts] calls awaiting an answer, the [(userId, limit, offset)]
    arguments of every call issued so far, and every [setPosts] update
    applied so far. *)
Record store := Store {
  userId : option string;
  posts : list Post;
  isLoading : bool;
  isLoadingMore : bool;
  error : option string;
  hasMore : bool;
  page : nat;
  mounted : bool;
  realtimeChannel : bool;
  pending : list fetch;
  next_fetch : nat;
  requests : list (option string * nat * nat);
  history : list update
}.

Definition apply_update (u : update) (s : store) : store :=
  Store (userId s) (setPosts u (posts s)) (isLoading s) (isLoadingMore s) (error s)
        (hasMore s) (page s) (mounted s) (realtimeChannel s) (pending s)
        (next_fetch s) (requests s) (history s ++ [u]).

Definition setIsLoading (b : bool) (s : store) : store :=
  Store (userId s) (posts s) b (isLoadingMore s) (error s) (hasMore s) (page s)
        (mounted s) (realtimeChannel s) (pending s) (next_fetch s) (requests s)
        (history s).

Definition setIsLoadingMore (b : bool) (s : store) : store :=
  Store (userId s) (posts s) (isLoading s) b (error s) (hasMore s) (page s)
        (mounted s) (realtimeChannel s) (pending s) (next_fetch s) (requests s)
        (history s).

Definition setError (e : option string) (s : store) : store :=
  Store (userId s) (posts s) (isLoading s) (isLoadingMore s) e (hasMore s) (page s)
        (mounted s) (realtimeChannel s) (pending s) (next_fetch s) (requests s)
        (history s).

Definition setHasMore (b : bool) (s : store) : store :=
  Store (userId s) (posts s) (isLoading s) (isLoadingMore s) (error s) b (page s)
        (mounted s) (realtimeChannel s) (pending s) (next_fetch s) (requests s)
        (history s).

Definition setPage (n : nat) (s : store) : store :=
  Store (userId s) (posts s) (isLoading s) (isLoadingMore s) (error s) (hasMore s) n
        (mounted s) (realtimeChannel s) (pending s) (next_fetch s) (requests s)
        (history s).

Definition set_mounted (b : bool) (s : store) : store :=
  Store (userId s) (posts s) (isLoading s) (isLoadingMore s) (error s) (hasMore s)
        (page s) b (realtimeChannel s) (pending s) (next_fetch s) (requests s)
        (history s).

Definition set_realtimeChannel (b : bool) (s : store) : store :=
  Store (userId s) (posts s) (isLoading s) (isLoadingMore s) (error s) (hasMore s)
        (page s) (mounted s) b (pending s) (next_fetch s) (requests s) (history s).

Definition set_pending (l : list fetch) (s : store) : store :=
  Store (userId s) (posts s) (isLoading s) (isLoadingMore s) (error s) (hasMore s)
        (page s) (mounted s) (realtimeChannel s) l (next_fetch s) (requests s)
        (history s).

(** [await PostService.getPosts(userId, pageSize, offset)]: the call goes
    out and the caller is suspended. *)
Definition call_getPosts (pageNum : nat) (replace : bool) (offset : nat) (s : store)
    : store :=
  Store (userId s) (posts s) (isLoading s) (isLoadingMore s) (error s) (hasMore s)
        (page s) (mounted s) (realtimeChannel s)
        (pending s ++ [Fetch (next_fetch s) pageNum replace])
        (S (next_fetch s))
        (requests s ++ [(userId s, pageSize, offset)])
        (history s).

(** [loadPosts] up to its [await]. *)
Definition loadPosts (pageNum : nat) (replace : bool) (s : store) : store :=
  let s1 :=
    if (pageNum =? 0)%nat then setError None (setIsLoading true s)
    else setIsLoadingMore true s in
  let offset := pageNum * pageSize in
  call_getPosts pageNum replace offset s1.

(** The [finally] block of [loadPosts]. *)
Definition loadPosts_finally (s : store) : store :=
  if mounted s then setIsLoadingMore false (setIsLoading false s) else s.

(** [loadPosts] from its [await] on. *)
Definition loadPosts_resume (pageNum : nat) (replace : bool)
    (r : awaited (response (list Post))) (s : store) : store :=
  let s1 :=
    match r with
    | Rejected =>
        if mounted s then setError (Some "Failed to load posts") s else s
    | Resolved r =>
        let newPosts := Response.data r in
        let postsError := Response.error r in
        if negb (mounted s) then s
        else if truthy postsError then setError postsError s
        else
          match newPosts with
          | None => s
          | Some newPosts =>
              let s' :=
                if replace || (pageNum =? 0)%nat
                then apply_update (Replace newPosts) s
                else apply_update (Append newPosts) s in
              setPage pageNum (setHasMore (length newPosts =? pageSize)%nat s')
          end
    end in
  loadPosts_finally s1.

Definition refresh (s : store) : store := loadPosts 0 true s.

Definition loadMore (s : store) : store :=
  if isLoadingMore s || negb (hasMore s) then s
  else loadPosts (page s + 1) false s.

Definition handleNewPost (newPost : Post) (s : store) : store :=
  if negb (mounted s) then s else apply_update (Prepend newPost) s.

Definition updatePost (postId : string) (updates : partial) (s : store) : store :=
  apply_update (Patch postId updates) s.

Definition removePost (postId : string) (s : store) : store :=
  apply_update (Remove postId) s.

(** [useState] defaults, before the mount effect has run. *)
Definition initial (userId : option string) : store :=
  Store userId [] true false None true 0 true false [] 0 [] [].

(** The mount effect: initial load and, for a signed-in user, the realtime
    subscription. *)
Definition mount (userId : option string) : store :=
  let s := loadPosts 0 true (set_mounted true (initial userId)) in
  if truthy userId then set_realtimeChannel true s else s.

(** The cleanup of the mount effect. *)
Definition unmount (s : store) : store :=
  set_realtimeChannel false (set_mounted false s).

(** [handleEndReached] of [PostFeed]. *)
Definition handleEndReached (s : store) : store :=
  if hasMore s && negb (isLoadingMore s) && negb (isLoading s) then loadMore s else s.

(** What can happen to a mounted hook. *)
Inductive event :=
| Refresh
| LoadMore
| EndReached
| Fetched (k : nat) (r : awaited (response (list Post)))
| NewPost (newPost : Post)
| UpdatePost (postId : string) (updates : partial)
| RemovePost (postId : string)
| Unmount.

Definition find_fetch (k : nat) (l : list fetch) : option fetch :=
  List.find (λ f, (fetch_id f =? k)%nat) l.

Definition step (s : store) (e : event) : store :=
  match e with
  | Refresh => refresh s
  | LoadMore => loadMore s
  | EndReached => handleEndReached s
  | Fetched k r =>
      match find_fetch k (pending s) with
      | None => s
      | Some f =>
          loadPosts_resume (pageNum f) (replace f) r
            (set_pending (filter (λ f', fetch_id f' ≠ k) (pending s)) s)
      end
  | NewPost newPost =>
      if realtimeChannel s then handleNewPost newPost s else s
  | UpdatePost postId updates => updatePost postId updates s
  | RemovePost postId => removePost postId s
  | Unmount => unmount s
  end.

Definition run (s : store) (events : list event) : store := foldl step s events.

(** *** Provenance of list entries

    The same updates replayed on posts paired with the path that brought
    them into the list. *)
Inductive origin := Realtime | Paginated.

Definition okey (x : origin * Post) : string := Post.id x.2.

Definition setPosts_origin (u : update) (prev : list (origin * Post))
    : list (origin * Post) :=
  match u with
  | Replace newPosts => pair Paginated <$> newPosts
  | Append newPosts => appendUnique okey (pair Paginated <$> newPosts) prev
  | Prepend newPost => prependNew okey (Realtime, newPost) prev
  | Patch postId updates =>
      (λ x, if decide (okey x = postId) then (x.1, spread x.2 updates) else x) <$> prev
  | Remove postId => dropPost okey postId prev
  end.

Definition provenance (us : list update) : list (origin * Post) :=
  foldl (λ l u, setPosts_origin u l) [] us.


(** Every entry that came in by realtime insert sits above every entry that
    came in by a page fetch. *)
Definition realtime_first (l : list (origin * Post)) : Prop :=
  ∃ rt pg, l = rt ++ pg
           ∧ Forall (λ x, x.1 = Realtime) rt
           ∧ Forall (λ x, x.1 = Paginated) pg.

(** The list is the replay of the updates recorded so far. *)
Definition replayed (s : store) : Prop := posts s = snd <$> provenance (history s).

(** *** Events and updates that bring no duplicate with them *)

(** An update that cannot introduce a duplicate by itself: a fetched page
    lists every post once, and a patch leaves the id alone. *)
Definition tidy_update (u : update) : Prop :=
  match u with
  | Replace newPosts | Append newPosts => NoDup (Post.id <$> newPosts)
  | Patch _ updates => p_id updates = None
  | Prepend _ | Remove _ => True
  end.

(** An event that brings no duplicate with it. *)
Definition tidy_event (e : event) : Prop :=
  match e with
  | Fetched _ (Resolved r) =>
      match Response.data r with
      | Some newPosts => NoDup (Post.id <$> newPosts)
      | None => True
      end
  | UpdatePost _ updates => p_id updates = None
  | _ => True
  end.

(** Which update an event may apply to the list. *)
Definition caused_by (e : event) (u : update) : Prop :=
  match e, u with
  | Fetched _ (Resolved r), Replace newPosts
  | Fetched _ (Resolved r), Append newPosts => Response.data r = Some newPosts
  | NewPost p, Prepend p' => p = p'
  | UpdatePost i x, Patch i' x' => i = i' ∧ x = x'
  | RemovePost i, Remove i' => i = i'
  | _, _ => False
  end.

End Feed.

(** ** The vote reconciliation store: [useVote] *)

Module Vote.

(** The two network calls the hook makes. *)
Inductive request :=
| VoteOnPost (userId postId : string) (voteType : VoteType)
| RemoveVote (userId postId : string).

Definition request_post (r : request) : string :=
  match r with
  | VoteOnPost _ postId _ => postId
  | RemoveVote _ postId => postId
  end.

(** The closures the hook hands to [setTimeout]: the debounced bodies of
    [vote] and [removeVote] (300 ms), and the deferred clearing of the
    optimistic entry after a successful call (1000 ms). *)
Inductive callback :=
| SubmitVote (userId postId : string) (voteType : VoteType)
| SubmitRemove (userId postId : string)
| ClearOptimistic (postId : string).

(** An armed timer of the JavaScript runtime. *)
Record timer := Timer {
  handle : nat;
  due : nat;
  action : callback
}.

(** A network call that has been issued and whose promise is pending. *)
Record call := Call {
  call_id : nat;
  call_request : request
}.

(** One [useVote(userId)] instance and the part of the runtime it drives:
    the React state [isVoting] and [optimisticVotes], the ref
    [voteTimeouts] (post id to timer handle; a handle is an object, hence
    always truthy), the clock, the armed timers, the pending calls, and the
    log [sent] of every call issued with the time it went out. *)
Record hook := Hook {
  userId : option string;
  isVoting : bool;
  optimisticVotes : gmap string (option VoteType);
  voteTimeouts : gmap string nat;
  now : nat;
  timers : list timer;
  next_timer : nat;
  inflight : list call;
  next_call : nat;
  sent : list (nat * request)
}.

Definition setIsVoting (b : bool) (s : hook) : hook :=
  Hook (userId s) b (optimisticVotes s) (voteTimeouts s) (now s) (timers s)
       (next_timer s) (inflight s) (next_call s) (sent s).

Definition setOptimisticVotes
    (f : gmap string (option VoteType) → gmap string (option VoteType)) (s : hook)
    : hook :=
  Hook (userId s) (isVoting s) (f (optimisticVotes s)) (voteTimeouts s) (now s)
       (timers s) (next_timer s) (inflight s) (next_call s) (sent s).

Definition set_voteTimeouts (f : gmap string nat → gmap string nat) (s : hook) : hook :=
  Hook (userId s) (isVoting s) (optimisticVotes s) (f (voteTimeouts s)) (now s)
       (timers s) (next_timer s) (inflight s) (next_call s) (sent s).

Definition set_now (t : nat) (s : hook) : hook :=
  Hook (userId s) (isVoting s) (optimisticVotes s) (voteTimeouts s) t (timers s)
       (next_timer s) (inflight s) (next_call s) (sent s).

Definition set_timers (l : list timer) (s : hook) : hook :=
  Hook (userId s) (isVoting s) (optimisticVotes s) (voteTimeouts s) (now s) l
       (next_timer s) (inflight s) (next_call s) (sent s).

Definition set_inflight (l : list call) (s : hook) : hook :=
  Hook (userId s) (isVoting s) (optimisticVotes s) (voteTimeouts s) (now s)
       (timers s) (next_timer s) l (next_call s) (sent s).

(** [setTimeout(cb, delay)]: arms a timer and returns its handle. *)
Definition setTimeout (cb : callback) (delay : nat) (s : hook) : nat * hook :=
  (next_timer s,
   Hook (userId s) (isVoting s) (optimisticVotes s) (voteTimeouts s) (now s)
        (timers s ++ [Timer (next_timer s) (now s + delay) cb])
        (S (next_timer s)) (inflight s) (next_call s) (sent s)).

(** [clearTimeout(h)]: disarms the timer if it is still armed. *)
Definition clearTimeout (h : nat) (s : hook) : hook :=
  set_timers (filter (λ tm, handle tm ≠ h) (timers s)) s.

(** [if (voteTimeouts.current[postId]) clearTimeout(voteTimeouts.current[postId])] *)
Definition clear_existing (postId : string) (s : hook) : hook :=
  match voteTimeouts s !! postId with
  | Some h => clearTimeout h s
  | None => s
  end.

(** The steps [vote] and [removeVote] have in common once the user is
    known: disarm the registered timer, set the optimistic entry, arm the
    debounced callback and register its handle. *)
Definition debounce (postId : string) (optimistic : option VoteType) (cb : callback)
    (s : hook) : hook :=
  let s1 := clear_existing postId s in
  let s2 := setOptimisticVotes (λ prev, <[postId := optimistic]> prev) s1 in
  let '(h, s3) := setTimeout cb 300 s2 in
  set_voteTimeouts (λ m, <[postId := h]> m) s3.

(** The synchronous part of [vote]. *)
Definition vote (postId : string) (voteType : VoteType) (s : hook) : hook :=
  if negb (truthy (userId s)) then s
  else
    let u := default EmptyString (userId s) in
    debounce postId (Some voteType) (SubmitVote u postId voteType) s.

(** The synchronous part of [removeVote]. *)
Definition removeVote (postId : string) (s : hook) : hook :=
  if negb (truthy (userId s)) then s
  else
    let u := default EmptyString (userId s) in
    debounce postId None (SubmitRemove u postId) s.

Definition toggleVote (postId : string) (currentVote : option VoteType)
    (newVoteType : VoteType) (s : hook) : hook :=
  if decide (currentVote = Some newVoteType) then removeVote postId s
  else vote postId newVoteType s.

Definition getEffectiveVote (postId : string) (serverVote : option VoteType)
    (s : hook) : option VoteType :=
  match optimisticVotes s !! postId with
  | Some optimisticVote => optimisticVote
  | None => serverVote
  end.

Definition clearOptimisticVote (postId : string) (s : hook) : hook :=
  setOptimisticVotes (λ prev, delete postId prev) s.

Definition cleanup (s : hook) : hook :=
  set_voteTimeouts (λ _, ∅)
    (foldr clearTimeout s (snd <$> map_to_list (voteTimeouts s))).

(** [await PostService...]: the call goes out and the callback is
    suspended. *)
Definition issue (r : request) (s : hook) : hook :=
  Hook (userId s) (isVoting s) (optimisticVotes s) (voteTimeouts s) (now s)
       (timers s) (next_timer s)
       (inflight s ++ [Call (next_call s) r]) (S (next_call s))
       (sent s ++ [(now s, r)]).

(** A timer callback up to its first [await] (the grace callback has
    none). *)
Definition run_callback (cb : callback) (s : hook) : hook :=
  match cb with
  | SubmitVote u postId voteType =>
      issue (VoteOnPost u postId voteType) (setIsVoting true s)
  | SubmitRemove u postId =>
      issue (RemoveVote u postId) (setIsVoting true s)
  | ClearOptimistic postId =>
      setOptimisticVotes (λ prev, delete postId prev) s
  end.

(** A debounced callback from its [await] on: the [error] branch, the
    success branch, the [catch] block and the [finally] block.  Both
    callbacks have the same continuation. *)
Definition settle (postId : string) (r : awaited (response unit)) (s : hook) : hook :=
  let s1 :=
    match r with
    | Resolved r =>
        if truthy (Response.error r)
        then setOptimisticVotes (λ prev, delete postId prev) s
        else (setTimeout (ClearOptimistic postId) 1000 s).2
    | Rejected => setOptimisticVotes (λ prev, delete postId prev) s
    end in
  set_voteTimeouts (λ m, delete postId m) (setIsVoting false s1).

(** *** The event loop *)

(** Among the given timers, the one with the least deadline; of two timers
    with the same deadline, the one armed first. *)
Fixpoint earliest (l : list timer) : option timer :=
  match l with
  | [] => None
  | tm :: l' =>
      match earliest l' with
      | Some tm' => if (due tm <=? due tm')%nat then Some tm else Some tm'
      | None => Some tm
      end
  end.

Definition next_due (t : nat) (s : hook) : option timer :=
  earliest (filter (λ tm, due tm ≤ t) (timers s)).

(** The runtime fires a timer: it is disarmed and its callback runs at its
    deadline (or at once, if the deadline has passed). *)
Definition fire (tm : timer) (s : hook) : hook :=
  run_callback (action tm)
    (set_now (now s `max` due tm) (clearTimeout (handle tm) s)).

(** All timers due by time [t] fire, in deadline order.  No callback arms a
    timer, so one round per armed timer is enough. *)
Fixpoint fire_due (fuel : nat) (t : nat) (s : hook) : hook :=
  match fuel with
  | 0 => s
  | S fuel =>
      match next_due t s with
      | None => s
      | Some tm => fire_due fuel t (fire tm s)
      end
  end.

Definition advance (t : nat) (s : hook) : hook :=
  let s' := fire_due (length (timers s)) t s in
  set_now (now s' `max` t) s'.

Inductive event :=
| CallVote (postId : string) (voteType : VoteType)
| CallRemoveVote (postId : string)
| CallToggleVote (postId : string) (currentVote : option VoteType)
    (newVoteType : VoteType)
| CallClearOptimisticVote (postId : string)
| CallCleanup
| Settled (k : nat) (r : awaited (response unit))
| Wait.

Definition find_call (k : nat) (l : list call) : option call :=
  List.find (λ c, (call_id c =? k)%nat) l.

Definition handle_event (s : hook) (e : event) : hook :=
  match e with
  | CallVote postId voteType => vote postId voteType s
  | CallRemoveVote postId => removeVote postId s
  | CallToggleVote postId currentVote newVoteType =>
      toggleVote postId currentVote newVoteType s
  | CallClearOptimisticVote postId => clearOptimisticVote postId s
  | CallCleanup => cleanup s
  | Settled k r =>
      match find_call k (inflight s) with
      | None => s
      | Some c =>
          settle (request_post (call_request c)) r
            (set_inflight (filter (λ c', call_id c' ≠ k) (inflight s)) s)
      end
  | Wait => s
  end.

(** An event happening at time [t]: timers due by then fire first. *)
Definition step (s : hook) (te : nat * event) : hook :=
  handle_event (advance te.1 s) te.2.

Definition run (s : hook) (schedule : list (nat * event)) : hook :=
  foldl step s schedule.

(** [useState] and [useRef] defaults. *)
Definition initial (userId : option string) : hook :=
  Hook userId false ∅ ∅ 0 [] 1 [] 0 [].

(** Projections onto one post. *)
Definition callback_post (cb : callback) : option string :=
  match cb with
  | SubmitVote _ postId _ => Some postId
  | SubmitRemove _ postId => Some postId
  | ClearOptimistic _ => None
  end.

(** The armed debounce timers of a post. *)
Definition armed (postId : string) (s : hook) : list timer :=
  filter (λ tm, callback_post (action tm) = Some postId) (timers s).

(** The calls in flight for a post. *)
Definition inflight_for (postId : string) (s : hook) : list call :=
  filter (λ c, request_post (call_request c) = postId) (inflight s).

(** The calls issued so far for a post. *)
Definition sent_for (postId : string) (s : hook) : list (nat * request) :=
  filter (λ x, request_post x.2 = postId) (sent s).

(** Whether the outcome of a call takes the [error] or the [catch] branch. *)
Definition failed (r : awaited (response unit)) : bool :=
  match r with
  | Resolved r => truthy (Response.error r)
  | Rejected => true
  end.

(** *** Bursts of taps *)

(** What a tap asks for: the post it is on and its kind, a vote kind or
    ([None]) the removal of the vote. *)
Definition tap (e : event) : option (string * option VoteType) :=
  match e with
  | CallVote postId voteType => Some (postId, Some voteType)
  | CallRemoveVote postId => Some (postId, None)
  | CallToggleVote postId currentVote newVoteType =>
      Some (postId,
            if decide (currentVote = Some newVoteType) then None else Some newVoteType)
  | _ => None
  end.

Definition tap_on (postId : string) (e : event) : option (option VoteType) :=
  match tap e with
  | Some (q, kind) => if decide (q = postId) then Some kind else None
  | None => None
  end.

(** The call that submits a kind. *)
Definition request_for (u postId : string) (kind : option VoteType) : request :=
  match kind with
  | Some voteType => VoteOnPost u postId voteType
  | None => RemoveVote u postId
  end.

(** The call a timer callback issues, if any. *)
Definition submits (cb : callback) : option request :=
  match cb with
  | SubmitVote u postId voteType => Some (VoteOnPost u postId voteType)
  | SubmitRemove u postId => Some (RemoveVote u postId)
  | ClearOptimistic _ => None
  end.

(** A schedule whose times do not run backwards, starting at [from]. *)
Fixpoint chronological (from : nat) (schedule : list (nat * event)) : Prop :=
  match schedule with
  | [] => True
  | (t, _) :: rest => from ≤ t ∧ chronological t rest
  end.

(** In the schedule every tap on [postId] comes less than 300 ms after the
    tap on [postId] before it ([last] is the time of the latest tap on
    [postId] that precedes the schedule), and [cleanup] is not called. *)
Fixpoint rapid (postId : string) (last : option nat) (schedule : list (nat * event))
    : Prop :=
  match schedule with
  | [] => True
  | (t, e) :: rest =>
      match tap_on postId e with
      | Some _ =>
          match last with Some t' => t < t' + 300 | None => True end
          ∧ rapid postId (Some t) rest
      | None => e ≠ CallCleanup ∧ rapid postId last rest
      end
  end.

(** Time and kind of the last tap on [postId] in the schedule, [acc] being
    the last tap before it. *)
Definition note (postId : string) (acc : option (nat * option VoteType))
    (te : nat * event) : option (nat * option VoteType) :=
  match tap_on postId te.2 with
  | Some kind => Some (te.1, kind)
  | None => acc
  end.

Definition last_tap (postId : string) (schedule : list (nat * event))
    : option (nat * option VoteType) :=
  foldl (note postId) None schedule.

(** The calls issued so far for a post, without their times. *)
Definition requests_for (postId : string) (s : hook) : list request :=
  snd <$> sent_for postId s.

(** Timer handles are unique and older than the next one to be handed out;
    a registered handle is older too, and a timer that carries it is a
    debounce timer of the post it is registered for. *)
Definition well_formed (s : hook) : Prop :=
  NoDup (handle <$> timers s)
  ∧ (∀ tm, tm ∈ timers s → handle tm < next_timer s)
  ∧ (∀ q h, voteTimeouts s !! q = Some h →
       h < next_timer s
       ∧ ∀ tm, tm ∈ timers s → handle tm = h → callback_post (action tm) = Some q).

(** Where a post stands in a burst: not tapped yet; tapped at [t] with the
    debounce timer armed; or submitted, the timer of the tap at [t] having
    fired. *)
Inductive stage :=
| Untapped
| Pending (t : nat) (kind : option VoteType)
| Submitted (t : nat) (kind : option VoteType).

Definition stage_tap (st : stage) : option (nat * option VoteType) :=
  match st with
  | Untapped => None
  | Pending t kind | Submitted t kind => Some (t, kind)
  end.

(** The stage of [postId] as the state of the hook shows it, [before] being
    the calls issued for the post before the burst. *)
Definition tracking (u postId : string) (before : list request) (st : stage)
    (s : hook) : Prop :=
  match st with
  | Untapped =>
      armed postId s = [] ∧ inflight_for postId s = []
      ∧ requests_for postId s = before
  | Pending t kind =>
      ∃ tm, armed postId s = [tm]
            ∧ voteTimeouts s !! postId = Some (handle tm)
            ∧ due tm = t + 300
            ∧ submits (action tm) = Some (request_for u postId kind)
            ∧ inflight_for postId s = []
            ∧ requests_for postId s = before
  | Submitted t kind =>
      armed postId s = []
      ∧ requests_for postId s = before ++ [request_for u postId kind]
      ∧ t + 300 ≤ now s
  end.

(** The stage after the timers due by [t] have fired. *)
Definition after (t : nat) (st : stage) : stage :=
  match st with
  | Pending t' kind => if decide (t' + 300 ≤ t) then Submitted t' kind else st
  | _ => st
  end.

(** All armed debounce timers, whatever their post. *)
Definition debouncing (s : hook) : list timer :=
  filter (λ tm, is_Some (callback_post (action tm))) (timers s).

(** The hook serves the single post [postId] one submission at a time: at
    most one debounce timer or one call exists, an armed debounce timer is
    the one registered for [postId], and [isVoting] is set while a call is
    in flight. *)
Definition serialised (postId : string) (s : hook) : Prop :=
  length (debouncing s) + length (inflight s) ≤ 1
  ∧ (∀ tm, tm ∈ debouncing s →
       callback_post (action tm) = Some postId
       ∧ voteTimeouts s !! postId = Some (handle tm))
  ∧ (inflight s ≠ [] → isVoting s = true).

End Vote.

(** ** The vote controls of [PostCard] *)

Module Card.

(** A [PostCard] instance: its [post] prop, its own [useVote(currentUserId)]
    instance (whose [userId] is the [currentUserId] prop) and the alerts it
    has raised. *)
Record card := Card {
  post : Post;
  hook : Vote.hook;
  alerts : list (string * string)
}.

Definition currentUserId (c : card) : option string := Vote.userId (hook c).

Definition set_hook (h : Vote.hook) (c : card) : card :=
  Card (post c) h (alerts c).

Definition effectiveVote (c : card) : option VoteType :=
  Vote.getEffectiveVote (Post.id (post c)) (Post.user_vote (post c)) (hook c).

Definition greenCount (c : card) : Z :=
  let count := default 0%Z (Post.green_votes (post c)) in
  let count :=
    if bool_decide (Post.user_vote (post c) = Some green)
       && bool_decide (effectiveVote c ≠ Some green)
    then (count - 1)%Z else count in
  let count :=
    if bool_decide (Post.user_vote (post c) ≠ Some green)
       && bool_decide (effectiveVote c = Some green)
    then (count + 1)%Z else count in
  count.

Definition redCount (c : card) : Z :=
  let count := default 0%Z (Post.red_votes (post c)) in
  let count :=
    if bool_decide (Post.user_vote (post c) = Some red)
       && bool_decide (effectiveVote c ≠ Some red)
    then (count - 1)%Z else count in
  let count :=
    if bool_decide (Post.user_vote (post c) ≠ Some red)
       && bool_decide (effectiveVote c = Some red)
    then (count + 1)%Z else count in
  count.

Definition handleVote (voteType : VoteType) (c : card) : card :=
  if negb (truthy (currentUserId c))
  then Card (post c) (hook c) (alerts c ++ [("Login Required", "Please log in to vote")])
  else if decide (effectiveVote c = Some voteType)
  then set_hook (Vote.removeVote (Post.id (post c)) (hook c)) c
  else set_hook (Vote.vote (Post.id (post c)) voteType (hook c)) c.

(** [onPress] of a vote button, which is [disabled={isVoting}]. *)
Definition press (voteType : VoteType) (c : card) : card :=
  if Vote.isVoting (hook c) then c else handleVote voteType c.

(** A render with a new [post] prop.  Cards are keyed by post id in the
    list, so an instance only ever sees data for the id it was created
    with. *)
Definition rerender (newPost : Post) (c : card) : card :=
  if decide (Post.id newPost = Post.id (post c))
  then Card newPost (hook c) (alerts c) else c.

Inductive event :=
| Press (voteType : VoteType)
| Settled (k : nat) (r : awaited (response unit))
| Rerender (newPost : Post)
| Wait.

Definition handle_event (c : card) (e : event) : card :=
  match e with
  | Press voteType => press voteType c
  | Settled k r => set_hook (Vote.handle_event (hook c) (Vote.Settled k r)) c
  | Rerender newPost => rerender newPost c
  | Wait => c
  end.

Definition step (c : card) (te : nat * event) : card :=
  handle_event (set_hook (Vote.advance te.1 (hook c)) c) te.2.

Definition run (c : card) (schedule : list (nat * event)) : card :=
  foldl step c schedule.

Definition mount (post : Post) (currentUserId : option string) : card :=
  Card post (Vote.initial currentUserId) [].

(** What the vote section of the card shows: the highlighted kind and the
    two counts. *)
Definition display (c : card) : option VoteType * Z * Z :=
  (effectiveVote c, greenCount c, redCount c).

(** The invariant of a card: its hook serves the card's post one
    submission at a time. *)
Definition serialised (c : card) : Prop :=
  Vote.serialised (Post.id (post c)) (hook c).

End Card.

(** ** Concrete data used by the examples below *)

Module Examples.

Definition rows : list Gateway.post_row :=
  [Gateway.PostRow "A" "u1" "a.png" None None (Some true) "t2" None;
   Gateway.PostRow "B" "u2" "b.png" None None None "t1" None].

(** A backend whose posts query answers and whose vote queries fail. *)
Definition votes_down : Gateway.backend :=
  Gateway.Backend
    (λ _ _, Resolved (Response.mk (Some rows) None))
    (λ _, Resolved (Response.mk None (Some "timeout")))
    (λ _ _, Resolved (Response.mk None (Some "timeout"))).

Definition mkpost (id : string) : Post :=
  Post.mk id "author" "image.png" None None true "2025-01-01" (Some 0%Z) (Some 0%Z)
    None None.

(** The post ["P"] as the server reports it once a green vote of the
    viewer has been recorded. *)
Definition voted_post : Post :=
  Post.mk "P" "author" "image.png" None None true "2025-01-01" (Some 1%Z) (Some 0%Z)
    (Some green) None.

(** A full page: twenty posts, ["A"] to ["T"]. *)
Definition full_page : list Post :=
  (λ i, mkpost (String (Ascii.ascii_of_nat (65 + i)) EmptyString)) <$> seq 0 20.

(** The successful answer of a vote call and of a page fetch. *)
Definition ok : awaited (response unit) := Resolved (Response.mk (Some tt) None).

Definition failed : awaited (response unit) :=
  Resolved (Response.mk None (Some "Failed to submit vote")).

Definition page (l : list Post) : awaited (response (list Post)) :=
  Resolved (Response.mk (Some l) None).

End Examples.

(** ** What the feed shows: [PostFeed] *)

Module FeedView.

(** What [PostFeed] returns: the error state, or the list with its data,
    whether the empty state stands in for the rows ([ListEmptyComponent] is
    rendered by [FlatList] when [data] is empty), whether the footer loader
    is shown and whether the refresh control spins. *)
Inductive screen :=
| ErrorState (message : option string)
| PostList (data : list Post) (emptyState : bool) (footer : bool) (refreshing : bool).

Definition PostFeed (s : Feed.store) : screen :=
  if truthy (Feed.error s) && (length (Feed.posts s) =? 0)%nat
  then ErrorState (Feed.error s)
  else PostList (Feed.posts s)
         ((length (Feed.posts s) =? 0)%nat && negb (Feed.isLoading s))
         (Feed.isLoadingMore s) (Feed.isLoading s).

(** Whether the outcome of [getPosts] takes the [postsError] branch or the
    [catch] block of [loadPosts]. *)
Definition fetch_failed (r : awaited (response (list Post))) : bool :=
  match r with
  | Resolved r => truthy (Response.error r)
  | Rejected => true
  end.

(** What the environment delivers to a hook without the hook's caller
    doing anything: answers to fetches and realtime inserts. *)
Definition delivery (e : Feed.event) : bool :=
  match e with
  | Feed.Fetched _ _ | Feed.NewPost _ => true
  | _ => false
  end.

(** What the user of the hook sees of its state. *)
Definition shown (s : Feed.store)
    : list Post * bool * bool * option string * bool * nat :=
  (Feed.posts s, Feed.isLoading s, Feed.isLoadingMore s, Feed.error s,
   Feed.hasMore s, Feed.page s).

(** A request for one page of twenty at a page boundary, for user [u]. *)
Definition page_request (u : option string) (rq : option string * nat * nat) : Prop :=
  rq.1.1 = u ∧ rq.1.2 = 20 ∧ ∃ n, rq.2 = n * 20.

(** An update that a page fetch or the hook's caller applies, as opposed
    to the realtime subscription. *)
Definition from_fetch_or_caller (u : Feed.update) : bool :=
  match u with
  | Feed.Prepend _ => false
  | _ => true
  end.

End FeedView.

(** ** The feed hook run against a backend *)

Module Session.

(** The oldest pending [loadPosts] gets its answer: what
    [PostService.getPosts(userId, pageSize, offset)] returns for the
    arguments it was called with, [offset] being [pageNum * pageSize]. *)
Definition answer (db : Gateway.backend) (s : Feed.store) : Feed.store :=
  match Feed.pending s with
  | [] => s
  | f :: _ =>
      Feed.step s
        (Feed.Fetched (Feed.fetch_id f)
           (Resolved (Gateway.getPosts db (Feed.userId s) Feed.pageSize
                        (Feed.pageNum f * Feed.pageSize))))
  end.

(** The feed is opened and the initial load is answered. *)
Definition open (db : Gateway.backend) (userId : option string) : Feed.store :=
  answer db (Feed.mount userId).

(** The viewer scrolls to the end of the list and the load, if one was
    started, is answered. *)
Definition scroll (db : Gateway.backend) (s : Feed.store) : Feed.store :=
  answer db (Feed.handleEndReached s).

(** A backend whose posts query serves slices of an unchanging table
    ([range(offset, offset + limit - 1)] of the ordered rows) and whose
    vote queries come back, with whatever result. *)
Definition serves (rows : list Gateway.post_row) (db : Gateway.backend) : Prop :=
  (∀ limit offset,
     Gateway.select_posts db limit offset
     = Resolved (Response.mk (Some (take limit (drop offset rows))) None))
  ∧ (∀ ids, Gateway.select_votes db ids ≠ Rejected)
  ∧ (∀ u ids, Gateway.select_user_votes db u ids ≠ Rejected).

(** The state of the hook once [n] scrolls after the opening have been
    answered by a backend serving [rows]: nothing is pending, no flag and
    no error is set, the list holds the first [n + 1] pages of the table,
    and [hasMore] tells whether the last answer was a full page. *)
Definition loaded (rows : list Gateway.post_row) (u : option string) (n : nat)
    (s : Feed.store) : Prop :=
  Feed.mounted s = true ∧ Feed.pending s = []
  ∧ Feed.isLoading s = false ∧ Feed.isLoadingMore s = false
  ∧ Feed.userId s = u ∧ Feed.error s = None
  ∧ Post.id <$> Feed.posts s = Gateway.row_id <$> take ((n + 1) * 20) rows
  ∧ if Feed.hasMore s then Feed.page s = n ∧ (n + 1) * 20 ≤ length rows
    else length rows ≤ (n + 1) * 20.

(** The table of [Examples.rows] with no votes. *)
Definition example_table : Gateway.backend :=
  Gateway.Backend
    (λ limit offset,
       Resolved (Response.mk
         (Some (take limit (drop offset
            [Gateway.PostRow "A" "u1" "a.png" None None (Some true) "t2" None;
             Gateway.PostRow "B" "u2" "b.png" None None None "t1" None]))) None))
    (λ _, Resolved (Response.mk (Some []) None))
    (λ _ _, Resolved (Response.mk (Some []) None)).

End Session.


(** ** Reading a card's schedule and display *)

Module CardView.

Definition is_press (e : Card.event) : bool :=
  match e with
  | Card.Press _ => true
  | _ => false
  end.

(** The alert [handleVote] raises for a viewer who is not signed in. *)
Definition login_required : string * string :=
  ("Login Required", "Please log in to vote").

(** One where the vote is of the given kind, zero otherwise. *)
Definition one_if (vote : option VoteType) (kind : VoteType) : Z :=
  if bool_decide (vote = Some kind) then 1%Z else 0%Z.

(** The votes of the other users, according to the [post] prop: the count
    the server reported, less the viewer's own vote as the server knew
    it. *)
Definition others (kind : VoteType) (post : Post) : Z :=
  (default 0 (match kind with
              | green => Post.green_votes post
              | red => Post.red_votes post
              end)
   - one_if (Post.user_vote post) kind)%Z.

End CardView.

(** ** Reading a hook's schedule *)

Module VoteView.

(** The call [r], sent at time [t] for user [u], was asked for: the
    schedule holds a tap on the call's post, of the call's kind, at least
    300 ms before [t]. *)
Definition asked_by (schedule : list (nat * Vote.event)) (u : string) (t : nat)
    (r : Vote.request) : Prop :=
  ∃ t0 e kind,
    (t0, e) ∈ schedule
    ∧ Vote.tap e = Some (Vote.request_post r, kind)
    ∧ r = Vote.request_for u (Vote.request_post r) kind
    ∧ t0 + 300 ≤ t.

(** Every debounce timer and every call sent so far was asked for by a tap
    of the schedule. *)
Definition accounted (schedule : list (nat * Vote.event)) (u : string) (s : Vote.hook)
    : Prop :=
  Vote.userId s = Some u
  ∧ (∀ tm r, tm ∈ Vote.timers s → Vote.submits (Vote.action tm) = Some r →
       asked_by schedule u (Vote.due tm) r)
  ∧ (∀ t r, (t, r) ∈ Vote.sent s → asked_by schedule u t r).

End VoteView.


(** ** More example data *)

Module Samples.

(** The table of [Examples.rows] with three votes on ["A"] (two green, one
    red, one of the green ones by user ["u"]) and one red vote on ["B"]. *)
Definition voted_table : Gateway.backend :=
  Gateway.Backend
    (λ _ _, Resolved (Response.mk (Some Examples.rows) None))
    (λ _, Resolved (Response.mk
            (Some [Gateway.VoteRow "A" green; Gateway.VoteRow "A" red;
                   Gateway.VoteRow "B" red; Gateway.VoteRow "A" green]) None))
    (λ _ _, Resolved (Response.mk (Some [Gateway.VoteRow "A" green]) None)).

End Samples.


(** ** The vote services and the detail view *)

Module Service.

(** What a query of the SDK resolves with: [{ data, error }], where [error]
    is an error object or null.  Only the presence of the error is
    looked at. *)
Record sdk_result (A : Type) := SdkResult {
  sdk_data : option A;
  sdk_failed : bool
}.
Arguments SdkResult {A} _ _.
Arguments sdk_data {A} _.
Arguments sdk_failed {A} _.

(** [PostService.voteOnPost] from its [await] on. *)
Definition voteOnPost {A : Type} (answer : awaited (sdk_result A)) : response A :=
  match answer with
  | Resolved r =>
      if sdk_failed r then Response.mk None (Some "Failed to submit vote")
      else Response.mk (sdk_data r) None
  | Rejected => Response.mk None (Some "Network error")
  end.

(** [PostService.removeVote] from its [await] on; it returns [{ error }]
    only. *)
Definition removeVote {A : Type} (answer : awaited (sdk_result A)) : response unit :=
  match answer with
  | Resolved r =>
      if sdk_failed r then Response.mk None (Some "Failed to remove vote")
      else Response.mk None None
  | Rejected => Response.mk None (Some "Network error")
  end.

(** What the debounced callback of [useVote] awaits for a call it issued:
    the promise of the service resolves with the service's result, of
    which the callback reads [error]. *)
Definition settles {A : Type} (request : Vote.request) (answer : awaited (sdk_result A))
    : awaited (response unit) :=
  match request with
  | Vote.VoteOnPost _ _ _ =>
      Resolved (Response.mk None (Response.error (voteOnPost answer)))
  | Vote.RemoveVote _ _ => Resolved (removeVote answer)
  end.

(** Whether the SDK call went wrong: an error result or a rejected
    promise. *)
Definition went_wrong {A : Type} (answer : awaited (sdk_result A)) : bool :=
  match answer with
  | Resolved r => sdk_failed r
  | Rejected => true
  end.

End Service.

(** [useSinglePost]: the post of a detail view. *)
Module Detail.

Record single := Single {
  post : option Post;
  isLoading : bool;
  error : option string;
  mounted : bool
}.

Definition setPost (p : option Post) (s : single) : single :=
  Single p (isLoading s) (error s) (mounted s).

Definition setIsLoading (b : bool) (s : single) : single :=
  Single (post s) b (error s) (mounted s).

Definition setError (e : option string) (s : single) : single :=
  Single (post s) (isLoading s) e (mounted s).

(** [posts?.find(p => p.id === postId)] *)
Definition find (postId : string) (posts : option (list Post)) : option Post :=
  List.find (λ p, bool_decide (Post.id p = postId)) (default [] posts).

(** [loadPost] up to its [await]; the call is
    [PostService.getPosts(userId, 50, 0)]. *)
Definition loadPost_start (s : single) : single :=
  setError None (setIsLoading true s).

(** [loadPost] from its [await] on. *)
Definition loadPost_resume (postId : string) (r : awaited (response (list Post)))
    (s : single) : single :=
  let s1 :=
    match r with
    | Rejected => if mounted s then setError (Some "Failed to load post") s else s
    | Resolved r =>
        if negb (mounted s) then s
        else if truthy (Response.error r) then setError (Response.error r) s
        else setPost (find postId (Response.data r)) s
    end in
  if mounted s1 then setIsLoading false s1 else s1.

(** [loadPost] against a backend. *)
Definition loadPost (db : Gateway.backend) (userId : option string) (postId : string)
    (s : single) : single :=
  loadPost_resume postId (Resolved (Gateway.getPosts db userId 50 0)) (loadPost_start s).

(** [useState] and [useRef] defaults. *)
Definition initial : single := Single None true None true.

End Detail.


(** ** Signing in: [AuthScreen], [useAuth], [AuthService]

    A character of a string stands for a code unit; the functions below
    tell the ten ASCII digits from everything else. *)

Module Auth.

(** [\d] *)
Definition is_digit (c : Ascii.ascii) : bool :=
  (48 <=? Ascii.nat_of_ascii c)%nat && (Ascii.nat_of_ascii c <=? 57)%nat.

(** [text.replace(/\D/g, '')] *)
Fixpoint digits (text : string) : string :=
  match text with
  | EmptyString => EmptyString
  | String c rest => if is_digit c then String c (digits rest) else digits rest
  end.

(** [s.slice(a, b)], for [0 <= a <= b]. *)
Definition slice (a b : nat) (s : string) : string := String.substring a (b - a) s.

(** [s.slice(a)] *)
Definition slice_from (a : nat) (s : string) : string :=
  String.substring a (String.length s - a) s.

(** [formatPhoneNumber] of [AuthScreen]; the phone field holds
    [formatPhoneNumber(text)] for the text of its last change. *)
Definition formatPhoneNumber (text : string) : string :=
  let cleaned := digits text in
  if (String.length cleaned <=? 3)%nat then cleaned
  else if (String.length cleaned <=? 6)%nat
  then "(" +:+ slice 0 3 cleaned +:+ ") " +:+ slice_from 3 cleaned
  else "(" +:+ slice 0 3 cleaned +:+ ") " +:+ slice 3 6 cleaned
       +:+ "-" +:+ slice 6 10 cleaned.

(** How far a submission gets before its first [await]: the screen raises
    an alert and returns; or the hook returns an error without calling the
    service; or the SDK is called, with these arguments. *)
Inductive submission :=
| Alert (title message : string)
| Refused (error : string)
| SignInWithOtp (phone : string) (metadata_phone : string)
| VerifyOtp (phone token : string).

(** [AuthService.signInWithPhone] and [AuthService.verifyOTP] *)
Module AuthService.
Definition signInWithPhone (phone : string) : submission :=
  SignInWithOtp (digits phone) phone.

Definition verifyOTP (phone token : string) : submission :=
  VerifyOtp (digits phone) (digits token).
End AuthService.

(** [signInWithPhone] and [verifyOTP] of [useAuth] *)
Module UseAuth.
Definition signInWithPhone (phone : string) : submission :=
  let cleanPhone := digits phone in
  if (String.length cleanPhone <? 10)%nat then Refused "Please enter a valid phone number"
  else AuthService.signInWithPhone phone.

Definition verifyOTP (phone code : string) : submission :=
  let cleanCode := digits code in
  if negb (String.length cleanCode =? 6)%nat then Refused "Please enter a valid 6-digit code"
  else AuthService.verifyOTP phone code.
End UseAuth.

(** [handlePhoneSubmit] and [handleOTPSubmit] of [AuthScreen], given the
    contents of the phone and code fields. *)
Module AuthScreen.
Definition handlePhoneSubmit (phone : string) : submission :=
  if (String.length (digits phone) <? 10)%nat
  then Alert "Invalid Phone" "Please enter a valid 10-digit phone number"
  else
    let cleanPhone := "+1" +:+ digits phone in
    UseAuth.signInWithPhone cleanPhone.

Definition handleOTPSubmit (phone otp : string) : submission :=
  if (String.length otp <? 6)%nat
  then Alert "Invalid Code" "Please enter the 6-digit verification code"
  else
    let cleanPhone := "+1" +:+ digits phone in
    UseAuth.verifyOTP cleanPhone otp.
End AuthScreen.

(** Every character is a digit. *)
Fixpoint all_digits (s : string) : bool :=
  match s with
  | EmptyString => true
  | String c rest => is_digit c && all_digits rest
  end.

End Auth.


(** ** Uploads and content: [StorageService], [PostService.createPost],
    [CommentService.addComment] *)

Module Storage.

(** The complement of [[^a-zA-Z0-9.-]]. *)
Definition kept (c : Ascii.ascii) : bool :=
  let n := Ascii.nat_of_ascii c in
  ((97 <=? n) && (n <=? 122)) || ((65 <=? n) && (n <=? 90))
  || ((48 <=? n) && (n <=? 57)) || (n =? 46) || (n =? 45).

Definition underscore : Ascii.ascii := Ascii.ascii_of_nat 95.

Definition slash : Ascii.ascii := Ascii.ascii_of_nat 47.

(** [fileName.replace(/[^a-zA-Z0-9.-]/g, '_')] *)
Fixpoint cleanFileName (fileName : string) : string :=
  match fileName with
  | EmptyString => EmptyString
  | String c rest => String (if kept c then c else underscore) (cleanFileName rest)
  end.

(** The path the file is stored under; [timestamp] is [Date.now()], which
    a template literal renders in decimal. *)
Definition filePath (userId : option string) (timestamp : N) (fileName : string)
    : string :=
  if truthy userId
  then default EmptyString userId +:+ "/" +:+ pretty timestamp +:+ "_"
       +:+ cleanFileName fileName
  else pretty timestamp +:+ "_" +:+ cleanFileName fileName.

Inductive bucket := post_images | verification_docs.

(** [StorageService.uploadImage], given the size of the file, the time of
    the call, and the storage SDK: [upload] answers with the stored path,
    [getPublicUrl] with the URL of a path. *)
Definition uploadImage
    (upload : bucket → string → awaited (Service.sdk_result string))
    (getPublicUrl : bucket → string → string)
    (b : bucket) (size : N) (fileName : string) (userId : option string)
    (timestamp : N) : response (string * string) :=
  if (10 * 1024 * 1024 <? size)%N
  then Response.mk None (Some "File too large (max 10MB)")
  else
    let path := filePath userId timestamp fileName in
    match upload b path with
    | Rejected => Response.mk None (Some "Upload failed")
    | Resolved r =>
        if Service.sdk_failed r then Response.mk None (Some "Failed to upload image")
        else
          match Service.sdk_data r with
          | Some stored => Response.mk (Some (stored, getPublicUrl b path)) None
          | None => Response.mk None (Some "Upload failed")
          end
    end.

(** Every character of the string satisfies the test. *)
Fixpoint every (test : Ascii.ascii → bool) (s : string) : bool :=
  match s with
  | EmptyString => true
  | String c rest => test c && every test rest
  end.

(** A character a stored file name can hold. *)
Definition plain (c : Ascii.ascii) : bool := kept c || bool_decide (c = underscore).

Definition no_slash (c : Ascii.ascii) : bool := negb (bool_decide (c = slash)).

End Storage.

Module Content.

(** White space for [trim], among the characters of a string. *)
Definition is_white (c : Ascii.ascii) : bool :=
  let n := Ascii.nat_of_ascii c in
  ((9 <=? n) && (n <=? 13)) || (n =? 32) || (n =? 160).

Fixpoint trimStart (s : string) : string :=
  match s with
  | EmptyString => EmptyString
  | String c rest => if is_white c then trimStart rest else s
  end.

Fixpoint trimEnd (s : string) : string :=
  match s with
  | EmptyString => EmptyString
  | String c rest =>
      match trimEnd rest with
      | EmptyString => if is_white c then EmptyString else String c EmptyString
      | end_trimmed => String c end_trimmed
      end
  end.

(** [s.trim()] *)
Definition trim (s : string) : string := trimEnd (trimStart s).

(** [value?.trim() || null] *)
Definition trimmed_or_null (value : option string) : option string :=
  match value with
  | Some s => if truthy (Some (trim s)) then Some (trim s) else None
  | None => None
  end.

(** The [postData] argument of [createPost] and the row it inserts. *)
Record post_data := PostData {
  image_url : string;
  person_name : option string;
  description : option string
}.

Record post_insert := PostInsert {
  ins_created_by : string;
  ins_image_url : string;
  ins_person_name : option string;
  ins_description : option string
}.

(** [PostService.createPost]; [insert] is the [posts] insert of the SDK. *)
Definition createPost {A : Type} (insert : post_insert → awaited (Service.sdk_result A))
    (userId : string) (postData : post_data) : response A :=
  if negb (truthy (Some (image_url postData)))
  then Response.mk None (Some "Image is required")
  else
    match insert (PostInsert userId (image_url postData)
                    (trimmed_or_null (person_name postData))
                    (trimmed_or_null (description postData))) with
    | Rejected => Response.mk None (Some "Network error")
    | Resolved r =>
        if Service.sdk_failed r then Response.mk None (Some "Failed to create post")
        else Response.mk (Service.sdk_data r) None
    end.

Record comment_insert := CommentInsert {
  ins_user_id : string;
  ins_post_id : string;
  ins_content : string;
  ins_is_anonymous : bool
}.

(** [CommentService.addComment]; [insert] is the [comments] insert of the
    SDK. *)
Definition addComment {A : Type} (insert : comment_insert → awaited (Service.sdk_result A))
    (userId postId content : string) (isAnonymous : bool) : response A :=
  let trimmedContent := trim content in
  if negb (truthy (Some trimmedContent)) || (String.length trimmedContent <? 1)%nat
  then Response.mk None (Some "Comment cannot be empty")
  else if (500 <? String.length trimmedContent)%nat
  then Response.mk None (Some "Comment too long (max 500 characters)")
  else
    match insert (CommentInsert userId postId trimmedContent isAnonymous) with
    | Rejected => Response.mk None (Some "Network error")
    | Resolved r =>
        if Service.sdk_failed r then Response.mk None (Some "Failed to post comment")
        else Response.mk (Service.sdk_data r) None
    end.

Definition first_char (s : string) : option Ascii.ascii :=
  match s with
  | EmptyString => None
  | String c _ => Some c
  end.

Fixpoint last_char (s : string) : option Ascii.ascii :=
  match s with
  | EmptyString => None
  | String c EmptyString => Some c
  | String _ rest => last_char rest
  end.

(** A non-empty string that neither starts nor ends with white space. *)
Definition tidy (s : string) : Prop :=
  (∃ c, first_char s = Some c ∧ is_white c = false)
  ∧ (∃ c, last_char s = Some c ∧ is_white c = false).

(** A backend that stores what it is given. *)
Definition accepts : post_insert → awaited (Service.sdk_result post_insert) :=
  λ row, Resolved (Service.SdkResult (Some row) false).

End Content.

(** ** The age label of a card: [formatTime] of [PostCard] *)

Module Age.

(** [formatTime(dateString)], given the clock ([new Date().getTime()]), the
    time value of [new Date(dateString)] ([None] for an invalid date, whose
    time value is NaN and fails every comparison) and the locale's
    [toLocaleDateString].  The differences are whole milliseconds, and
    [Math.floor] of their quotients is the integer quotient. *)
Definition formatTime (toLocaleDateString : option Z → string) (now : Z)
    (date : option Z) : string :=
  match date with
  | None => toLocaleDateString None
  | Some time =>
      let diffMs := (now - time)%Z in
      let diffMins := (diffMs `div` 60000)%Z in
      let diffHours := (diffMs `div` 3600000)%Z in
      let diffDays := (diffMs `div` 86400000)%Z in
      if (diffMins <? 1)%Z then "now"
      else if (diffMins <? 60)%Z then pretty diffMins +:+ "m"
      else if (diffHours <? 24)%Z then pretty diffHours +:+ "h"
      else if (diffDays <? 7)%Z then pretty diffDays +:+ "d"
      else toLocaleDateString date
  end.

End Age.


(** ** The auth state: [useAuth] *)

Module Account.

Inductive verification := verification_pending | approved | rejected.

#[global] Instance verification_eq_dec : EqDecision verification.
Proof. solve_decision. Defined.

(** The fields of a [Profile] the app reads. *)
Record Profile := mkProfile {
  profile_id : string;
  username : option string;
  verification_status : verification
}.

(** Where an asynchronous function of the hook is suspended. *)
Inductive continuation :=
| InitSession      (** [initializeAuth], awaiting [getSession] *)
| InitProfile      (** [initializeAuth], awaiting [getProfile] *)
| ListenerProfile  (** the auth listener, awaiting [getProfile] *)
| RefreshProfile   (** [refreshProfile], awaiting [getProfile] *)
| SigningOut.      (** [signOut], awaiting [AuthService.signOut] *)

Record suspended := Suspended {
  await_id : nat;
  resumes : continuation
}.

(** One [useAuth()] instance: its React state ([user] is kept as the id of
    the [AuthUser]), the [mounted] flag of its effect, and the awaits that
    are pending. *)
Record auth := Auth {
  user : option string;
  profile : option Profile;
  isLoading : bool;
  error : option string;
  mounted : bool;
  waiting : list suspended;
  next_await : nat
}.

(** The four state setters.  React drops a state update of a component
    that is unmounted.  The effect of the hook has no dependencies, so its
    cleanup runs when the component unmounts and at no other time:
    [mounted s] also tells whether the component is still there. *)
Definition setUser (u : option string) (s : auth) : auth :=
  if mounted s
  then Auth u (profile s) (isLoading s) (error s) (mounted s) (waiting s) (next_await s)
  else s.

Definition setProfile (p : option Profile) (s : auth) : auth :=
  if mounted s
  then Auth (user s) p (isLoading s) (error s) (mounted s) (waiting s) (next_await s)
  else s.

Definition setIsLoading (b : bool) (s : auth) : auth :=
  if mounted s
  then Auth (user s) (profile s) b (error s) (mounted s) (waiting s) (next_await s)
  else s.

Definition setError (e : option string) (s : auth) : auth :=
  if mounted s
  then Auth (user s) (profile s) (isLoading s) e (mounted s) (waiting s) (next_await s)
  else s.

Definition set_mounted (b : bool) (s : auth) : auth :=
  Auth (user s) (profile s) (isLoading s) (error s) b (waiting s) (next_await s).

Definition set_waiting (l : list suspended) (s : auth) : auth :=
  Auth (user s) (profile s) (isLoading s) (error s) (mounted s) l (next_await s).

(** [await ...]: the function is suspended until the answer comes. *)
Definition await (c : continuation) (s : auth) : auth :=
  Auth (user s) (profile s) (isLoading s) (error s) (mounted s)
       (waiting s ++ [Suspended (next_await s) c]) (S (next_await s)).

Definition isAuthenticated (s : auth) : bool := bool_decide (is_Some (user s)).

(** [initializeAuth] up to its first [await]. *)
Definition initializeAuth (s : auth) : auth :=
  await InitSession (setError None (setIsLoading true s)).

(** The [finally] block of [initializeAuth]. *)
Definition initializeAuth_finally (s : auth) : auth :=
  if mounted s then setIsLoading false s else s.

(** [initializeAuth] from the answer of [getSession] on; the answer holds
    the user of the session, if there is one. *)
Definition initializeAuth_session (r : awaited (response (option string))) (s : auth)
    : auth :=
  match r with
  | Rejected =>
      initializeAuth_finally (setError (Some "Failed to initialize authentication") s)
  | Resolved r =>
      if truthy (Response.error r)
      then initializeAuth_finally (setError (Response.error r) s)
      else
        match Response.data r with
        | Some (Some authUser) =>
            if mounted s then await InitProfile (setUser (Some authUser) s)
            else initializeAuth_finally s
        | _ => initializeAuth_finally s
        end
  end.

(** [initializeAuth] from the answer of [getProfile] on. *)
Definition initializeAuth_profile (r : awaited (response Profile)) (s : auth) : auth :=
  let s1 :=
    match r with
    | Rejected => setError (Some "Failed to initialize authentication") s
    | Resolved r =>
        if truthy (Response.error r) then setError (Response.error r) s
        else
          match Response.data r with
          | Some userProfile => if mounted s then setProfile (Some userProfile) s else s
          | None => s
          end
    end in
  initializeAuth_finally s1.

(** The listener passed to [onAuthStateChange], up to its [await] or its
    end. *)
Definition onAuthStateChange (event : string) (sessionUser : option string) (s : auth)
    : auth :=
  if negb (mounted s) then s
  else if String.eqb event "SIGNED_IN" && bool_decide (is_Some sessionUser)
  then await ListenerProfile (setError None (setUser sessionUser s))
  else if String.eqb event "SIGNED_OUT"
  then setIsLoading false (setError None (setProfile None (setUser None s)))
  else setIsLoading false s.

(** The listener from the answer of [getProfile] on. *)
Definition onAuthStateChange_profile (r : awaited (response Profile)) (s : auth) : auth :=
  let s1 :=
    match r with
    | Rejected => setError (Some "Authentication error occurred") s
    | Resolved r =>
        if truthy (Response.error r) then setError (Response.error r) s
        else setProfile (Response.data r) s
    end in
  setIsLoading false s1.

(** [refreshProfile] up to its [await]. *)
Definition refreshProfile (s : auth) : auth :=
  match user s with
  | None => s
  | Some _ => await RefreshProfile (setError None s)
  end.

(** [refreshProfile] from the answer of [getProfile] on. *)
Definition refreshProfile_profile (r : awaited (response Profile)) (s : auth) : auth :=
  match r with
  | Rejected => setError (Some "Failed to refresh profile") s
  | Resolved r =>
      if truthy (Response.error r) then setError (Response.error r) s
      else setProfile (Response.data r) s
  end.

(** [signOut] up to its [await], and from the answer on. *)
Definition signOut (s : auth) : auth := await SigningOut (setError None s).

Definition signOut_done (r : awaited (response unit)) (s : auth) : auth :=
  match r with
  | Rejected => setError (Some "Failed to sign out") s
  | Resolved _ => s
  end.

(** [useState] defaults, and the mount effect. *)
Definition initial : auth := Auth None None true None true [] 0.

Definition mount : auth := initializeAuth initial.

(** The cleanup of the effect. *)
Definition unmount (s : auth) : auth := set_mounted false s.

(** What an answer is an answer to, and what it holds. *)
Inductive answer :=
| Session (r : awaited (response (option string)))
| FetchedProfile (r : awaited (response Profile))
| SignedOut (r : awaited (response unit)).

Inductive event :=
| AuthStateChange (event : string) (sessionUser : option string)
| Answer (k : nat) (a : answer)
| CallRefreshProfile
| CallSignOut
| Unmount.

Definition find_await (k : nat) (l : list suspended) : option suspended :=
  List.find (λ w, (await_id w =? k)%nat) l.

(** An answer resumes the function that awaits it; an answer of the wrong
    kind for the await does not occur. *)
Definition resume (c : continuation) (a : answer) (s : auth) : auth :=
  match c, a with
  | InitSession, Session r => initializeAuth_session r s
  | InitProfile, FetchedProfile r => initializeAuth_profile r s
  | ListenerProfile, FetchedProfile r => onAuthStateChange_profile r s
  | RefreshProfile, FetchedProfile r => refreshProfile_profile r s
  | SigningOut, SignedOut r => signOut_done r s
  | _, _ => s
  end.

Definition step (s : auth) (e : event) : auth :=
  match e with
  | AuthStateChange event sessionUser => onAuthStateChange event sessionUser s
  | Answer k a =>
      match find_await k (waiting s) with
      | None => s
      | Some w =>
          resume (resumes w) a
            (set_waiting (filter (λ w', await_id w' ≠ k) (waiting s)) s)
      end
  | CallRefreshProfile => refreshProfile s
  | CallSignOut => signOut s
  | Unmount => unmount s
  end.

Definition run (s : auth) (events : list event) : auth := foldl step s events.

(** The ids of the pending awaits are distinct and older than the next
    one. *)
Definition well_formed (s : auth) : Prop :=
  NoDup (await_id <$> waiting s)
  ∧ ∀ w, w ∈ waiting s → await_id w < next_await s.

(** What a step does to the pending awaits, apart from dropping some:
    nothing, or it adds one with the next id. *)
Definition extends (s s' : auth) : Prop :=
  (waiting s' = waiting s ∧ next_await s' = next_await s)
  ∨ ∃ c, waiting s' = waiting s ++ [Suspended (next_await s) c]
         ∧ next_await s' = S (next_await s).

(** Whether an event is the answer to await [k]. *)
Definition answers (k : nat) (e : event) : bool :=
  match e with
  | Answer k' _ => (k' =? k)%nat
  | _ => false
  end.

(** What [App] and [HomeScreen] render, each from its own [useAuth()]
    instance. *)
Inductive screen := LoadingScreen | AuthScreen | HomeScreen.

Definition App (isAppReady : bool) (s : auth) : screen :=
  if negb isAppReady || isLoading s then LoadingScreen
  else if isAuthenticated s && bool_decide (is_Some (user s)) then HomeScreen
  else AuthScreen.

Definition isVerified (s : auth) : bool :=
  bool_decide (verification_status <$> profile s = Some approved).

End Account.


(** * Properties *)

(** ** The gateway *)

Section GatewayFacts.
Import Gateway.

Lemma with_votes_id votes userVotes row :
  Post.id (with_votes votes userVotes row) = row_id row.
Proof. reflexivity. Qed.

(** A page annotated without any vote data: zero counts, no viewer vote. *)
Lemma with_votes_degraded row :
  Post.green_votes (with_votes None [] row) = Some 0%Z
  ∧ Post.red_votes (with_votes None [] row) = Some 0%Z
  ∧ Post.user_vote (with_votes None [] row) = None.
Proof. done. Qed.


(** The page [getPosts] returns carries the ids of the rows the posts query
    returned, in the same order: it lists a post twice only if the query
    did. *)
Lemma getPosts_ids (db : backend) (userId : option string) (limit offset : nat)
    (page : list Post) :
  Response.data (getPosts db userId limit offset) = Some page →
  ∃ q, select_posts db limit offset = Resolved q
       ∧ Post.id <$> page = row_id <$> default [] (Response.data q).
Proof.
  unfold getPosts.
  destruct (select_posts db limit offset) as [q|]; [|done].
  intros Hpage. exists q. split; [done|]. revert Hpage.
  destruct (truthy (Response.error q)); [done|].
  destruct (Response.data q) as [[|row rows]|]; simpl; try by intros [= <-].
  destruct (select_votes db _) as [qv|]; [|done].
  destruct (truthy userId).
  - destruct (select_user_votes db _ _) as [qu|]; [|done].
    intros [= <-]. simpl. f_equal.
    rewrite <- list_fmap_compose. by apply list_fmap_ext.
  - intros [= <-]. simpl. f_equal.
    rewrite <- list_fmap_compose. by apply list_fmap_ext.
Qed.

End GatewayFacts.

(** C10: when the posts query succeeds with a non-empty page and both vote
    sub-queries come back failed (no data, an error), [getPosts] still
    returns the page, without error: the same posts in the same order, each
    with zero green and red counts and no viewer vote. *)
Theorem C10_enrichment_failure_keeps_page
    (db : Gateway.backend) (userId : option string) (limit offset : nat)
    (posts : list Gateway.post_row) (e1 e2 : string) :
  posts ≠ [] →
  Gateway.select_posts db limit offset = Resolved (Response.mk (Some posts) None) →
  Gateway.select_votes db (Gateway.row_id <$> posts)
    = Resolved (Response.mk None (Some e1)) →
  (∀ u, Gateway.select_user_votes db u (Gateway.row_id <$> posts)
        = Resolved (Response.mk None (Some e2))) →
  ∃ page,
    Gateway.getPosts db userId limit offset = Response.mk (Some page) None
    ∧ Post.id <$> page = Gateway.row_id <$> posts
    ∧ Forall (λ p, Post.green_votes p = Some 0%Z
                   ∧ Post.red_votes p = Some 0%Z
                   ∧ Post.user_vote p = None) page.
Proof.
  intros Hne Hposts Hvotes Huser.
  exists (Gateway.with_votes None [] <$> posts).
  split; [|split].
  - unfold Gateway.getPosts. rewrite Hposts. cbn.
    destruct posts as [|row rows]; [done|].
    rewrite Hvotes. cbn [Response.data].
    destruct (truthy userId); [|done].
    by rewrite Huser.
  - rewrite <- list_fmap_compose. by apply list_fmap_ext.
  - apply Forall_fmap, Forall_forall. intros row _. apply with_votes_degraded.
Qed.

Lemma C10_enrichment_failure_keeps_page_witness :
  ∃ page,
    Gateway.getPosts Examples.votes_down (Some "u1") 20 0 = Response.mk (Some page) None
    ∧ Post.id <$> page = ["A"; "B"]
    ∧ Forall (λ p, Post.green_votes p = Some 0%Z
                   ∧ Post.red_votes p = Some 0%Z
                   ∧ Post.user_vote p = None) page.
Proof.
  apply (C10_enrichment_failure_keeps_page Examples.votes_down (Some "u1") 20 0
           Examples.rows "timeout" "timeout");
    [done | reflexivity | reflexivity | intros; reflexivity].
Defined.

(** ** The feed store *)

Section MergeFacts.
Context {A : Type} (key : A → string).

Lemma some_present (x : A) (l : list A) :
  existsb (λ p, bool_decide (key p = key x)) l = true ↔ key x ∈ key <$> l.
Proof.
  induction l as [|y l IH]; simpl.
  - split; [done | by intros ?%elem_of_nil].
  - rewrite elem_of_cons, orb_true_iff, bool_decide_eq_true, IH.
    split; (intros [H|H]; [left|right]); done.
Qed.

Lemma prependNew_present (x : A) (l : list A) :
  key x ∈ key <$> l → Feed.prependNew key x l = l.
Proof.
  intros Hin%some_present. unfold Feed.prependNew. by rewrite Hin.
Qed.

Lemma prependNew_absent (x : A) (l : list A) :
  key x ∉ key <$> l → Feed.prependNew key x l = x :: l.
Proof.
  intros Hout. unfold Feed.prependNew.
  destruct (existsb _ l) eqn:E; [|done].
  by apply some_present in E.
Qed.




End MergeFacts.

Section FeedFacts.
Import Feed.


Lemma loadPosts_posts pageNum replace s :
  posts (loadPosts pageNum replace s) = posts s
  ∧ history (loadPosts pageNum replace s) = history s.
Proof. unfold loadPosts. by destruct (pageNum =? 0)%nat. Qed.

Lemma loadPosts_finally_posts s :
  posts (loadPosts_finally s) = posts s
  ∧ history (loadPosts_finally s) = history s.
Proof. unfold loadPosts_finally. by destruct (mounted s). Qed.

(** Every event leaves the list alone or applies one update to it, and
    records that update. *)
Lemma step_update (s : store) (e : event) :
  (posts (step s e) = posts s ∧ history (step s e) = history s)
  ∨ ∃ u, caused_by e u
         ∧ posts (step s e) = setPosts u (posts s)
         ∧ history (step s e) = history s ++ [u].
Proof.
  destruct e as [| | |k r|p|i x|i|]; simpl.
  - left. apply (loadPosts_posts 0 true s).
  - left. unfold loadMore. destruct (_ || _); [done|]. apply loadPosts_posts.
  - left. unfold handleEndReached, loadMore.
    destruct (_ && _); [|done]. destruct (_ || _); [done|]. apply loadPosts_posts.
  - destruct (find_fetch k (pending s)) as [f|]; [|by left].
    unfold loadPosts_resume.
    match goal with |- context [loadPosts_finally ?x] =>
      destruct (loadPosts_finally_posts x) as [-> ->] end.
    destruct r as [[newPosts postsError]|]; simpl.
    + destruct (mounted s); simpl; [|by left].
      destruct (truthy postsError); [by left|].
      destruct newPosts as [newPosts|]; [|by left].
      right. destruct (replace f || (pageNum f =? 0)%nat).
      * by exists (Replace newPosts).
      * by exists (Append newPosts).
    + left. by destruct (mounted s).
  - destruct (realtimeChannel s); [|by left].
    unfold handleNewPost. destruct (mounted s); simpl; [|by left].
    right. by exists (Prepend p).
  - right. by exists (Patch i x).
  - right. by exists (Remove i).
  - by left.
Qed.

Lemma caused_by_tidy e u : tidy_event e → caused_by e u → tidy_update u.
Proof.
  destruct e as [| | |k [r|]|p|i x|i|], u as [new|new|p'|i' x'|i'];
    simpl; try done.
  - intros H Hr. by rewrite Hr in H.
  - intros H Hr. by rewrite Hr in H.
  - by intros H [_ <-].
Qed.


End FeedFacts.

Section ProvenanceFacts.
Import Feed.

Lemma okey_fmap (l : list (origin * Post)) : okey <$> l = Post.id <$> (snd <$> l).
Proof. by rewrite <- list_fmap_compose. Qed.

(** Filtering on the key commutes with forgetting the origins. *)
Ltac erase_filter_ind l :=
  let x := fresh "x" in
  let IH := fresh "IH" in
  induction l as [|x l IH]; [done|];
  rewrite fmap_cons, !filter_cons; change (okey x) with (Post.id x.2);
  case_decide; [rewrite fmap_cons|]; by rewrite IH.

Lemma erase_fresh (S : gset string) (l : list (origin * Post)) :
  snd <$> filter (λ x, okey x ∉ S) l = filter (λ p, Post.id p ∉ S) (snd <$> l).
Proof. erase_filter_ind l. Qed.

Lemma erase_drop (postId : string) (l : list (origin * Post)) :
  snd <$> dropPost okey postId l = dropPost Post.id postId (snd <$> l).
Proof. unfold dropPost. erase_filter_ind l. Qed.

Lemma erase_some (p : Post) (o : origin) (l : list (origin * Post)) :
  existsb (λ x, bool_decide (okey x = okey (o, p))) l
  = existsb (λ q, bool_decide (Post.id q = Post.id p)) (snd <$> l).
Proof. induction l as [|x l IH]; [done|]. simpl. by rewrite IH. Qed.

Lemma erase_tag (o : origin) (new : list Post) : snd <$> (pair o <$> new) = new.
Proof. rewrite <- list_fmap_compose. apply list_fmap_id. Qed.

(** Forgetting the origins commutes with every update. *)
Lemma erase_setPosts (u : update) (l : list (origin * Post)) :
  snd <$> setPosts_origin u l = setPosts u (snd <$> l).
Proof.
  destruct u as [new|new|p|postId updates|postId]; simpl.
  - apply erase_tag.
  - unfold appendUnique. rewrite fmap_app, okey_fmap. f_equal.
    by rewrite erase_fresh, erase_tag.
  - unfold prependNew. rewrite erase_some. by destruct (existsb _ _).
  - rewrite <- !list_fmap_compose. apply list_fmap_ext.
    intros i x _. simpl. unfold okey. by case_decide.
  - apply erase_drop.
Qed.

Lemma Forall_kept {B : Type} (P : B → Prop) (Q : B → Prop) `{!∀ x, Decision (Q x)}
    (l : list B) :
  Forall P l → Forall P (filter Q l).
Proof.
  rewrite !Forall_forall. intros HP x [_ Hx]%list_elem_of_filter. by apply HP.
Qed.

Lemma realtime_first_setPosts (u : update) (l : list (origin * Post)) :
  realtime_first l → realtime_first (setPosts_origin u l).
Proof.
  intros (rt & pg & -> & Hrt & Hpg).
  destruct u as [new|new|p|postId updates|postId]; simpl.
  - exists [], (pair Paginated <$> new). split; [done|]. split; [done|].
    apply Forall_fmap, Forall_forall. done.
  - unfold appendUnique. eexists rt, (pg ++ _). split; [by rewrite app_assoc|].
    split; [done|]. apply Forall_app. split; [done|].
    apply Forall_forall. intros x [_ Hx]%list_elem_of_filter.
    apply list_elem_of_fmap in Hx as (q & -> & _). done.
  - unfold prependNew. destruct (existsb _ _).
    + by exists rt, pg.
    + exists ((Realtime, p) :: rt), pg. split; [done|]. split; [|done].
      by constructor.
  - rewrite fmap_app. eexists _, _. split; [done|].
    split; apply Forall_fmap; (eapply Forall_impl; [eassumption|]);
      intros x Hx; simpl; by case_decide.
  - unfold dropPost. rewrite filter_app. eexists _, _. split; [done|].
    split; by apply Forall_kept.
Qed.

Lemma provenance_snoc (us : list update) (u : update) :
  provenance (us ++ [u]) = setPosts_origin u (provenance us).
Proof. unfold provenance. by rewrite foldl_snoc. Qed.

Lemma realtime_first_provenance (us : list update) : realtime_first (provenance us).
Proof.
  induction us as [|u us IH] using rev_ind.
  - by exists [], [].
  - rewrite provenance_snoc. by apply realtime_first_setPosts.
Qed.

Lemma step_replayed (s : store) (e : event) : replayed s → replayed (step s e).
Proof.
  unfold replayed. intros Hs.
  destruct (step_update s e) as [[-> ->]|(u & _ & -> & ->)]; [done|].
  by rewrite provenance_snoc, erase_setPosts, Hs.
Qed.

Lemma run_replayed (events : list event) (s : store) :
  replayed s → replayed (run s events).
Proof.
  unfold run. revert s. induction events as [|e events IH]; intros s Hs; [done|].
  simpl. by apply IH, step_replayed.
Qed.

Lemma mount_replayed (userId : option string) : replayed (mount userId).
Proof. unfold mount, replayed. by destruct (truthy userId). Qed.

Lemma realtime_first_lookup (l : list (origin * Post)) i j x y :
  realtime_first l →
  l !! i = Some (Realtime, x) → l !! j = Some (Paginated, y) → i < j.
Proof.
  intros (rt & pg & -> & Hrt & Hpg) Hi Hj.
  destruct (decide (i < length rt)) as [Hlt|Hge].
  - destruct (decide (j < length rt)) as [Hj'|]; [|lia].
    rewrite lookup_app_l in Hj by done.
    by apply (Forall_lookup_1 _ _ _ _ Hrt) in Hj.
  - rewrite lookup_app_r in Hi by lia.
    by apply (Forall_lookup_1 _ _ _ _ Hpg) in Hi.
Qed.
End ProvenanceFacts.



Section InsertFacts.
Import Feed.

(** Only the cleanup of the mount effect touches the subscription and the
    mounted flag. *)
Lemma step_subscription (s : store) (e : event) :
  e ≠ Unmount →
  realtimeChannel (step s e) = realtimeChannel s ∧ mounted (step s e) = mounted s.
Proof.
  intros He. destruct e as [| | |k r|p|i x|i|]; cbn [step]; [| | | | | | |done].
  - unfold refresh, loadPosts. by destruct (0 =? 0)%nat.
  - unfold loadMore, loadPosts. destruct (_ || _); [done|]. by destruct (_ =? 0)%nat.
  - unfold handleEndReached, loadMore, loadPosts.
    destruct (_ && _); [|done]. destruct (_ || _); [done|]. by destruct (_ =? 0)%nat.
  - destruct (find_fetch k (pending s)) as [f|]; [|done].
    unfold loadPosts_resume, loadPosts_finally.
    destruct s as [? ? ? ? ? ? ? m ? ? ? ? ?].
    destruct r as [[newPosts postsError]|]; destruct m; try done.
    cbn [Response.data Response.error negb mounted set_pending].
    destruct (truthy postsError); [split; reflexivity|].
    destruct newPosts as [newPosts|]; [|split; reflexivity].
    destruct (replace f || (pageNum f =? 0)%nat); split; reflexivity.
  - unfold handleNewPost. destruct s as [? ? ? ? ? ? ? m c ? ? ? ?].
    by destruct c, m.
  - done.
  - done.
Qed.

Lemma run_subscription (events : list event) (s : store) :
  Forall (λ e, e ≠ Unmount) events →
  realtimeChannel (run s events) = realtimeChannel s
  ∧ mounted (run s events) = mounted s.
Proof.
  unfold run. revert s. induction events as [|e events IH]; intros s Hev; [done|].
  inversion_clear Hev as [|? ? He Hev']. simpl.
  destruct (IH (step s e) Hev') as [-> ->]. by apply step_subscription.
Qed.

Lemma mount_subscription (userId : option string) :
  truthy userId = true →
  realtimeChannel (mount userId) = true ∧ mounted (mount userId) = true.
Proof. intros Hu. unfold mount. by rewrite Hu. Qed.

(** What the handler of the subscription does with a post whose id is not
    in the list. *)
Lemma step_NewPost_absent (s : store) (newPost : Post) :
  realtimeChannel s = true → mounted s = true →
  Post.id newPost ∉ Post.id <$> posts s →
  step s (NewPost newPost) = handleNewPost newPost s
  ∧ posts (step s (NewPost newPost)) = newPost :: posts s
  ∧ history (step s (NewPost newPost)) = history s ++ [Prepend newPost].
Proof.
  intros Hch Hm Hout. cbn [step]. rewrite Hch. split; [done|].
  unfold handleNewPost. rewrite Hm. cbn. split; [|done].
  by apply prependNew_absent.
Qed.

(** Its entry in the replay is tagged [Realtime] and goes to the front. *)
Lemma provenance_NewPost_absent (s : store) (newPost : Post) :
  replayed s → realtimeChannel s = true → mounted s = true →
  Post.id newPost ∉ Post.id <$> posts s →
  provenance (history (step s (NewPost newPost)))
  = (Realtime, newPost) :: provenance (history s).
Proof.
  intros Hs Hch Hm Hout.
  destruct (step_NewPost_absent s newPost Hch Hm Hout) as (_ & _ & ->).
  rewrite provenance_snoc. cbn [setPosts_origin].
  apply prependNew_absent. rewrite okey_fmap, <- Hs. done.
Qed.

(** The updates a run records are caused by its events. *)
Lemma run_history (Q : update → Prop) (events : list event) (s : store) :
  (∀ e u, e ∈ events → caused_by e u → Q u) →
  Forall Q (history s) → Forall Q (history (run s events)).
Proof.
  unfold run. revert s. induction events as [|e events IH]; intros s HQ Hs; [done|].
  simpl. apply IH.
  - intros e' u He'. apply HQ. by apply list_elem_of_further.
  - destruct (step_update s e) as [[_ ->]|(u & Hu & _ & ->)]; [done|].
    apply Forall_app. split; [done|]. apply Forall_singleton.
    eapply HQ; [apply list_elem_of_here|done].
Qed.

(** Where a tagged entry of the replay comes from: a [Realtime] entry from
    a recorded prepend of a post with its id, a [Paginated] entry from a
    recorded page that lists its id. *)
Lemma provenance_sources (us : list update) (x : origin * Post) :
  Forall tidy_update us → x ∈ provenance us →
  match x.1 with
  | Realtime => ∃ p, Prepend p ∈ us ∧ Post.id p = Post.id x.2
  | Paginated =>
      ∃ newPosts, (Replace newPosts ∈ us ∨ Append newPosts ∈ us)
                  ∧ Post.id x.2 ∈ Post.id <$> newPosts
  end.
Proof.
  revert x. induction us as [|u us IH] using rev_ind; intros x Hus Hx.
  { by apply elem_of_nil in Hx. }
  apply Forall_app in Hus as [Hus Hu]. rewrite Forall_singleton in Hu.
  assert (Hold : ∀ y : origin * Post, y ∈ provenance us → okey y = okey x → y.1 = x.1 →
            match x.1 with
            | Realtime => ∃ p, Prepend p ∈ us ++ [u] ∧ Post.id p = Post.id x.2
            | Paginated =>
                ∃ newPosts, (Replace newPosts ∈ us ++ [u] ∨ Append newPosts ∈ us ++ [u])
                            ∧ Post.id x.2 ∈ Post.id <$> newPosts
            end).
  { intros y Hy Hk Ho. specialize (IH y Hus Hy). rewrite Ho in IH.
    unfold okey in Hk. rewrite Hk in IH.
    destruct (x.1).
    - destruct IH as (p & Hp & Hid). exists p. split; [|done].
      apply elem_of_app. by left.
    - destruct IH as (newPosts & Hp & Hid). exists newPosts. split; [|done].
      destruct Hp as [Hp|Hp]; [left|right]; apply elem_of_app; by left. }
  assert (Hpage : ∀ newPosts, (u = Replace newPosts ∨ u = Append newPosts) →
            x ∈ pair Paginated <$> newPosts →
            match x.1 with
            | Realtime => ∃ p, Prepend p ∈ us ++ [u] ∧ Post.id p = Post.id x.2
            | Paginated =>
                ∃ newPosts, (Replace newPosts ∈ us ++ [u] ∨ Append newPosts ∈ us ++ [u])
                            ∧ Post.id x.2 ∈ Post.id <$> newPosts
            end).
  { intros newPosts Hu' (q & -> & Hq)%list_elem_of_fmap. cbn [fst snd].
    exists newPosts. split.
    - destruct Hu' as [->| ->]; [left|right]; apply elem_of_app; right;
        apply list_elem_of_here.
    - by apply list_elem_of_fmap_2. }
  rewrite provenance_snoc in Hx.
  destruct u as [newPosts|newPosts|p|postId updates|postId]; cbn [setPosts_origin] in Hx.
  - apply (Hpage newPosts); [by left|done].
  - unfold appendUnique in Hx. apply elem_of_app in Hx as [Hx|Hx].
    + by apply (Hold x).
    + apply list_elem_of_filter in Hx as [_ Hx]. apply (Hpage newPosts); [by right|done].
  - unfold prependNew in Hx. destruct (existsb _ _); [by apply (Hold x)|].
    apply elem_of_cons in Hx as [->|Hx]; [|by apply (Hold x)].
    cbn [fst snd]. exists p. split; [|done]. apply elem_of_app. right.
    apply list_elem_of_here.
  - apply list_elem_of_fmap in Hx as (y & -> & Hy). case_decide; [|by apply (Hold y)].
    simpl in Hu. apply (Hold y); [done| |done].
    unfold okey, spread. cbn. by rewrite Hu.
  - unfold dropPost in Hx. apply list_elem_of_filter in Hx as [_ Hx]. by apply (Hold x).
Qed.
End InsertFacts.

(** C6: the handler of the realtime subscription prepends: on a subscribed,
    mounted hook (which is what the hook of a signed-in viewer is until it
    unmounts) a delivered post whose id is not in the list is put at the
    front of the list, and its entry in the replay of the recorded updates
    is tagged as a realtime insert.  In every state the hook reaches from
    its mount, by any interleaving of events, the list is that replay;
    when no fetched page lists a post twice and no patch changes an id,
    every entry tagged as realtime insert carries the id of a post a
    delivery brought, and every entry tagged as paginated the id of a post
    on a fetched page; and every entry brought in by a realtime insert
    comes before every entry brought in by a page fetch. *)
Theorem C6_realtime_inserts_stay_on_top (userId : option string)
    (events : list Feed.event) :
  let s := Feed.run (Feed.mount userId) events in
  let tagged := Feed.provenance (Feed.history s) in
  (∀ newPost prev,
     Post.id newPost ∉ Post.id <$> prev →
     Feed.setPosts (Feed.Prepend newPost) prev = newPost :: prev)
  ∧ (truthy userId = true → Forall (λ e, e ≠ Feed.Unmount) events →
       Feed.realtimeChannel s = true ∧ Feed.mounted s = true)
  ∧ (∀ newPost,
       Feed.realtimeChannel s = true → Feed.mounted s = true →
       Post.id newPost ∉ Post.id <$> Feed.posts s →
       let s' := Feed.step s (Feed.NewPost newPost) in
       s' = Feed.handleNewPost newPost s
       ∧ Feed.posts s' = newPost :: Feed.posts s
       ∧ Feed.provenance (Feed.history s') = (Feed.Realtime, newPost) :: tagged)
  ∧ (Forall Feed.tidy_event events →
       (∀ x, (Feed.Realtime, x) ∈ tagged →
          ∃ p, Feed.NewPost p ∈ events ∧ Post.id p = Post.id x)
       ∧ (∀ y, (Feed.Paginated, y) ∈ tagged →
            ∃ k r newPosts,
              Feed.Fetched k (Resolved r) ∈ events
              ∧ Response.data r = Some newPosts
              ∧ Post.id y ∈ Post.id <$> newPosts))
  ∧ Feed.posts s = snd <$> tagged
  ∧ Feed.realtime_first tagged
  ∧ (∀ i j x y,
       tagged !! i = Some (Feed.Realtime, x) →
       tagged !! j = Some (Feed.Paginated, y) → i < j).
Proof.
  intros s tagged.
  assert (Hs : Feed.replayed s) by apply run_replayed, mount_replayed.
  assert (Hnil : Feed.history (Feed.mount userId) = []).
  { unfold Feed.mount. by destruct (truthy userId). }
  split; [|split; [|split; [|split; [|split; [|split]]]]].
  - intros newPost prev Hout. simpl. by apply prependNew_absent.
  - intros Hu Hev. destruct (mount_subscription userId Hu) as [Hch Hm].
    destruct (run_subscription events (Feed.mount userId) Hev) as [Hch' Hm'].
    subst s. by rewrite Hch', Hm'.
  - intros newPost Hch Hm Hout s'.
    destruct (step_NewPost_absent s newPost Hch Hm Hout) as (Hstep & Hposts & _).
    split; [done|]. split; [done|]. by apply provenance_NewPost_absent.
  - intros Hev.
    assert (Hhist : Forall (λ u, Feed.tidy_update u ∧ ∃ e, e ∈ events ∧ Feed.caused_by e u)
                      (Feed.history s)).
    { apply run_history; [|by rewrite Hnil].
      intros e u He Hu. split; [|by exists e].
      eapply caused_by_tidy; [|exact Hu].
      rewrite Forall_forall in Hev. by apply Hev. }
    assert (Htidy : Forall Feed.tidy_update (Feed.history s)).
    { eapply Forall_impl; [exact Hhist|]. by intros u [Hu _]. }
    rewrite Forall_forall in Hhist.
    split.
    + intros x Hx.
      destruct (provenance_sources _ _ Htidy Hx) as (p & Hp & Hid). cbn [fst snd] in *.
      destruct (Hhist _ Hp) as (_ & e & He & Hc).
      exists p. split; [|done].
      destruct e as [| | |k [r|]|p'|i x'|i|]; simpl in Hc; try done. by subst p'.
    + intros y Hy.
      destruct (provenance_sources _ _ Htidy Hy) as (newPosts & Hp & Hid).
      cbn [fst snd] in *.
      assert (∃ e, e ∈ events ∧ (Feed.caused_by e (Feed.Replace newPosts)
                                 ∨ Feed.caused_by e (Feed.Append newPosts)))
        as (e & He & Hc).
      { destruct Hp as [Hp|Hp]; destruct (Hhist _ Hp) as (_ & e & He & Hc);
          exists e; split; [done|by left|done|by right]. }
      destruct e as [| | |k [r|]|p'|i x'|i|]; simpl in Hc; try (by destruct Hc).
      exists k, r, newPosts. split; [done|]. split; [by destruct Hc|done].
  - done.
  - apply realtime_first_provenance.
  - intros i j x y. apply realtime_first_lookup, realtime_first_provenance.
Qed.

(** C7: [refresh] asks for page 0 ([getPosts(userId, 20, 0)]) and suspends a
    page-0 replacing load.  When such a load comes back with a page while
    the hook is mounted, the list becomes exactly that page, so a post that
    was in the list and is not in the page is gone; the page cursor becomes
    0 and [hasMore] becomes [length page = pageSize]. *)
Theorem C7_refresh_replaces_the_list (s : Feed.store) (k : nat) (f : Feed.fetch)
    (newPosts : list Post) :
  Feed.mounted s = true →
  Feed.find_fetch k (Feed.pending s) = Some f →
  Feed.pageNum f = 0 →
  let s' := Feed.step s (Feed.Fetched k (Resolved (Response.mk (Some newPosts) None))) in
  (∀ s0, Feed.requests (Feed.refresh s0)
         = Feed.requests s0 ++ [(Feed.userId s0, Feed.pageSize, 0)]
         ∧ Feed.pending (Feed.refresh s0)
           = Feed.pending s0 ++ [Feed.Fetch (Feed.next_fetch s0) 0 true])
  ∧ Feed.posts s' = newPosts
  ∧ (∀ p, p ∈ Feed.posts s → p ∉ newPosts → p ∉ Feed.posts s')
  ∧ Feed.page s' = 0
  ∧ Feed.hasMore s' = bool_decide (length newPosts = Feed.pageSize).
Proof.
  intros Hm Hf Hpage s'.
  assert (Hs' : Feed.posts s' = newPosts
                ∧ Feed.page s' = 0
                ∧ Feed.hasMore s' = bool_decide (length newPosts = Feed.pageSize)).
  { subst s'. simpl. rewrite Hf. unfold Feed.loadPosts_resume. simpl.
    rewrite Hm, Hpage, orb_true_r. unfold Feed.loadPosts_finally. simpl.
    rewrite Hm. simpl.
    split; [done|]. split; [done|].
    destruct (Nat.eqb_spec (length newPosts) Feed.pageSize) as [E|E].
    - by rewrite bool_decide_eq_true_2.
    - by rewrite bool_decide_eq_false_2. }
  destruct Hs' as (Hposts & Hpg & Hmore).
  split; [done|]. repeat split; try done.
  intros p _ Hout. by rewrite Hposts.
Qed.

Lemma C7_refresh_replaces_the_list_witness :
  let s := Feed.run (Feed.mount (Some "u"))
             [Feed.Fetched 0 (Examples.page [Examples.mkpost "A"; Examples.mkpost "B"]);
              Feed.Refresh] in
  Feed.posts s = [Examples.mkpost "A"; Examples.mkpost "B"]
  ∧ Feed.posts (Feed.step s (Feed.Fetched 1 (Examples.page [Examples.mkpost "B"])))
    = [Examples.mkpost "B"].
Proof.
  intros s. split; [reflexivity|].
  exact (proj1 (proj2 (C7_refresh_replaces_the_list s 1 (Feed.Fetch 1 0 true)
                         [Examples.mkpost "B"] eq_refl eq_refl eq_refl))).
Defined.

(** C8 (as stated): [refresh] has no re-entrancy guard.  Right after the
    mount the initial load is in flight ([isLoading] is set, one call is
    pending), and calling [refresh] issues a second [getPosts] call. *)
Lemma C8_refresh_is_not_guarded :
  let s := Feed.mount (Some "u") in
  Feed.isLoading s = true
  ∧ Feed.requests s = [(Some "u", 20, 0)]
  ∧ Feed.requests (Feed.refresh s) = [(Some "u", 20, 0); (Some "u", 20, 0)]
  ∧ length (Feed.pending (Feed.refresh s)) = 2.
Proof. done. Qed.

(** The [finally] block of [loadPosts] clears both loading flags whichever
    load has ended.  So when a refresh completes while a load-more is still
    pending, [isLoadingMore] is cleared and a second [loadMore] goes out for
    the same page. *)
Lemma loadMore_reenters_after_refresh :
  let s := Feed.run (Feed.mount (Some "u"))
             [Feed.Fetched 0 (Examples.page Examples.full_page);
              Feed.LoadMore; Feed.Refresh;
              Feed.Fetched 2 (Examples.page Examples.full_page)] in
  Feed.pending s = [Feed.Fetch 1 1 false]
  ∧ Feed.isLoadingMore s = false
  ∧ Feed.requests (Feed.loadMore s) = Feed.requests s ++ [(Some "u", 20, 20)].
Proof. by vm_compute. Qed.

(** C8 (amended): [loadMore] is guarded by the hook's flags: while
    [isLoadingMore] is set, or when [hasMore] is false, it returns without
    issuing a call and leaves the whole state (list, cursor, flags, pending
    calls) as it is, and so does the feed's end-reached handler, which
    also holds back while [isLoading] is set.  [refresh] always issues a
    page-0 call. *)
Theorem C8_loadMore_is_guarded (s : Feed.store) :
  Feed.isLoadingMore s = true ∨ Feed.hasMore s = false →
  Feed.loadMore s = s
  ∧ Feed.handleEndReached s = s
  ∧ (∀ s', Feed.isLoading s' = true → Feed.handleEndReached s' = s')
  ∧ Feed.requests (Feed.refresh s) = Feed.requests s ++ [(Feed.userId s, Feed.pageSize, 0)].
Proof.
  intros Hguard.
  assert (Hlm : Feed.loadMore s = s).
  { unfold Feed.loadMore. destruct Hguard as [-> | ->]; [done|]. by rewrite orb_true_r. }
  repeat split; try done.
  - unfold Feed.handleEndReached. by destruct (_ && _).
  - intros s' Hl. unfold Feed.handleEndReached. by rewrite Hl, andb_false_r.
Qed.

Lemma C8_loadMore_is_guarded_witness :
  let s := Feed.run (Feed.mount (Some "u"))
             [Feed.Fetched 0 (Examples.page [Examples.mkpost "A"])] in
  Feed.hasMore s = false ∧ Feed.loadMore s = s.
Proof.
  intros s. split; [reflexivity|].
  exact (proj1 (C8_loadMore_is_guarded s (or_intror eq_refl))).
Defined.

(** ** The vote hook and its timers *)

Section VoteFacts.
Import Vote.

Lemma run_callback_frame (cb : callback) (s : hook) :
  timers (run_callback cb s) = timers s
  ∧ voteTimeouts (run_callback cb s) = voteTimeouts s
  ∧ next_timer (run_callback cb s) = next_timer s
  ∧ userId (run_callback cb s) = userId s
  ∧ now (run_callback cb s) = now s.
Proof. by destruct cb. Qed.

Lemma fire_timers (tm : timer) (s : hook) :
  timers (fire tm s) = filter (λ x, handle x ≠ handle tm) (timers s).
Proof. unfold fire. by destruct (action tm). Qed.

Lemma earliest_elem (l : list timer) (tm : timer) : earliest l = Some tm → tm ∈ l.
Proof.
  revert tm. induction l as [|x l IH]; intros tm; simpl; [done|].
  destruct (earliest l) as [tm'|].
  - destruct (due x <=? due tm'); intros [= <-].
    + apply list_elem_of_here.
    + apply list_elem_of_further. by apply IH.
  - intros [= <-]. apply list_elem_of_here.
Qed.

Lemma earliest_None (l : list timer) : earliest l = None → l = [].
Proof.
  destruct l as [|x l]; [done|]. simpl.
  destruct (earliest l) as [tm'|]; [|done]. by destruct (due x <=? due tm').
Qed.

Lemma next_due_Some (t : nat) (s : hook) (tm : timer) :
  next_due t s = Some tm → tm ∈ timers s ∧ due tm ≤ t.
Proof.
  intros H%earliest_elem. apply list_elem_of_filter in H. tauto.
Qed.

Lemma next_due_None (t : nat) (s : hook) (tm : timer) :
  next_due t s = None → tm ∈ timers s → t < due tm.
Proof.
  intros H%earliest_None Htm.
  destruct (decide (due tm ≤ t)) as [Hle|]; [|lia].
  by destruct (filter_nil_not_elem_of (λ x, due x ≤ t) (timers s) tm H Hle).
Qed.

(** A property kept by every firing of a due timer and by the clock is
    kept by [advance]. *)
Lemma fire_due_keeps (P : hook → Prop) (t : nat) :
  (∀ s tm, P s → tm ∈ timers s → due tm ≤ t → P (fire tm s)) →
  ∀ fuel s, P s → P (fire_due fuel t s).
Proof.
  intros Hfire. induction fuel as [|fuel IH]; intros s Hs; simpl; [done|].
  destruct (next_due t s) as [tm|] eqn:E; [|done].
  apply next_due_Some in E as [Hin Hdue]. by apply IH, Hfire.
Qed.

Lemma advance_keeps (P : hook → Prop) (t : nat) :
  (∀ s tm, P s → tm ∈ timers s → due tm ≤ t → P (fire tm s)) →
  (∀ s, P s → P (set_now (now s `max` t) s)) →
  ∀ s, P s → P (advance t s).
Proof.
  intros Hfire Hnow s Hs. unfold advance. by apply Hnow, fire_due_keeps.
Qed.

(** [advance] leaves no timer behind that is due: the rounds it is given
    are enough. *)
Lemma fire_due_complete (t : nat) (fuel : nat) (s : hook) (tm : timer) :
  length (timers s) ≤ fuel → tm ∈ timers (fire_due fuel t s) → t < due tm.
Proof.
  revert s. induction fuel as [|fuel IH]; intros s Hlen; simpl.
  - destruct (timers s); [|simpl in Hlen; lia]. by intros ?%elem_of_nil.
  - destruct (next_due t s) as [tm'|] eqn:E.
    + apply IH. apply next_due_Some in E as [Hin _].
      rewrite fire_timers.
      pose proof (length_filter_lt (λ x, handle x ≠ handle tm') (timers s) tm' Hin).
      naive_solver lia.
    + by apply next_due_None.
Qed.

Lemma advance_complete (t : nat) (s : hook) (tm : timer) :
  tm ∈ timers (advance t s) → t < due tm.
Proof. unfold advance. simpl. by apply fire_due_complete. Qed.
End VoteFacts.

Section SerialisedFacts.
Import Vote.

Lemma debouncing_clearTimeout (h : nat) (s : hook) :
  debouncing (clearTimeout h s) = filter (λ tm, handle tm ≠ h) (debouncing s).
Proof.
  unfold debouncing, clearTimeout. simpl.
  induction (timers s) as [|x l IH]; [done|].
  rewrite !filter_cons.
  repeat (case_decide; rewrite ?filter_cons; simpl); by rewrite ?IH.
Qed.

Lemma debouncing_setTimeout (cb : callback) (delay : nat) (s : hook) :
  debouncing (setTimeout cb delay s).2
  = debouncing s
    ++ (if decide (is_Some (callback_post cb))
        then [Timer (next_timer s) (now s + delay) cb] else []).
Proof.
  unfold debouncing, setTimeout. simpl. rewrite filter_app, filter_cons, filter_nil.
  simpl. by case_decide.
Qed.

Lemma serialised_cases (p : string) (s : hook) :
  serialised p s →
  (debouncing s = [] ∧ length (inflight s) ≤ 1)
  ∨ (∃ tm, debouncing s = [tm] ∧ inflight s = []
           ∧ callback_post (action tm) = Some p
           ∧ voteTimeouts s !! p = Some (handle tm)).
Proof.
  intros (Hlen & Htrack & _).
  destruct (debouncing s) as [|tm [|tm' l]] eqn:E; simpl in Hlen.
  - left. split; [done|]. lia.
  - right. exists tm. destruct (inflight s); [|simpl in Hlen; lia].
    destruct (Htrack tm) as [? ?]; [apply list_elem_of_here|]. done.
  - lia.
Qed.

(** Firing an armed timer keeps the hook serialised. *)
Lemma fire_serialised (p : string) (s : hook) (tm : timer) :
  serialised p s → tm ∈ timers s → serialised p (fire tm s).
Proof.
  intros Hs Hin.
  assert (Hdeb : debouncing (fire tm s)
                 = filter (λ x, handle x ≠ handle tm) (debouncing s)).
  { rewrite <- debouncing_clearTimeout. unfold debouncing.
    by rewrite fire_timers. }
  destruct (callback_post (action tm)) as [q|] eqn:Ecb.
  - (* a debounced callback: it was the only one, and nothing was in flight *)
    assert (Htm : tm ∈ debouncing s).
    { apply list_elem_of_filter. split; [by rewrite Ecb|done]. }
    destruct (serialised_cases p s Hs) as [[E _]|(tm' & E & Hfl & _ & _)];
      [by rewrite E in Htm; apply elem_of_nil in Htm|].
    rewrite E in Htm. apply list_elem_of_singleton in Htm as ->.
    assert (Hnone : debouncing (fire tm' s) = []).
    { rewrite Hdeb, E, filter_cons, filter_nil. by rewrite decide_False by naive_solver. }
    split; [|split].
    + rewrite Hnone. unfold fire.
      destruct (action tm'); simpl in *; try done; rewrite Hfl; simpl; lia.
    + rewrite Hnone. by intros ? ?%elem_of_nil.
    + intros _. unfold fire. by destruct (action tm').
  - (* the grace callback *)
    destruct Hs as (Hlen & Htrack & Hvoting).
    assert (Hsame : inflight (fire tm s) = inflight s
                    ∧ voteTimeouts (fire tm s) = voteTimeouts s
                    ∧ isVoting (fire tm s) = isVoting s).
    { unfold fire. by destruct (action tm). }
    destruct Hsame as (Hi & Hv & Hvot).
    unfold serialised. rewrite Hi, Hv, Hvot, Hdeb.
    split; [|split]; [| |done].
    + pose proof (length_filter (λ x, handle x ≠ handle tm) (debouncing s)). lia.
    + intros x [_ Hx]%list_elem_of_filter. by apply Htrack.
Qed.

Lemma set_now_serialised (p : string) (s : hook) (t : nat) :
  serialised p s → serialised p (set_now t s).
Proof. done. Qed.

Lemma advance_serialised (p : string) (t : nat) (s : hook) :
  serialised p s → serialised p (advance t s).
Proof.
  apply (advance_keeps (serialised p)).
  - intros s' tm Hs' Hin _. by apply fire_serialised.
  - intros s'. apply set_now_serialised.
Qed.

(** A tap on [p] while nothing is in flight keeps the hook serialised. *)
Lemma debounce_serialised (p : string) (o : option VoteType) (cb : callback)
    (s : hook) :
  callback_post cb = Some p →
  serialised p s → inflight s = [] → serialised p (debounce p o cb s).
Proof.
  intros Hcb Hs Hfl.
  assert (Hclear : debouncing (clear_existing p s) = []).
  { unfold clear_existing.
    destruct (serialised_cases p s Hs) as [[E _]|(tm & E & _ & _ & Hreg)].
    - destruct (voteTimeouts s !! p); [|done].
      by rewrite debouncing_clearTimeout, E.
    - rewrite Hreg, debouncing_clearTimeout, E, filter_cons, filter_nil.
      by rewrite decide_False by naive_solver. }
  assert (Hfl' : inflight (clear_existing p s) = []).
  { unfold clear_existing. by destruct (voteTimeouts s !! p). }
  unfold debounce.
  set (s1 := clear_existing p s) in *.
  set (s2 := setOptimisticVotes _ s1).
  set (s3 := (setTimeout cb 300 s2).2).
  change (serialised p (set_voteTimeouts (λ m, <[p:=next_timer s2]> m) s3)).
  assert (Hdeb : debouncing s3 = [Timer (next_timer s2) (now s2 + 300) cb]).
  { subst s3. rewrite debouncing_setTimeout.
    change (debouncing s2) with (debouncing s1). rewrite Hclear.
    rewrite decide_True; [done|]. by rewrite Hcb. }
  split; [|split].
  - change (length (debouncing s3) + length (inflight s1) ≤ 1).
    by rewrite Hdeb, Hfl'.
  - intros tm Htm. change (tm ∈ debouncing s3) in Htm. rewrite Hdeb in Htm.
    apply list_elem_of_singleton in Htm as ->.
    split; [done|]. apply lookup_insert_eq.
  - intros Hne. change (inflight s1 ≠ []) in Hne. by rewrite Hfl' in Hne.
Qed.

Lemma vote_serialised (p : string) (voteType : VoteType) (s : hook) :
  serialised p s → inflight s = [] → serialised p (vote p voteType s).
Proof.
  intros Hs Hfl. unfold vote. destruct (negb _); [done|].
  by apply debounce_serialised.
Qed.

Lemma removeVote_serialised (p : string) (s : hook) :
  serialised p s → inflight s = [] → serialised p (removeVote p s).
Proof.
  intros Hs Hfl. unfold removeVote. destruct (negb _); [done|].
  by apply debounce_serialised.
Qed.

Lemma find_call_Some (k : nat) (l : list call) (c : call) :
  find_call k l = Some c → c ∈ l ∧ call_id c = k.
Proof.
  unfold find_call. intros H. apply find_some in H as [Hin Hk].
  split; [by apply list_elem_of_In|]. by apply Nat.eqb_eq.
Qed.

(** The completion of the call in flight keeps the hook serialised. *)
Lemma settled_serialised (p : string) (k : nat) (r : awaited (response unit))
    (s : hook) :
  serialised p s → serialised p (handle_event s (Settled k r)).
Proof.
  intros Hs. simpl.
  destruct (find_call k (inflight s)) as [c|] eqn:E; [|done].
  apply find_call_Some in E as [Hin Hk].
  destruct (serialised_cases p s Hs) as [[Hdeb Hlen]|(tm & _ & Hfl & _)];
    [|by rewrite Hfl in Hin; apply elem_of_nil in Hin].
  destruct (inflight s) as [|c' [|c'' l]] eqn:Hfl; simpl in Hlen; [| |lia].
  { by apply elem_of_nil in Hin. }
  apply list_elem_of_singleton in Hin as ->.
  assert (Hdone : filter (λ c', call_id c' ≠ k) [c'] = []).
  { rewrite filter_cons, filter_nil. by rewrite decide_False by naive_solver. }
  rewrite Hdone. unfold settle.
  assert (Hnone : ∀ s', debouncing s' = debouncing s → inflight s' = [] →
            serialised p (set_voteTimeouts (λ m, delete (request_post (call_request c')) m)
                            (setIsVoting false s'))).
  { intros s' Hd Hf. split; [|split]; simpl.
    - change (length (debouncing s') + length (inflight s') ≤ 1).
      rewrite Hd, Hdeb, Hf. simpl. lia.
    - intros tm Htm. change (tm ∈ debouncing s') in Htm.
      rewrite Hd, Hdeb in Htm. by apply elem_of_nil in Htm.
    - by rewrite Hf. }
  destruct r as [resp|]; [destruct (truthy (Response.error resp))|];
    apply Hnone; try done.
  rewrite debouncing_setTimeout. simpl. by rewrite app_nil_r.
Qed.
End SerialisedFacts.

(** ** The card *)

Section CardFacts.
Import Card.

Lemma mount_serialised (post : Post) (u : option string) :
  serialised (mount post u).
Proof.
  split; [|split]; simpl; [lia| |done].
  intros tm Htm. by apply elem_of_nil in Htm.
Qed.

Lemma press_serialised (voteType : VoteType) (c : card) :
  serialised c → serialised (press voteType c).
Proof.
  intros Hc. unfold press. destruct (Vote.isVoting (hook c)) eqn:Ev; [done|].
  assert (Hfl : Vote.inflight (hook c) = []).
  { destruct Hc as (_ & _ & Hv). destruct (Vote.inflight (hook c)); [done|].
    rewrite Hv in Ev; done. }
  unfold handleVote. destruct (negb _); [done|].
  case_decide.
  - by apply removeVote_serialised.
  - by apply vote_serialised.
Qed.

Lemma rerender_serialised (newPost : Post) (c : card) :
  serialised c → serialised (rerender newPost c).
Proof.
  intros Hc. unfold rerender. case_decide as E; [|done].
  unfold serialised. simpl. by rewrite E.
Qed.

Lemma step_serialised (c : card) (te : nat * event) :
  serialised c → serialised (step c te).
Proof.
  intros Hc. destruct te as [t e]. unfold step. cbn [fst snd].
  assert (Hadv : serialised (set_hook (Vote.advance t (hook c)) c)).
  { by apply advance_serialised. }
  destruct e as [voteType|k r|newPost|]; cbn [handle_event].
  - by apply press_serialised.
  - exact (settled_serialised _ k r _ Hadv).
  - by apply rerender_serialised.
  - done.
Qed.

Lemma run_serialised (schedule : list (nat * event)) (c : card) :
  serialised c → serialised (run c schedule).
Proof.
  unfold run. revert c. induction schedule as [|te l IH]; intros c Hc; [done|].
  simpl. by apply IH, step_serialised.
Qed.
End CardFacts.

(** C2 (as stated): the hook neither queues a tap that arrives while a
    submission is in flight nor waits for that submission.  A vote cast at
    0 ms goes out at 300 ms; a second vote on the same post at 350 ms, while
    the first call is pending, goes out at 650 ms; at 700 ms both calls for
    the post are in flight together. *)
Lemma C2_two_calls_in_flight :
  let s := Vote.run (Vote.initial (Some "u"))
             [(0, Vote.CallVote "p" green); (350, Vote.CallVote "p" red);
              (700, Vote.Wait)] in
  Vote.sent s = [(300, Vote.VoteOnPost "u" "p" green); (650, Vote.VoteOnPost "u" "p" red)]
  ∧ Vote.inflight_for "p" s
    = [Vote.Call 0 (Vote.VoteOnPost "u" "p" green);
       Vote.Call 1 (Vote.VoteOnPost "u" "p" red)].
Proof. vm_compute. done. Qed.

(** C2 (amended): what serialises submissions is the card.  In every state
    a [PostCard] reaches from its mount, by any schedule of presses, call
    completions, re-renders and waiting, at most one call is in flight; and
    while one is in flight a press does nothing at all: it is neither
    queued nor sent later. *)
Theorem C2_card_serialises_submissions (post : Post) (currentUserId : option string)
    (schedule : list (nat * Card.event)) :
  let c := Card.run (Card.mount post currentUserId) schedule in
  length (Vote.inflight (Card.hook c)) ≤ 1
  ∧ (∀ voteType, Vote.inflight (Card.hook c) ≠ [] → Card.press voteType c = c).
Proof.
  intros c.
  assert (Hc : Card.serialised c) by apply run_serialised, mount_serialised.
  destruct Hc as (Hlen & _ & Hv). split; [lia|].
  intros voteType Hne. unfold Card.press. by rewrite (Hv Hne).
Qed.

(** ** Failed submissions *)

(** C4: when a debounced submission for a post fails, be it by a returned
    error or by a rejected promise, the optimistic entry of that post is
    deleted (no grace timer is armed), so the effective vote is again
    exactly the server-reported vote it is asked with. *)
Theorem C4_failed_submission_reverts (s : Vote.hook) (k : nat) (c : Vote.call)
    (r : awaited (response unit)) (serverVote : option VoteType) :
  Vote.find_call k (Vote.inflight s) = Some c →
  Vote.failed r = true →
  let postId := Vote.request_post (Vote.call_request c) in
  let s' := Vote.handle_event s (Vote.Settled k r) in
  Vote.optimisticVotes s' !! postId = None
  ∧ Vote.getEffectiveVote postId serverVote s' = serverVote
  ∧ Vote.timers s' = Vote.timers s.
Proof.
  intros Hc Hr postId s'.
  assert (Hopt : Vote.optimisticVotes s' = delete postId (Vote.optimisticVotes s)
                 ∧ Vote.timers s' = Vote.timers s).
  { subst s'. simpl. rewrite Hc. unfold Vote.settle.
    destruct r as [resp|]; simpl in Hr; [rewrite Hr|]; done. }
  destruct Hopt as [Hopt Htm].
  split; [|split]; [| |done].
  - rewrite Hopt. apply lookup_delete_eq.
  - unfold Vote.getEffectiveVote. by rewrite Hopt, lookup_delete_eq.
Qed.

Lemma C4_failed_submission_reverts_witness :
  let s := Vote.run (Vote.initial (Some "u"))
             [(0, Vote.CallVote "p" green); (300, Vote.Wait)] in
  Vote.getEffectiveVote "p" (Some red) s = Some green
  ∧ Vote.getEffectiveVote "p" (Some red)
      (Vote.handle_event s (Vote.Settled 0 Examples.failed)) = Some red.
Proof.
  intros s. split; [by vm_compute|].
  exact (proj1 (proj2 (C4_failed_submission_reverts s 0
           (Vote.Call 0 (Vote.VoteOnPost "u" "p" green)) Examples.failed (Some red)
           eq_refl eq_refl))).
Defined.

(** ** One card, one vote: the timed scenario *)

Section AdvanceFacts.
Import Vote.

Lemma filter_none {B : Type} (P : B → Prop) `{!∀ x, Decision (P x)} (l : list B) :
  (∀ x, x ∈ l → ¬ P x) → filter P l = [].
Proof.
  induction l as [|x l IH]; intros Hl; [done|].
  rewrite filter_cons, decide_False by (apply Hl, list_elem_of_here).
  apply IH. intros y Hy. by apply Hl, list_elem_of_further.
Qed.

(** Nothing is due: only the clock moves. *)
Lemma advance_none_due (t : nat) (s : hook) :
  (∀ tm, tm ∈ timers s → t < due tm) →
  advance t s = set_now (now s `max` t) s.
Proof.
  intros Hlate.
  assert (Hnone : next_due t s = None).
  { unfold next_due. rewrite filter_none; [done|].
    intros tm Htm%Hlate. lia. }
  unfold advance. destruct (length (timers s)); simpl; by rewrite ?Hnone.
Qed.

(** The only armed timer is due: it fires, then the clock moves on. *)
Lemma advance_single_due (t : nat) (s : hook) (tm : timer) :
  timers s = [tm] → due tm ≤ t →
  advance t s = set_now (now (fire tm s) `max` t) (fire tm s).
Proof.
  intros Htm Hdue.
  assert (Hnext : next_due t s = Some tm).
  { unfold next_due. by rewrite Htm, filter_cons, decide_True, filter_nil. }
  unfold advance. rewrite Htm. simpl. by rewrite Hnext.
Qed.
End AdvanceFacts.

Section Scenario.
Import Vote Card.

Variables (P P' : Post) (u : string) (t0 t1 : nat).
Hypothesis signed_in : truthy (Some u) = true.
Hypothesis no_green : Post.green_votes P = Some 0%Z.
Hypothesis no_red : Post.red_votes P = Some 0%Z.
Hypothesis no_vote : Post.user_vote P = None.
Hypothesis same_post : Post.id P' = Post.id P.
Hypothesis one_green : Post.green_votes P' = Some 1%Z.
Hypothesis still_no_red : Post.red_votes P' = Some 0%Z.
Hypothesis voted_green : Post.user_vote P' = Some green.
Hypothesis confirmed_after_send : t0 + 300 ≤ t1.

Let p := Post.id P.
Let cast := VoteOnPost u p green.

(** The hook right after the tap, while the call is in flight, after the
    confirmation, and after the grace timer has fired. *)
Let tapped : Vote.hook :=
  Hook (Some u) false (<[p:=Some green]> ∅) (<[p:=1]> ∅) t0
       [Timer 1 (t0 + 300) (SubmitVote u p green)] 2 [] 0 [].
Let submitting (t : nat) : Vote.hook :=
  Hook (Some u) true (<[p:=Some green]> ∅) (<[p:=1]> ∅) t
       [] 2 [Call 0 cast] 1 [(t0 + 300, cast)].
Let settled (t : nat) : Vote.hook :=
  Hook (Some u) false (<[p:=Some green]> ∅) (delete p (<[p:=1]> ∅)) t
       [Timer 2 (t1 + 1000) (ClearOptimistic p)] 3 [] 1 [(t0 + 300, cast)].
Let cleared (t : nat) : Vote.hook :=
  Hook (Some u) false (delete p (<[p:=Some green]> ∅)) (delete p (<[p:=1]> ∅)) t
       [] 3 [] 1 [(t0 + 300, cast)].

Let c1 := step (mount P (Some u)) (t0, Press green).
Let c2 := step c1 (t1, Settled 0 (Resolved (Response.mk (Some tt) None))).

Lemma scenario_tapped : c1 = Card P tapped [].
Proof.
  subst c1. unfold step, mount. cbn [fst snd Card.hook set_hook].
  rewrite advance_none_due by (intros tm Htm; by apply elem_of_nil in Htm).
  unfold handle_event, press, handleVote, currentUserId, effectiveVote,
    getEffectiveVote, vote, debounce, clear_existing, initial.
  cbn -[empty insert delete lookup truthy].
  rewrite signed_in, !lookup_empty, no_vote. reflexivity.
Qed.

Lemma scenario_waiting (t : nat) :
  t0 ≤ t → t < t0 + 300 → step c1 (t, Card.Wait) = Card P (set_now t tapped) [].
Proof.
  intros Ht0 Ht. rewrite scenario_tapped. unfold step. cbn [fst snd Card.hook set_hook].
  rewrite advance_none_due.
  - cbn [handle_event now tapped]. by rewrite Nat.max_r.
  - intros tm ->%list_elem_of_singleton. simpl. lia.
Qed.

Lemma scenario_advance_submitting (t : nat) :
  t0 + 300 ≤ t → advance t tapped = submitting t.
Proof.
  intros Ht. rewrite (advance_single_due t tapped (Timer 1 (t0 + 300) (SubmitVote u p green)));
    [|done|simpl; lia].
  unfold fire, clearTimeout. cbn [handle action due timers tapped now set_timers set_now].
  rewrite filter_cons, decide_False by (simpl; naive_solver). rewrite filter_nil.
  cbn [run_callback setIsVoting issue now userId isVoting optimisticVotes voteTimeouts
       timers next_timer inflight next_call sent app set_now].
  rewrite (Nat.max_r t0) by lia. by rewrite Nat.max_r.
Qed.

Lemma scenario_settled : c2 = Card P (settled t1) [].
Proof.
  subst c2. rewrite scenario_tapped. unfold step. cbn [fst snd Card.hook set_hook].
  rewrite scenario_advance_submitting by done.
  reflexivity.
Qed.

Lemma scenario_grace (t : nat) :
  t1 ≤ t → t < t1 + 1000 → step c2 (t, Card.Wait) = Card P (settled t) [].
Proof.
  intros Ht1 Ht. rewrite scenario_settled. unfold step. cbn [fst snd Card.hook set_hook].
  rewrite advance_none_due.
  - cbn [handle_event now settled set_now]. by rewrite Nat.max_r.
  - intros tm ->%list_elem_of_singleton. simpl. lia.
Qed.

Lemma scenario_cleared (t : nat) :
  t1 + 1000 ≤ t → step c2 (t, Card.Wait) = Card P (cleared t) [].
Proof.
  intros Ht. rewrite scenario_settled. unfold step. cbn [fst snd Card.hook set_hook].
  rewrite (advance_single_due t (settled t1) (Timer 2 (t1 + 1000) (ClearOptimistic p)));
    [|done|simpl; lia].
  unfold fire, clearTimeout. cbn [handle action due timers settled now set_timers set_now].
  rewrite filter_cons, decide_False by (simpl; naive_solver). rewrite filter_nil.
  cbn [run_callback setOptimisticVotes now userId isVoting optimisticVotes voteTimeouts
       timers next_timer inflight next_call sent set_now handle_event].
  rewrite (Nat.max_r t1) by lia. by rewrite Nat.max_r.
Qed.

(** With the optimistic entry in place the card shows green and 1/0, on
    the stale post as on the server-reported one. *)
Lemma display_optimistic (h : Vote.hook) (a : list (string * string)) :
  optimisticVotes h !! p = Some (Some green) →
  display (Card P h a) = (Some green, 1%Z, 0%Z)
  ∧ display (rerender P' (Card P h a)) = (Some green, 1%Z, 0%Z).
Proof.
  intros Hopt. unfold rerender. cbn [Card.post]. rewrite decide_True by done.
  unfold display, greenCount, redCount, effectiveVote, getEffectiveVote.
  cbn [Card.post Card.hook]. rewrite same_post. fold p. rewrite Hopt.
  rewrite no_green, no_red, no_vote, one_green, still_no_red, voted_green.
  done.
Qed.

(** Without it the card shows what the server reported. *)
Lemma display_server (h : Vote.hook) (a : list (string * string)) :
  optimisticVotes h !! p = None →
  display (rerender P' (Card P h a)) = (Some green, 1%Z, 0%Z).
Proof.
  intros Hopt. unfold rerender. cbn [Card.post]. rewrite decide_True by done.
  unfold display, greenCount, redCount, effectiveVote, getEffectiveVote.
  cbn [Card.post Card.hook]. rewrite same_post. fold p. rewrite Hopt.
  rewrite one_green, still_no_red, voted_green.
  done.
Qed.

(** Without it, and on the post the card was given, the card is back at no
    vote and 0/0. *)
Lemma display_held (h : Vote.hook) (a : list (string * string)) :
  optimisticVotes h !! p = None →
  display (Card P h a) = (None, 0%Z, 0%Z).
Proof.
  intros Hopt.
  unfold display, greenCount, redCount, effectiveVote, getEffectiveVote.
  cbn [Card.post Card.hook]. fold p. rewrite Hopt.
  rewrite no_green, no_red, no_vote.
  done.
Qed.

(** C9: a signed-in viewer casts green on a post showing 0 green / 0 red
    and no vote of theirs.  From the tap on the card shows green and 1/0.
    No call goes out before 300 ms have passed, and from then on exactly
    one call has gone out, [voteOnPost(u, p, green)], stamped 300 ms after
    the tap.  Once the server has confirmed (at [t1]), the optimistic
    entry stays for 1000 ms, during which the card keeps showing green and
    1/0, on the post it was given as on the server's version of it; after
    that the entry is gone, no timer or call is left, still only one call
    has been made, and the card shows the vote and the counts of the post
    it is rendered with: green and 1/0 when that is the server's version
    [P'], no vote and 0/0 as long as it is still [P]. *)
Theorem C9_green_vote_on_unvoted_post :
  (display c1 = (Some green, 1%Z, 0%Z) ∧ sent (Card.hook c1) = [])
  ∧ (∀ t, t0 ≤ t → t < t0 + 300 →
       let c := step c1 (t, Card.Wait) in
       display c = (Some green, 1%Z, 0%Z) ∧ sent (Card.hook c) = [])
  ∧ (∀ t, t0 + 300 ≤ t →
       let c := step c1 (t, Card.Wait) in
       display c = (Some green, 1%Z, 0%Z)
       ∧ sent (Card.hook c) = [(t0 + 300, VoteOnPost u (Post.id P) green)])
  ∧ (∀ t, t1 ≤ t → t < t1 + 1000 →
       let c := step c2 (t, Card.Wait) in
       optimisticVotes (Card.hook c) !! Post.id P = Some (Some green)
       ∧ display c = (Some green, 1%Z, 0%Z)
       ∧ display (rerender P' c) = (Some green, 1%Z, 0%Z)
       ∧ sent (Card.hook c) = [(t0 + 300, VoteOnPost u (Post.id P) green)])
  ∧ (∀ t, t1 + 1000 ≤ t →
       let c := step c2 (t, Card.Wait) in
       optimisticVotes (Card.hook c) !! Post.id P = None
       ∧ Card.post c = P
       ∧ display c = (None, 0%Z, 0%Z)
       ∧ display (rerender P c) = (None, 0%Z, 0%Z)
       ∧ display (rerender P' c) = (Some green, 1%Z, 0%Z)
       ∧ sent (Card.hook c) = [(t0 + 300, VoteOnPost u (Post.id P) green)]
       ∧ timers (Card.hook c) = []
       ∧ inflight (Card.hook c) = []).
Proof.
  assert (Hin : ∀ m : gmap string (option VoteType),
            <[p:=Some green]> m !! p = Some (Some green))
    by (intros; apply lookup_insert_eq).
  split; [|split; [|split; [|split]]].
  - rewrite scenario_tapped. split; [|done].
    apply (display_optimistic tapped), Hin.
  - intros t Ht0 Ht c. subst c. rewrite scenario_waiting by done. split; [|done].
    apply (display_optimistic (set_now t tapped)), Hin.
  - intros t Ht c. subst c. rewrite scenario_tapped.
    unfold step. cbn [fst snd Card.hook set_hook handle_event].
    rewrite scenario_advance_submitting by done. split; [|done].
    apply (display_optimistic (submitting t)), Hin.
  - intros t Ht1 Ht c. subst c. rewrite scenario_grace by done.
    split; [by apply Hin|].
    destruct (display_optimistic (settled t) [] (Hin _)) as [Hold Hnew].
    done.
  - intros t Ht c. subst c. rewrite scenario_cleared by done.
    assert (Hgone : optimisticVotes (cleared t) !! p = None) by apply lookup_delete_eq.
    split; [exact Hgone|]. split; [done|].
    split; [by apply display_held|].
    split; [|split; [by apply display_server|done]].
    unfold rerender. cbn [Card.post]. rewrite decide_True by done.
    by apply display_held.
Qed.
End Scenario.

Lemma C9_green_vote_on_unvoted_post_witness :
  let c1 := Card.step (Card.mount (Examples.mkpost "P") (Some "u")) (0, Card.Press green) in
  let c2 := Card.step c1 (450, Card.Settled 0 Examples.ok) in
  (Card.display c1 = (Some green, 1%Z, 0%Z) ∧ Vote.sent (Card.hook c1) = [])
  ∧ Vote.sent (Card.hook (Card.step c1 (299, Card.Wait))) = []
  ∧ Vote.sent (Card.hook (Card.step c1 (300, Card.Wait)))
    = [(300, Vote.VoteOnPost "u" "P" green)]
  ∧ Card.display (Card.step c2 (1449, Card.Wait)) = (Some green, 1%Z, 0%Z)
  ∧ Card.display (Card.rerender Examples.voted_post (Card.step c2 (1449, Card.Wait)))
    = (Some green, 1%Z, 0%Z)
  ∧ Vote.optimisticVotes (Card.hook (Card.step c2 (1450, Card.Wait))) !! "P" = None
  ∧ Card.display (Card.rerender Examples.voted_post (Card.step c2 (1450, Card.Wait)))
    = (Some green, 1%Z, 0%Z)
  ∧ Vote.sent (Card.hook (Card.step c2 (1450, Card.Wait)))
    = [(300, Vote.VoteOnPost "u" "P" green)].
Proof.
  intros c1 c2.
  pose proof (C9_green_vote_on_unvoted_post (Examples.mkpost "P") Examples.voted_post
                "u" 0 450 eq_refl eq_refl eq_refl eq_refl eq_refl eq_refl eq_refl eq_refl
                (proj1 (Nat.leb_le 300 450) eq_refl))
    as (Htap & Hwait & Hsent & Hgrace & Hafter).
  split; [exact Htap|].
  split; [exact (proj2 (Hwait 299 (proj1 (Nat.leb_le 0 299) eq_refl)
                          (proj1 (Nat.ltb_lt 299 300) eq_refl)))|].
  split; [exact (proj2 (Hsent 300 (proj1 (Nat.leb_le 300 300) eq_refl)))|].
  destruct (Hgrace 1449 (proj1 (Nat.leb_le 450 1449) eq_refl)
              (proj1 (Nat.ltb_lt 1449 1450) eq_refl)) as (_ & Hold & Hnew & _).
  split; [exact Hold|]. split; [exact Hnew|].
  destruct (Hafter 1450 (proj1 (Nat.leb_le 1450 1450) eq_refl))
    as (Hgone & _ & _ & _ & Hserver & Hone & _).
  split; [exact Hgone|]. split; [exact Hserver|exact Hone].
Defined.

(** C9 as stated fails in the feed.  The viewer ["u"] taps green at 0 on
    the card of a post ["P"] that shows 0/0; the call goes out at 300 and
    is confirmed at 450.  Up to 1449 the card shows green and 1/0.  At
    1450 the optimistic entry is deleted and the card shows no vote and
    0/0 again, although the server holds the vote: the card shows the post
    it is rendered with, and the feed it is rendered from still holds the
    post as it was fetched, also after a realtime insert. *)
Lemma C9_card_falls_back_to_the_fetched_post :
  let P := Examples.mkpost "P" in
  let c1 := Card.step (Card.mount P (Some "u")) (0, Card.Press green) in
  let c2 := Card.step c1 (450, Card.Settled 0 Examples.ok) in
  let c := Card.step c2 (1450, Card.Wait) in
  let feed := Feed.run (Feed.mount (Some "u"))
                [Feed.Fetched 0 (Examples.page [P]);
                 Feed.NewPost (Examples.mkpost "N")] in
  Card.display (Card.mount P (Some "u")) = (None, 0%Z, 0%Z)
  ∧ Card.display c1 = (Some green, 1%Z, 0%Z)
  ∧ Vote.sent (Card.hook c2) = [(300, Vote.VoteOnPost "u" "P" green)]
  ∧ Card.display (Card.step c2 (1449, Card.Wait)) = (Some green, 1%Z, 0%Z)
  ∧ Vote.optimisticVotes (Card.hook c) !! "P" = None
  ∧ Card.display c = (None, 0%Z, 0%Z)
  ∧ Feed.posts feed = [Examples.mkpost "N"; P]
  ∧ Feed.pending feed = []
  ∧ Card.display (Card.rerender P c) = (None, 0%Z, 0%Z).
Proof. vm_compute. repeat split. Qed.

(** ** Debouncing *)

Section WellFormedFacts.
Import Vote.

Lemma well_formed_frame (s s' : hook) :
  timers s' = timers s → next_timer s' = next_timer s →
  voteTimeouts s' = voteTimeouts s →
  well_formed s → well_formed s'.
Proof. unfold well_formed. by intros -> -> ->. Qed.

Lemma same_handle (s : hook) (tm tm' : timer) :
  well_formed s → tm ∈ timers s → tm' ∈ timers s → handle tm = handle tm' → tm = tm'.
Proof.
  intros (Hnd & _ & _). revert Hnd.
  induction (timers s) as [|x l IH]; [by intros _ ?%elem_of_nil|].
  rewrite fmap_cons, NoDup_cons. intros [Hx Hl] Hin Hin' Heq.
  apply elem_of_cons in Hin as [->|Hin]; apply elem_of_cons in Hin' as [->|Hin'].
  - done.
  - destruct Hx. apply list_elem_of_fmap. by exists tm'.
  - destruct Hx. apply list_elem_of_fmap. by exists tm.
  - by apply IH.
Qed.

Lemma clearTimeout_wf (h : nat) (s : hook) :
  well_formed s → well_formed (clearTimeout h s).
Proof.
  intros (Hnd & Hold & Hreg). unfold clearTimeout. split; [|split]; simpl.
  - eapply sublist_NoDup; [exact Hnd|]. apply fmap_sublist, sublist_filter.
  - intros tm [_ Htm]%list_elem_of_filter. by apply Hold.
  - intros q h' Hq. destruct (Hreg q h' Hq) as [Hlt Hcb]. split; [done|].
    intros tm [_ Htm]%list_elem_of_filter. by apply Hcb.
Qed.

Lemma clear_existing_wf (q : string) (s : hook) :
  well_formed s → well_formed (clear_existing q s).
Proof.
  intros Hs. unfold clear_existing. destruct (voteTimeouts s !! q); [|done].
  by apply clearTimeout_wf.
Qed.

Lemma setTimeout_wf (cb : callback) (delay : nat) (s : hook) :
  well_formed s → well_formed (setTimeout cb delay s).2.
Proof.
  intros (Hnd & Hold & Hreg). split; [|split]; simpl.
  - rewrite fmap_app. apply NoDup_app. split; [done|]. split.
    + intros h (tm & -> & Htm)%list_elem_of_fmap Heq%list_elem_of_singleton.
      apply Hold in Htm. simpl in Heq. lia.
    + apply NoDup_singleton.
  - intros tm [Htm| ->%list_elem_of_singleton]%elem_of_app; simpl; [|lia].
    apply Hold in Htm. lia.
  - intros q h Hq. destruct (Hreg q h Hq) as [Hlt Hcb]. split; [lia|].
    intros tm [Htm| ->%list_elem_of_singleton]%elem_of_app; [by apply Hcb|].
    simpl. lia.
Qed.

(** Registering the handle of the timer just armed for the post of its
    callback. *)
Lemma register_wf (q : string) (cb : callback) (delay : nat) (s : hook) :
  callback_post cb = Some q →
  well_formed s →
  well_formed (set_voteTimeouts (λ m, <[q:=next_timer s]> m) (setTimeout cb delay s).2).
Proof.
  intros Hcb Hs. pose proof (setTimeout_wf cb delay s Hs) as (Hnd & Hold & Hreg).
  destruct Hs as (_ & Hold0 & _).
  split; [done|]. split; [done|]. simpl.
  intros q' h. destruct (decide (q = q')) as [<-|Hne].
  - rewrite lookup_insert_eq. intros [= <-]. split; [lia|].
    intros tm [Htm| ->%list_elem_of_singleton]%elem_of_app; [|done].
    apply Hold0 in Htm. lia.
  - rewrite lookup_insert_ne by done. apply Hreg.
Qed.

Lemma unregister_wf (q : string) (s : hook) :
  well_formed s → well_formed (set_voteTimeouts (λ m, delete q m) s).
Proof.
  intros (Hnd & Hold & Hreg). split; [done|]. split; [done|]. simpl.
  intros q' h. destruct (decide (q = q')) as [<-|Hne].
  - by rewrite lookup_delete_eq.
  - rewrite lookup_delete_ne by done. apply Hreg.
Qed.

Lemma debounce_wf (q : string) (o : option VoteType) (cb : callback) (s : hook) :
  callback_post cb = Some q → well_formed s → well_formed (debounce q o cb s).
Proof.
  intros Hcb Hs. unfold debounce.
  apply (register_wf q cb 300 (setOptimisticVotes _ (clear_existing q s)) Hcb).
  eapply well_formed_frame; [..|by apply (clear_existing_wf q)]; done.
Qed.

Lemma fire_wf (tm : timer) (s : hook) : well_formed s → well_formed (fire tm s).
Proof.
  intros Hs. unfold fire.
  eapply well_formed_frame; [..|by apply (clearTimeout_wf (handle tm))];
    by destruct (action tm).
Qed.

Lemma advance_wf (t : nat) (s : hook) : well_formed s → well_formed (advance t s).
Proof.
  apply (advance_keeps well_formed).
  - intros s' tm Hs' _ _. by apply fire_wf.
  - intros s' Hs'. by eapply well_formed_frame.
Qed.

Lemma settle_wf (q : string) (r : awaited (response unit)) (s : hook) :
  well_formed s → well_formed (settle q r s).
Proof.
  intros Hs. unfold settle. apply unregister_wf.
  destruct r as [resp|]; [destruct (truthy (Response.error resp))|];
    try (by eapply well_formed_frame).
  eapply well_formed_frame; [..|by apply (setTimeout_wf (ClearOptimistic q) 1000)]; done.
Qed.

Lemma handle_event_wf (s : hook) (e : event) :
  e ≠ CallCleanup → well_formed s → well_formed (handle_event s e).
Proof.
  intros He Hs. destruct e as [q v|q|q cur v|q| |k r|]; simpl; try done.
  - unfold vote. destruct (negb _); [done|]. by apply debounce_wf.
  - unfold removeVote. destruct (negb _); [done|]. by apply debounce_wf.
  - unfold toggleVote, vote, removeVote.
    case_decide; (destruct (negb _); [done|]); by apply debounce_wf.
  - destruct (find_call k (inflight s)); [|done].
    apply settle_wf. by eapply well_formed_frame.
Qed.

Lemma initial_wf (u : option string) : well_formed (initial u).
Proof.
  split; [|split]; simpl.
  - constructor.
  - by intros tm ?%elem_of_nil.
  - intros q h. by rewrite lookup_empty.
Qed.
End WellFormedFacts.

Section ProjectionFacts.
Import Vote.
Variable p : string.

Lemma filter_all {B : Type} (P : B → Prop) `{!∀ x, Decision (P x)} (l : list B) :
  (∀ x, x ∈ l → P x) → filter P l = l.
Proof.
  induction l as [|x l IH]; intros Hl; [done|].
  rewrite filter_cons, decide_True by (apply Hl, list_elem_of_here).
  f_equal. apply IH. intros y Hy. by apply Hl, list_elem_of_further.
Qed.

Lemma callback_post_submits (cb : callback) :
  callback_post cb = request_post <$> submits cb.
Proof. by destruct cb. Qed.

Lemma request_for_post (u : string) (kind : option VoteType) :
  request_post (request_for u p kind) = p.
Proof. by destruct kind. Qed.

Lemma armed_elem (s : hook) (tm : timer) :
  tm ∈ armed p s ↔ tm ∈ timers s ∧ callback_post (action tm) = Some p.
Proof. unfold armed. rewrite list_elem_of_filter. tauto. Qed.

Lemma armed_clearTimeout (h : nat) (s : hook) :
  armed p (clearTimeout h s) = filter (λ tm, handle tm ≠ h) (armed p s).
Proof.
  unfold armed, clearTimeout. simpl.
  induction (timers s) as [|x l IH]; [done|].
  rewrite !filter_cons.
  repeat (case_decide; rewrite ?filter_cons; simpl); by rewrite ?IH.
Qed.

Lemma armed_setTimeout (cb : callback) (delay : nat) (s : hook) :
  armed p (setTimeout cb delay s).2
  = armed p s
    ++ (if decide (callback_post cb = Some p)
        then [Timer (next_timer s) (now s + delay) cb] else []).
Proof.
  unfold armed, setTimeout. simpl. rewrite filter_app, filter_cons, filter_nil.
  simpl. by case_decide.
Qed.

(** Disarming a handle that none of the post's timers carries. *)
Lemma armed_clear_other (h : nat) (s : hook) :
  (∀ tm, tm ∈ armed p s → handle tm ≠ h) →
  armed p (clearTimeout h s) = armed p s.
Proof. intros Hother. rewrite armed_clearTimeout. by apply filter_all. Qed.

(** What firing a timer does to the fields the burst depends on. *)
Lemma fire_fields (tm : timer) (s : hook) :
  timers (fire tm s) = filter (λ x, handle x ≠ handle tm) (timers s)
  ∧ voteTimeouts (fire tm s) = voteTimeouts s
  ∧ userId (fire tm s) = userId s
  ∧ now (fire tm s) = now s `max` due tm
  ∧ inflight (fire tm s)
    = inflight s ++ match submits (action tm) with
                    | Some r => [Call (next_call s) r]
                    | None => []
                    end
  ∧ sent (fire tm s)
    = sent s ++ match submits (action tm) with
                | Some r => [(now s `max` due tm, r)]
                | None => []
                end.
Proof. unfold fire. destruct (action tm); simpl; by rewrite ?app_nil_r. Qed.

Lemma inflight_for_app (s : hook) (l l' : list call) :
  inflight s = l ++ l' →
  inflight_for p s = filter (λ c, request_post (call_request c) = p) l
                     ++ filter (λ c, request_post (call_request c) = p) l'.
Proof. unfold inflight_for. intros ->. apply filter_app. Qed.

Lemma requests_for_app (s : hook) (l l' : list (nat * request)) :
  sent s = l ++ l' →
  requests_for p s = (snd <$> filter (λ x, request_post x.2 = p) l)
                     ++ (snd <$> filter (λ x, request_post x.2 = p) l').
Proof. unfold requests_for, sent_for. intros ->. by rewrite filter_app, fmap_app. Qed.
End ProjectionFacts.

Section TrackingFacts.
Import Vote.
Variables (u p : string) (before : list request).

(** The stage only depends on the post's own timers, registration, calls
    and log, and on the clock not running backwards. *)
Lemma tracking_same (st : stage) (s s' : hook) :
  armed p s' = armed p s →
  (stage_tap st = None ∨ voteTimeouts s' !! p = voteTimeouts s !! p
   ∨ ∃ t kind, st = Submitted t kind) →
  (inflight_for p s = [] → inflight_for p s' = []) →
  requests_for p s' = requests_for p s →
  now s ≤ now s' →
  tracking u p before st s → tracking u p before st s'.
Proof.
  intros Ha Hv Hi Hr Hn. destruct st as [|t kind|t kind]; simpl.
  - intros (? & ? & ?). rewrite Ha, Hr. auto.
  - intros (tm & ? & ? & ? & ? & ? & ?). exists tm. rewrite Ha, Hr.
    destruct Hv as [[=]|[->|(? & ? & [=])]]. auto 10.
  - intros (? & ? & ?). rewrite Ha, Hr. repeat split; [done..|lia].
Qed.

(** Firing a timer of another post, or a grace timer, leaves the stage as
    it is; firing the post's own debounce timer submits the pending tap. *)
Lemma fire_tracking (st : stage) (s : hook) (tm : timer) :
  well_formed s → tm ∈ timers s → tracking u p before st s →
  (callback_post (action tm) ≠ Some p ∧ tracking u p before st (fire tm s))
  ∨ (∃ t kind, st = Pending t kind ∧ due tm = t + 300
               ∧ tracking u p before (Submitted t kind) (fire tm s)).
Proof.
  intros Hwf Hin Hst.
  destruct (fire_fields tm s) as (Htm & Hvt & _ & Hnow & Hfl & Hsent).
  assert (Harmed : armed p (fire tm s) = filter (λ x, handle x ≠ handle tm) (armed p s)).
  { rewrite <- armed_clearTimeout. unfold armed. by rewrite Htm. }
  destruct (decide (callback_post (action tm) = Some p)) as [Hp|Hp].
  - right.
    assert (Hmine : tm ∈ armed p s) by by apply armed_elem.
    destruct st as [|t kind|t kind]; simpl in Hst.
    { destruct Hst as (E & _). rewrite E in Hmine. by apply elem_of_nil in Hmine. }
    2:{ destruct Hst as (E & _). rewrite E in Hmine. by apply elem_of_nil in Hmine. }
    destruct Hst as (tm' & E & Hreg & Hdue & Hsub & Hnone & Hreq).
    rewrite E in Hmine. apply list_elem_of_singleton in Hmine as ->.
    exists t, kind. split; [done|]. split; [done|]. simpl.
    split; [|split].
    + rewrite Harmed, E, filter_cons, filter_nil.
      by rewrite decide_False by naive_solver.
    + rewrite (requests_for_app p _ _ _ Hsent), Hsub.
      fold (sent_for p s). fold (requests_for p s). rewrite Hreq.
      rewrite filter_cons, filter_nil. simpl.
      by rewrite decide_True by apply request_for_post.
    + lia.
  - left. split; [done|].
    apply (tracking_same st s); [| | | |lia|done].
    + rewrite Harmed. apply filter_all. intros tm' Htm' Heq.
      apply armed_elem in Htm' as [Htm' Hcb].
      by rewrite (same_handle s tm' tm Hwf Htm' Hin Heq) in Hcb.
    + right. left. by rewrite Hvt.
    + intros Hnone. rewrite (inflight_for_app p _ _ _ Hfl).
      fold (inflight_for p s). rewrite Hnone. simpl.
      rewrite callback_post_submits in Hp.
      destruct (submits (action tm)) as [r|]; [|done].
      rewrite filter_cons, filter_nil. simpl.
      rewrite decide_False; [done|]. intros Hr. apply Hp. simpl. by rewrite Hr.
    + rewrite (requests_for_app p _ _ _ Hsent).
      fold (sent_for p s). fold (requests_for p s).
      rewrite callback_post_submits in Hp.
      destruct (submits (action tm)) as [r|]; [|by rewrite app_nil_r].
      rewrite filter_cons, filter_nil. simpl.
      rewrite decide_False; [by rewrite app_nil_r|].
      intros Hr. apply Hp. simpl. by rewrite Hr.
Qed.

Lemma now_fire_due (t : nat) (fuel : nat) (s : hook) :
  now s ≤ t → now (fire_due fuel t s) ≤ t.
Proof.
  apply (fire_due_keeps (λ s', now s' ≤ t)).
  intros s' tm Hs' _ Hdue. destruct (fire_fields tm s') as (_ & _ & _ & -> & _). lia.
Qed.

Lemma now_advance (t : nat) (s : hook) : now s ≤ t → now (advance t s) = t.
Proof.
  intros Hs. unfold advance. simpl.
  pose proof (now_fire_due t (length (timers s)) s Hs). lia.
Qed.

Lemma userId_advance (t : nat) (s : hook) : userId (advance t s) = userId s.
Proof.
  apply (advance_keeps (λ s', userId s' = userId s)); [|done..].
  intros s' tm Hs' _ _. destruct (fire_fields tm s') as (_ & _ & -> & _). done.
Qed.

(** The stage once the timers due by [t] have fired. *)
Lemma advance_tracking (t : nat) (st : stage) (s : hook) :
  well_formed s → tracking u p before st s →
  tracking u p before (after t st) (advance t s).
Proof.
  intros Hwf Hst.
  set (P := λ s', well_formed s'
                  ∧ (tracking u p before st s'
                     ∨ ∃ t' kind, st = Pending t' kind ∧ t' + 300 ≤ t
                                  ∧ tracking u p before (Submitted t' kind) s')).
  assert (HP : P (advance t s)).
  { apply (advance_keeps P).
    - intros s' tm [Hwf' Hst'] Hin Hdue. split; [by apply fire_wf|].
      destruct Hst' as [Hst'|(t' & kind & -> & Ht' & Hst')].
      + destruct (fire_tracking st s' tm Hwf' Hin Hst')
          as [[_ Hkeep]|(t' & kind & -> & Hdue' & Hsub)]; [by left|].
        right. exists t', kind. split; [done|]. split; [lia|done].
      + right. exists t', kind. split; [done|]. split; [done|].
        destruct (fire_tracking _ s' tm Hwf' Hin Hst')
          as [[_ Hkeep]|(? & ? & [=] & _)]; done.
    - intros s' [Hwf' Hst']. split; [by eapply well_formed_frame|].
      assert (Hkeep : ∀ st', tracking u p before st' s' →
                tracking u p before st' (set_now (now s' `max` t) s')).
      { intros st'. apply tracking_same; try done; [by right; left|simpl; lia]. }
      destruct Hst' as [Hst'|(t'' & kind & -> & Ht' & Hst')]; [left; by apply Hkeep|].
      right. exists t'', kind. split; [done|]. split; [done|]. by apply Hkeep.
    - split; [done|]. by left. }
  destruct HP as [_ [Hsame|(t' & kind & -> & Ht' & Hsub)]].
  - destruct st as [|t' kind|t' kind]; try done.
    simpl. case_decide as Ht'; [|done].
    destruct Hsame as (tm & E & _ & Hdue & _).
    assert (Htm : tm ∈ armed p (advance t s)) by (rewrite E; apply list_elem_of_here).
    apply armed_elem in Htm as [Htm%advance_complete _]. lia.
  - simpl. by rewrite decide_True.
Qed.

(** A tap on the post, before or during a burst, (re)starts the debounce:
    the stage becomes pending with the time and kind of this tap. *)
Lemma debounce_tracking (st : stage) (s : hook) (kind : option VoteType)
    (o : option VoteType) (cb : callback) :
  submits cb = Some (request_for u p kind) →
  (st = Untapped ∨ ∃ t' kind', st = Pending t' kind') →
  tracking u p before st s →
  tracking u p before (Pending (now s) kind) (debounce p o cb s).
Proof.
  intros Hcb Hstage Hst.
  assert (Hpost : callback_post cb = Some p).
  { rewrite callback_post_submits, Hcb. simpl. by rewrite request_for_post. }
  assert (Hclear : armed p (clear_existing p s) = []
                   ∧ inflight_for p s = [] ∧ requests_for p s = before).
  { unfold clear_existing.
    destruct Hstage as [->|(t' & kind' & ->)]; simpl in Hst.
    - destruct Hst as (E & ? & ?). split; [|done].
      destruct (voteTimeouts s !! p); [|done]. by rewrite armed_clearTimeout, E.
    - destruct Hst as (tm & E & Hreg & _ & _ & ? & ?). split; [|done].
      rewrite Hreg, armed_clearTimeout, E, filter_cons, filter_nil.
      by rewrite decide_False by naive_solver. }
  destruct Hclear as (Hclear & Hnone & Hreq).
  unfold debounce.
  set (s1 := clear_existing p s) in *.
  set (s2 := setOptimisticVotes _ s1).
  set (s3 := (setTimeout cb 300 s2).2).
  change (tracking u p before (Pending (now s) kind)
            (set_voteTimeouts (λ m, <[p:=next_timer s2]> m) s3)).
  assert (Hsame : inflight s1 = inflight s ∧ sent s1 = sent s ∧ now s1 = now s).
  { subst s1. unfold clear_existing. by destruct (voteTimeouts s !! p). }
  destruct Hsame as (Hfl & Hsent & Hnow).
  exists (Timer (next_timer s2) (now s2 + 300) cb).
  split; [|split; [|split; [|split; [|split]]]].
  - change (armed p s3 = [Timer (next_timer s2) (now s2 + 300) cb]).
    subst s3. rewrite armed_setTimeout.
    change (armed p s2) with (armed p s1). by rewrite Hclear, decide_True.
  - apply lookup_insert_eq.
  - simpl. change (now s2) with (now s1). by rewrite Hnow.
  - done.
  - change (filter (λ c, request_post (call_request c) = p) (inflight s1) = []).
    rewrite Hfl. exact Hnone.
  - change (snd <$> filter (λ x, request_post x.2 = p) (sent s1) = before).
    rewrite Hsent. exact Hreq.
Qed.

(** A tap on another post leaves the stage as it is. *)
Lemma debounce_other_tracking (st : stage) (s : hook) (q : string)
    (o : option VoteType) (cb : callback) :
  q ≠ p → callback_post cb = Some q →
  well_formed s →
  tracking u p before st s →
  tracking u p before st (debounce q o cb s).
Proof.
  intros Hq Hcb Hwf.
  assert (Hclear : armed p (clear_existing q s) = armed p s).
  { unfold clear_existing. destruct (voteTimeouts s !! q) as [h|] eqn:E; [|done].
    apply armed_clear_other. intros tm [Htm Hp]%armed_elem Hh.
    destruct Hwf as (_ & _ & Hreg). destruct (Hreg q h E) as [_ Hown].
    rewrite (Hown tm Htm Hh) in Hp. by injection Hp. }
  assert (Hsame : inflight (clear_existing q s) = inflight s
                  ∧ sent (clear_existing q s) = sent s
                  ∧ now (clear_existing q s) = now s
                  ∧ voteTimeouts (clear_existing q s) = voteTimeouts s).
  { unfold clear_existing. by destruct (voteTimeouts s !! q). }
  destruct Hsame as (Hfl & Hsent & Hnow & Hvt).
  unfold debounce.
  set (s1 := clear_existing q s) in *.
  set (s2 := setOptimisticVotes _ s1).
  set (s3 := (setTimeout cb 300 s2).2).
  change (tracking u p before st s →
          tracking u p before st (set_voteTimeouts (λ m, <[q:=next_timer s2]> m) s3)).
  apply tracking_same.
  - change (armed p s3 = armed p s). subst s3. rewrite armed_setTimeout.
    change (armed p s2) with (armed p s1). rewrite Hclear, decide_False, app_nil_r; [done|].
    rewrite Hcb. naive_solver.
  - right. left. simpl. rewrite lookup_insert_ne by done.
    change (voteTimeouts s1 !! p = voteTimeouts s !! p). by rewrite Hvt.
  - change (filter (λ c, request_post (call_request c) = p) (inflight s) = [] →
            filter (λ c, request_post (call_request c) = p) (inflight s1) = []).
    by rewrite Hfl.
  - change (snd <$> filter (λ x, request_post x.2 = p) (sent s1) = requests_for p s).
    by rewrite Hsent.
  - change (now s ≤ now s1). lia.
Qed.
End TrackingFacts.

Section BurstFacts.
Import Vote.
Variables (u p : string) (before : list request).

Lemma settle_tracking (st : stage) (s : hook) (k : nat) (c : call)
    (r : awaited (response unit)) :
  find_call k (inflight s) = Some c →
  tracking u p before st s →
  tracking u p before st
    (settle (request_post (call_request c)) r
       (set_inflight (filter (λ c', call_id c' ≠ k) (inflight s)) s)).
Proof.
  intros [Hc _]%find_call_Some Hst.
  set (q := request_post (call_request c)).
  set (s' := set_inflight _ s).
  assert (Hq : q ≠ p ∨ ∃ t kind, st = Submitted t kind).
  { destruct (decide (q = p)) as [Hqp|]; [|by left]. right.
    assert (Hmine : c ∈ inflight_for p s) by by apply list_elem_of_filter.
    destruct st as [|t kind|t kind]; [| |by eauto].
    - destruct Hst as (_ & E & _). rewrite E in Hmine. by apply elem_of_nil in Hmine.
    - destruct Hst as (tm & _ & _ & _ & _ & E & _). rewrite E in Hmine.
      by apply elem_of_nil in Hmine. }
  revert Hst. apply tracking_same.
  - unfold settle.
    destruct r as [resp|]; [destruct (truthy (Response.error resp))|]; try done.
    change (armed p (setTimeout (ClearOptimistic q) 1000 s').2 = armed p s').
    rewrite armed_setTimeout. simpl. by rewrite app_nil_r.
  - destruct Hq as [Hq|Hsub]; [|by right; right]. right. left.
    transitivity (delete q (voteTimeouts s) !! p); [|by rewrite lookup_delete_ne].
    unfold settle.
    by destruct r as [resp|]; [destruct (truthy (Response.error resp))|].
  - intros Hnone.
    transitivity (filter (λ c, request_post (call_request c) = p)
                    (filter (λ c', call_id c' ≠ k) (inflight s))).
    { unfold settle.
      by destruct r as [resp|]; [destruct (truthy (Response.error resp))|]. }
    apply filter_none. intros c' [_ Hc']%list_elem_of_filter Hp.
    assert (Hin : c' ∈ inflight_for p s) by by apply list_elem_of_filter.
    rewrite Hnone in Hin. by apply elem_of_nil in Hin.
  - unfold settle.
    by destruct r as [resp|]; [destruct (truthy (Response.error resp))|].
  - unfold settle.
    by destruct r as [resp|]; [destruct (truthy (Response.error resp))|].
Qed.

(** An event that is neither a tap on the post nor [cleanup] leaves the
    stage as it is. *)
Lemma other_event_tracking (st : stage) (s : hook) (e : event) :
  well_formed s →
  tap_on p e = None → e ≠ CallCleanup →
  tracking u p before st s → tracking u p before st (handle_event s e).
Proof.
  intros Hwf Htap He Hst.
  destruct e as [q v|q|q cur v|q| |k r|]; simpl; try done.
  - unfold tap_on in Htap. simpl in Htap. case_decide as Hq; [done|].
    unfold vote. destruct (negb _); [done|]. by apply debounce_other_tracking.
  - unfold tap_on in Htap. simpl in Htap. case_decide as Hq; [done|].
    unfold removeVote. destruct (negb _); [done|]. by apply debounce_other_tracking.
  - unfold tap_on in Htap. simpl in Htap. case_decide as Hq; [done|].
    unfold toggleVote, vote, removeVote.
    case_decide; (destruct (negb _); [done|]); by apply debounce_other_tracking.
  - destruct (find_call k (inflight s)) as [c|] eqn:E; [|done].
    by apply settle_tracking.
Qed.

(** A tap on the post: the stage becomes pending, with this tap. *)
Lemma tap_tracking (st : stage) (s : hook) (e : event) (kind : option VoteType) :
  userId s = Some u → truthy (Some u) = true →
  tap_on p e = Some kind →
  (st = Untapped ∨ ∃ t' kind', st = Pending t' kind') →
  tracking u p before st s →
  tracking u p before (Pending (now s) kind) (handle_event s e).
Proof.
  intros Hu Hauth Htap Hstage Hst. unfold tap_on in Htap.
  destruct e as [q v|q|q cur v|q| |k r|]; simpl in Htap; try done;
    case_decide as Hq; try done; subst q; injection Htap as <-; cbn [handle_event].
  - unfold vote. rewrite Hu, Hauth.
    exact (debounce_tracking u p before st s (Some v) (Some v) (SubmitVote u p v)
             eq_refl Hstage Hst).
  - unfold removeVote. rewrite Hu, Hauth.
    exact (debounce_tracking u p before st s None None (SubmitRemove u p)
             eq_refl Hstage Hst).
  - unfold toggleVote, vote, removeVote. rewrite Hu, Hauth. case_decide.
    + exact (debounce_tracking u p before st s None None (SubmitRemove u p)
               eq_refl Hstage Hst).
    + exact (debounce_tracking u p before st s (Some v) (Some v) (SubmitVote u p v)
               eq_refl Hstage Hst).
Qed.

Lemma handle_event_frame (s : hook) (e : event) :
  e ≠ CallCleanup →
  now (handle_event s e) = now s ∧ userId (handle_event s e) = userId s.
Proof.
  intros He. destruct e as [q v|q|q cur v|q| |k r|]; simpl; try done.
  - unfold vote, debounce, clear_existing.
    destruct (negb _); [done|]. by destruct (voteTimeouts s !! q).
  - unfold removeVote, debounce, clear_existing.
    destruct (negb _); [done|]. by destruct (voteTimeouts s !! q).
  - unfold toggleVote, vote, removeVote, debounce, clear_existing.
    case_decide; (destruct (negb _); [done|]); by destruct (voteTimeouts s !! q).
  - destruct (find_call k (inflight s)); [|done]. unfold settle.
    by destruct r as [resp|]; [destruct (truthy (Response.error resp))|].
Qed.

Lemma tap_not_cleanup (e : event) (kind : option VoteType) :
  tap_on p e = Some kind → e ≠ CallCleanup.
Proof. by intros Htap ->. Qed.

Lemma stage_tap_after (t : nat) (st : stage) : stage_tap (after t st) = stage_tap st.
Proof. destruct st; simpl; try done. by case_decide. Qed.

(** The stage of the post follows the schedule. *)
Lemma run_tracking (schedule : list (nat * event)) (st : stage) (s : hook) :
  well_formed s → userId s = Some u → truthy (Some u) = true →
  chronological (now s) schedule →
  rapid p (fst <$> stage_tap st) schedule →
  tracking u p before st s →
  ∃ st', tracking u p before st' (run s schedule)
         ∧ well_formed (run s schedule)
         ∧ stage_tap st' = foldl (note p) (stage_tap st) schedule.
Proof.
  revert st s. induction schedule as [|[t e] rest IH];
    intros st s Hwf Hu Hauth Hchron Hrapid Hst; [by exists st|].
  destruct Hchron as [Ht Hchron]. simpl in Hrapid.
  pose proof (advance_wf t s Hwf) as Hwf1.
  pose proof (advance_tracking u p before t st s Hwf Hst) as Hst1.
  pose proof (now_advance t s Ht) as Hnow1.
  assert (Hu1 : userId (advance t s) = Some u) by by rewrite userId_advance.
  assert (Hstep : ∃ st2, tracking u p before st2 (step s (t, e))
                         ∧ stage_tap st2 = note p (stage_tap st) (t, e)
                         ∧ e ≠ CallCleanup
                         ∧ rapid p (fst <$> stage_tap st2) rest).
  { unfold step, note. simpl. destruct (tap_on p e) as [kind|] eqn:Etap.
    - destruct Hrapid as [Hclose Hrapid]. exists (Pending t kind).
      split; [|split; [done|split; [by eapply tap_not_cleanup|done]]].
      rewrite <- Hnow1 at 1. apply (tap_tracking (after t st)); try done.
      destruct st as [|t' kind'|t' kind']; simpl in *.
      + by left.
      + right. rewrite decide_False by lia. eauto.
      + destruct Hst as (_ & _ & Hnow). lia.
    - destruct Hrapid as [He Hrapid]. exists (after t st).
      split; [by apply other_event_tracking|].
      split; [apply stage_tap_after|]. split; [done|]. by rewrite stage_tap_after. }
  destruct Hstep as (st2 & Hst2 & Htap2 & He & Hrapid2).
  destruct (handle_event_frame (advance t s) e He) as [Hnow2 Hu2].
  destruct (IH st2 (step s (t, e))) as (st' & Hst' & Hwf' & Htap'); try done.
  - by apply handle_event_wf.
  - unfold step. simpl. by rewrite Hu2.
  - unfold step. simpl. by rewrite Hnow2, Hnow1.
  - exists st'. split; [done|]. split; [done|]. simpl. by rewrite <- Htap2.
Qed.
End BurstFacts.

(** A tap on a post at rest, followed by 300 ms without another tap on it:
    exactly the call of the tap goes out. *)
Lemma tap_at_rest_submits (h : Vote.hook) (u p : string) (kind o : option VoteType)
    (cb : Vote.callback) (T : nat) :
  Vote.well_formed h → Vote.armed p h = [] → Vote.inflight_for p h = [] →
  Vote.submits cb = Some (Vote.request_for u p kind) →
  Vote.now h + 300 ≤ T →
  Vote.requests_for p (Vote.advance T (Vote.debounce p o cb h))
  = Vote.requests_for p h ++ [Vote.request_for u p kind].
Proof.
  intros Hwf Harmed Hnone Hcb HT.
  assert (Hpost : Vote.callback_post cb = Some p).
  { rewrite callback_post_submits, Hcb. simpl. by rewrite request_for_post. }
  assert (Hrest : Vote.tracking u p (Vote.requests_for p h) Vote.Untapped h) by done.
  pose proof (debounce_tracking u p _ _ h kind o cb Hcb (or_introl eq_refl) Hrest) as Hpend.
  pose proof (advance_tracking u p _ T _ _ (debounce_wf p o cb h Hpost Hwf) Hpend) as Hend.
  simpl in Hend. rewrite decide_True in Hend by done. by destruct Hend as (_ & ? & _).
Qed.


(** ** Toggling *)

(** The hook of a card stays well formed. *)
Lemma card_run_well_formed (post : Post) (u : option string)
    (schedule : list (nat * Card.event)) :
  Vote.well_formed (Card.hook (Card.run (Card.mount post u) schedule)).
Proof.
  unfold Card.run.
  assert (H0 : Vote.well_formed (Card.hook (Card.mount post u))) by apply initial_wf.
  revert H0. generalize (Card.mount post u).
  induction schedule as [|[t e] rest IH]; intros c Hc; [done|].
  cbn [foldl]. apply IH. unfold Card.step. cbn [fst snd].
  pose proof (advance_wf t _ Hc) as Hadv.
  set (h1 := Vote.advance t (Card.hook c)) in *.
  destruct e as [voteType|k r|newPost|]; cbn [Card.handle_event].
  - unfold Card.press, Card.handleVote, Card.currentUserId, Card.set_hook.
    cbn [Card.hook Card.post].
    destruct (Vote.isVoting h1); [done|]. destruct (negb _); [done|].
    case_decide; cbn [Card.hook].
    + by apply (handle_event_wf h1 (Vote.CallRemoveVote _)).
    + by apply (handle_event_wf h1 (Vote.CallVote _ _)).
  - by apply (handle_event_wf h1 (Vote.Settled k r)).
  - unfold Card.rerender, Card.set_hook. cbn [Card.hook Card.post]. by case_decide.
  - done.
Qed.

(** C3: for a signed-in viewer, a tap on the kind that is already the
    effective vote arms (300 ms ahead, registered for the post) the callback
    that submits a removal, and a tap on any other kind, or with no
    effective vote, arms the callback that casts the tapped kind; when the
    armed callback runs it issues exactly that call.  So a tap on a post at
    rest, left alone for 300 ms, results in exactly one call: [removeVote]
    for a tap on the effective kind, [voteOnPost] of the tapped kind
    otherwise.  [toggleVote] given the effective vote does the same. *)
Theorem C3_tap_on_effective_kind_removes (c : Card.card) (u : string)
    (voteType : VoteType) :
  Card.currentUserId c = Some u →
  truthy (Some u) = true →
  let postId := Post.id (Card.post c) in
  let h := Card.hook c in
  let same := bool_decide (Card.effectiveVote c = Some voteType) in
  let cb := if same then Vote.SubmitRemove u postId
            else Vote.SubmitVote u postId voteType in
  let call := if same then Vote.RemoveVote u postId
              else Vote.VoteOnPost u postId voteType in
  let h' := Card.hook (Card.handleVote voteType c) in
  Vote.timers h'
    = Vote.timers (Vote.clear_existing postId h)
      ++ [Vote.Timer (Vote.next_timer h) (Vote.now h + 300) cb]
  ∧ Vote.voteTimeouts h' !! postId = Some (Vote.next_timer h)
  ∧ (∀ s, Vote.sent (Vote.run_callback cb s) = Vote.sent s ++ [(Vote.now s, call)])
  ∧ (∀ T, Vote.well_formed h →
          Vote.armed postId h = [] → Vote.inflight_for postId h = [] →
          Vote.now h + 300 ≤ T →
          Vote.requests_for postId (Vote.advance T h')
          = Vote.requests_for postId h ++ [call])
  ∧ h' = Vote.toggleVote postId (Card.effectiveVote c) voteType h.
Proof.
  intros Hu Hauth postId h same cb call h'.
  unfold Card.currentUserId in Hu. fold h in Hu.
  assert (Hh' : h' = Vote.debounce postId (if same then None else Some voteType) cb h).
  { subst h' same cb. unfold Card.handleVote, Card.currentUserId. fold h.
    rewrite Hu, Hauth. simpl.
    unfold Vote.removeVote, Vote.vote. fold h. rewrite Hu, Hauth. simpl.
    case_decide as E.
    - by rewrite bool_decide_eq_true_2.
    - by rewrite bool_decide_eq_false_2. }
  split; [|split; [|split; [|split]]].
  - rewrite Hh'. unfold Vote.debounce, Vote.clear_existing.
    by destruct (Vote.voteTimeouts h !! postId).
  - rewrite Hh'. unfold Vote.debounce, Vote.clear_existing.
    destruct (Vote.voteTimeouts h !! postId); apply lookup_insert_eq.
  - intros s. subst cb call. by destruct same.
  - intros T Hwf Harmed Hnone HT. rewrite Hh'.
    replace call with (Vote.request_for u postId (if same then None else Some voteType))
      by (subst call; by destruct same).
    apply tap_at_rest_submits; try done. subst cb. by destruct same.
  - subst h' same. unfold Card.handleVote, Vote.toggleVote, Card.currentUserId.
    fold h. rewrite Hu, Hauth. simpl. by case_decide.
Qed.

Lemma C3_tap_on_effective_kind_removes_witness :
  let c := Card.run (Card.mount (Examples.mkpost "P") (Some "u"))
             [(0, Card.Press green); (300, Card.Wait); (400, Card.Settled 0 Examples.ok)] in
  Card.effectiveVote c = Some green
  ∧ Vote.requests_for "P" (Vote.advance 700 (Card.hook (Card.handleVote green c)))
    = [Vote.VoteOnPost "u" "P" green; Vote.RemoveVote "u" "P"].
Proof.
  intros c. split; [by vm_compute|].
  exact (proj1 (proj2 (proj2 (proj2 (C3_tap_on_effective_kind_removes c "u" green
           eq_refl eq_refl)))) 700 (card_run_well_formed _ _ _) eq_refl eq_refl
           (proj1 (Nat.leb_le 700 700) eq_refl)).
Defined.

(** ** Bursts *)

(** C1 (as stated): a burst that overlaps the completion of an earlier
    call is not collapsed into one submission.  A first vote (0 ms) has gone
    out at 300 ms and is in flight.  Then a burst starts on the same post:
    red at 400 ms, green at 600 ms, red at 850 ms, each tap less than 300 ms
    after the one before.  At 800 ms the first call is answered; its
    [finally] block deletes the registration of the timer armed at 600 ms,
    so the tap at 850 ms finds nothing to disarm and the burst sends two
    calls: green (at 900 ms) and red (at 1150 ms). *)
Lemma C1_burst_across_completion_sends_twice :
  let s := Vote.run (Vote.initial (Some "u"))
             [(0, Vote.CallVote "p" green); (300, Vote.Wait)] in
  let burst := [(400, Vote.CallVote "p" red);
                (600, Vote.CallVote "p" green);
                (800, Vote.Settled 0 Examples.ok);
                (850, Vote.CallVote "p" red)] in
  Vote.inflight_for "p" s = [Vote.Call 0 (Vote.VoteOnPost "u" "p" green)]
  ∧ Vote.chronological (Vote.now s) burst
  ∧ Vote.rapid "p" None burst
  ∧ Vote.last_tap "p" burst = Some (850, Some red)
  ∧ Vote.requests_for "p" (Vote.advance 1150 (Vote.run s burst))
    = Vote.requests_for "p" s
      ++ [Vote.VoteOnPost "u" "p" green; Vote.VoteOnPost "u" "p" red]
  ∧ Vote.sent_for "p" (Vote.advance 1150 (Vote.run s burst))
    = [(300, Vote.VoteOnPost "u" "p" green);
       (900, Vote.VoteOnPost "u" "p" green);
       (1150, Vote.VoteOnPost "u" "p" red)].
Proof.
  intros s burst. split; [by vm_compute|]. split; [vm_compute; lia|].
  split; [simpl; repeat split; (lia || done)|].
  split; [by vm_compute|]. split; by vm_compute.
Qed.

(** C1 (amended): a burst that starts while nothing is armed or in flight
    for the post is collapsed into one submission.  Take a signed-in hook in
    which no debounce timer is armed and no call is pending for the post,
    and any chronological schedule of events (taps on this and other posts,
    call completions, waiting; [cleanup] excepted) in which every tap on the
    post comes less than 300 ms after the previous tap on it.  Once 300 ms
    have passed since the last tap, exactly one call has been issued for the
    post on top of those issued before: the call that submits the kind of
    the last tap.  Without a signed-in user a tap does nothing. *)
Theorem C1_burst_from_rest_sends_last_tap (s : Vote.hook) (u p : string)
    (schedule : list (nat * Vote.event)) (tn : nat) (kind : option VoteType)
    (T : nat) :
  Vote.well_formed s →
  Vote.userId s = Some u → truthy (Some u) = true →
  Vote.armed p s = [] → Vote.inflight_for p s = [] →
  Vote.chronological (Vote.now s) schedule →
  Vote.rapid p None schedule →
  Vote.last_tap p schedule = Some (tn, kind) →
  tn + 300 ≤ T →
  Vote.requests_for p (Vote.advance T (Vote.run s schedule))
    = Vote.requests_for p s ++ [Vote.request_for u p kind]
  ∧ (∀ s' q voteType,
       truthy (Vote.userId s') = false →
       Vote.vote q voteType s' = s' ∧ Vote.removeVote q s' = s').
Proof.
  intros Hwf Hu Hauth Harmed Hnone Hchron Hrapid Hlast HT. split.
  - destruct (run_tracking u p (Vote.requests_for p s) schedule Vote.Untapped s)
      as (st' & Hst' & Hwf' & Htap'); try done.
    change (Vote.stage_tap st' = Vote.last_tap p schedule) in Htap'.
    rewrite Hlast in Htap'.
    pose proof (advance_tracking u p _ T st' _ Hwf' Hst') as Hend.
    destruct st' as [|t' kind'|t' kind']; simpl in Htap'; try done;
      injection Htap' as -> ->; simpl in Hend.
    + rewrite decide_True in Hend by done. by destruct Hend as (_ & ? & _).
    + by destruct Hend as (_ & ? & _).
  - intros s' q voteType Hs'. unfold Vote.vote, Vote.removeVote. by rewrite Hs'.
Qed.

Lemma C1_burst_from_rest_sends_last_tap_witness :
  Vote.requests_for "p"
    (Vote.advance 699
       (Vote.run (Vote.initial (Some "u"))
          [(0, Vote.CallVote "p" green); (100, Vote.CallRemoveVote "p");
           (250, Vote.CallVote "q" green); (399, Vote.CallVote "p" red)]))
  = [] ++ [Vote.VoteOnPost "u" "p" red].
Proof.
  refine (proj1 (C1_burst_from_rest_sends_last_tap (Vote.initial (Some "u")) "u" "p"
                   [(0, Vote.CallVote "p" green); (100, Vote.CallRemoveVote "p");
                    (250, Vote.CallVote "q" green); (399, Vote.CallVote "p" red)]
                   399 (Some red) 699 (initial_wf _) eq_refl eq_refl eq_refl eq_refl
                   _ _ eq_refl _)).
  - simpl. lia.
  - simpl. repeat split; (lia || done).
  - lia.
Defined.

(** * Further properties *)

(** ** The feed store: completions, deliveries, patches *)

Section FeedCompletionFacts.
Import Feed.

Lemma step_fetched (s : store) (k : nat) (f : fetch) (r : awaited (response (list Post))) :
  find_fetch k (pending s) = Some f →
  step s (Fetched k r)
  = loadPosts_resume (pageNum f) (replace f) r
      (set_pending (filter (λ f', fetch_id f' ≠ k) (pending s)) s).
Proof. intros Hf. simpl. by rewrite Hf. Qed.

(** The [finally] block on a mounted hook. *)
Lemma loadPosts_finally_mounted (s : store) :
  mounted s = true →
  loadPosts_finally s = setIsLoadingMore false (setIsLoading false s).
Proof. intros Hm. unfold loadPosts_finally. by rewrite Hm. Qed.

Lemma loadPosts_resume_flags pageNum replace r (s : store) :
  mounted s = true →
  let s' := loadPosts_resume pageNum replace r s in
  isLoading s' = false ∧ isLoadingMore s' = false
  ∧ pending s' = pending s ∧ requests s' = requests s
  ∧ userId s' = userId s ∧ mounted s' = true.
Proof.
  intros Hm. unfold loadPosts_resume.
  destruct r as [[newPosts postsError]|]; cbn [Response.data Response.error].
  - rewrite Hm. cbn [negb].
    destruct (truthy postsError).
    + by rewrite loadPosts_finally_mounted.
    + destruct newPosts as [newPosts|].
      * destruct (replace || _); by rewrite loadPosts_finally_mounted.
      * by rewrite loadPosts_finally_mounted.
  - rewrite Hm. by rewrite loadPosts_finally_mounted.
Qed.

End FeedCompletionFacts.

(** X1: a load that fails (an error result or a rejected promise) on a
    mounted hook leaves the list, the page cursor and [hasMore] as they
    were, records the error, and clears both loading flags; when the list
    is not empty the feed goes on showing it, not the error state. *)
Theorem failed_load_keeps_the_list (s : Feed.store) (k : nat) (f : Feed.fetch)
    (r : awaited (response (list Post))) :
  Feed.mounted s = true →
  Feed.find_fetch k (Feed.pending s) = Some f →
  FeedView.fetch_failed r = true →
  let s' := Feed.step s (Feed.Fetched k r) in
  Feed.posts s' = Feed.posts s
  ∧ Feed.page s' = Feed.page s
  ∧ Feed.hasMore s' = Feed.hasMore s
  ∧ Feed.error s'
    = match r with
      | Resolved r => Response.error r
      | Rejected => Some "Failed to load posts"
      end
  ∧ truthy (Feed.error s') = true
  ∧ Feed.isLoading s' = false
  ∧ Feed.isLoadingMore s' = false
  ∧ (Feed.posts s ≠ [] →
     FeedView.PostFeed s' = FeedView.PostList (Feed.posts s) false false false).
Proof.
  intros Hm Hf Hr s'.
  assert (Hs' : s' = Feed.setIsLoadingMore false (Feed.setIsLoading false
            (Feed.setError
               match r with
               | Resolved r => Response.error r
               | Rejected => Some "Failed to load posts"
               end
               (Feed.set_pending (filter (λ f', Feed.fetch_id f' ≠ k) (Feed.pending s)) s)))).
  { subst s'. rewrite (step_fetched s k f r Hf). unfold Feed.loadPosts_resume.
    destruct r as [[newPosts postsError]|]; simpl in Hr |- *.
    - rewrite Hm, Hr. simpl. by rewrite loadPosts_finally_mounted.
    - rewrite Hm. by rewrite loadPosts_finally_mounted. }
  rewrite Hs'. cbn -[truthy]. repeat split.
  - by destruct r as [[newPosts postsError]|].
  - intros Hne. unfold FeedView.PostFeed. cbn -[truthy].
    destruct (Feed.posts s); [done|]. simpl. by rewrite andb_false_r.
Qed.

Lemma failed_load_keeps_the_list_witness :
  let s := Feed.run (Feed.mount (Some "u"))
             [Feed.Fetched 0 (Examples.page Examples.full_page); Feed.LoadMore] in
  Feed.posts (Feed.step s (Feed.Fetched 1 Rejected)) = Examples.full_page.
Proof.
  intros s.
  exact (proj1 (failed_load_keeps_the_list s 1 (Feed.Fetch 1 1 false) Rejected
                  eq_refl eq_refl eq_refl)).
Defined.

Section FeedDeliveryFacts.
Import Feed.

Lemma unmounted_delivery (s : store) (e : event) :
  mounted s = false → realtimeChannel s = false → FeedView.delivery e = true →
  mounted (step s e) = false ∧ realtimeChannel (step s e) = false
  ∧ FeedView.shown (step s e) = FeedView.shown s ∧ requests (step s e) = requests s
  ∧ history (step s e) = history s.
Proof.
  intros Hm Hc He. destruct e as [| | |k r|p|i x|i|]; try done.
  - simpl. destruct (find_fetch k (pending s)) as [f|]; [|done].
    unfold loadPosts_resume, loadPosts_finally.
    destruct r as [[newPosts postsError]|]; simpl; rewrite Hm; simpl; by rewrite Hm.
  - simpl. by rewrite Hc.
Qed.

Lemma unmounted_deliveries (events : list event) (s : store) :
  mounted s = false → realtimeChannel s = false →
  Forall (λ e, FeedView.delivery e = true) events →
  FeedView.shown (run s events) = FeedView.shown s ∧ requests (run s events) = requests s
  ∧ history (run s events) = history s.
Proof.
  unfold run. revert s.
  induction events as [|e events IH]; intros s Hm Hc Hev; [done|].
  inversion_clear Hev as [|? ? He Hev'].
  destruct (unmounted_delivery s e Hm Hc He) as (Hm' & Hc' & Hsh & Hrq & Hh).
  simpl. destruct (IH (step s e) Hm' Hc' Hev') as (-> & -> & ->). done.
Qed.

Lemma prependNew_twice (p : Post) (l : list Post) :
  prependNew Post.id p (prependNew Post.id p l) = prependNew Post.id p l.
Proof.
  apply prependNew_present.
  destruct (decide (Post.id p ∈ Post.id <$> l)) as [Hin|Hout].
  - by rewrite prependNew_present.
  - rewrite prependNew_absent by done. rewrite fmap_cons. apply list_elem_of_here.
Qed.

Lemma prependNew_keeps (p q : Post) (l : list Post) :
  q ∈ l → q ∈ prependNew Post.id p l.
Proof.
  intros Hq. unfold prependNew. destruct (existsb _ l); [done|]. by apply list_elem_of_further.
Qed.

Lemma prependNew_has (p : Post) (l : list Post) :
  Post.id p ∈ Post.id <$> prependNew Post.id p l.
Proof.
  destruct (decide (Post.id p ∈ Post.id <$> l)) as [Hin|Hout].
  - by rewrite prependNew_present.
  - rewrite prependNew_absent by done. rewrite fmap_cons. apply list_elem_of_here.
Qed.

End FeedDeliveryFacts.

(** X2: once the hook is unmounted, nothing the environment still delivers
    (answers to fetches that were in flight, realtime inserts) changes what
    the hook shows ([posts], the loading flags, [error], [hasMore], [page]),
    and no request goes out. *)
Theorem unmounted_hook_ignores_deliveries (s : Feed.store) (events : list Feed.event) :
  Forall (λ e, FeedView.delivery e = true) events →
  let s' := Feed.run (Feed.unmount s) events in
  Feed.posts s' = Feed.posts s
  ∧ Feed.isLoading s' = Feed.isLoading s
  ∧ Feed.isLoadingMore s' = Feed.isLoadingMore s
  ∧ Feed.error s' = Feed.error s
  ∧ Feed.hasMore s' = Feed.hasMore s
  ∧ Feed.page s' = Feed.page s
  ∧ Feed.requests s' = Feed.requests s.
Proof.
  intros Hev s'.
  destruct (unmounted_deliveries events (Feed.unmount s) eq_refl eq_refl Hev)
    as (Hsh & Hrq & _).
  fold s' in Hsh, Hrq. unfold FeedView.shown in Hsh. simpl in Hsh.
  injection Hsh as -> -> -> -> -> ->. by rewrite Hrq.
Qed.

Lemma unmounted_hook_ignores_deliveries_witness :
  let s := Feed.mount (Some "u") in
  Feed.posts (Feed.run (Feed.unmount s)
                [Feed.Fetched 0 (Examples.page Examples.full_page);
                 Feed.NewPost (Examples.mkpost "N")]) = []
  ∧ Feed.isLoading (Feed.run (Feed.unmount s)
                [Feed.Fetched 0 (Examples.page Examples.full_page);
                 Feed.NewPost (Examples.mkpost "N")]) = true.
Proof.
  intros s.
  pose proof (unmounted_hook_ignores_deliveries s
                [Feed.Fetched 0 (Examples.page Examples.full_page);
                 Feed.NewPost (Examples.mkpost "N")]
                ltac:(repeat constructor))
    as (H1 & H2 & _).
  exact (conj H1 H2).
Defined.

(** X3: whichever load completes on a mounted hook, and however it ends, the
    [finally] block clears [isLoading] and [isLoadingMore] together, also
    while other loads are still pending.  So if [hasMore] holds afterwards,
    the feed's end-reached handler is not held back: it issues the request
    for the page after the cursor. *)
Theorem completion_clears_both_flags (s : Feed.store) (k : nat) (f : Feed.fetch)
    (r : awaited (response (list Post))) :
  Feed.mounted s = true →
  Feed.find_fetch k (Feed.pending s) = Some f →
  let s' := Feed.step s (Feed.Fetched k r) in
  Feed.isLoading s' = false
  ∧ Feed.isLoadingMore s' = false
  ∧ Feed.pending s' = filter (λ f', Feed.fetch_id f' ≠ k) (Feed.pending s)
  ∧ (Feed.hasMore s' = true →
     Feed.requests (Feed.handleEndReached s')
     = Feed.requests s ++ [(Feed.userId s, 20, (Feed.page s' + 1) * 20)]).
Proof.
  intros Hm Hf s'. subst s'. rewrite (step_fetched s k f r Hf).
  destruct (loadPosts_resume_flags (Feed.pageNum f) (Feed.replace f) r
              (Feed.set_pending (filter (λ f', Feed.fetch_id f' ≠ k) (Feed.pending s)) s) Hm)
    as (Hl & Hlm & Hp & Hrq & Hu & _).
  split; [done|]. split; [done|]. split; [done|].
  intros Hmore. unfold Feed.handleEndReached, Feed.loadMore.
  rewrite Hl, Hlm, Hmore. cbn [andb negb orb]. unfold Feed.loadPosts.
  rewrite Nat.add_1_r. cbn [Nat.eqb]. cbn [Feed.call_getPosts Feed.requests Feed.userId Feed.setIsLoadingMore].
  by rewrite Hrq, Hu.
Qed.

Lemma completion_clears_both_flags_witness :
  let s := Feed.run (Feed.mount (Some "u"))
             [Feed.Fetched 0 (Examples.page Examples.full_page);
              Feed.LoadMore; Feed.Refresh] in
  let s' := Feed.step s (Feed.Fetched 2 (Examples.page Examples.full_page)) in
  Feed.pending s' = [Feed.Fetch 1 1 false]
  ∧ Feed.isLoadingMore s' = false
  ∧ Feed.requests (Feed.handleEndReached s')
    = [(Some "u", 20, 0); (Some "u", 20, 20); (Some "u", 20, 0); (Some "u", 20, 20)].
Proof.
  intros s s'.
  pose proof (completion_clears_both_flags s 2 (Feed.Fetch 2 0 true)
                (Examples.page Examples.full_page) eq_refl eq_refl)
    as (_ & H2 & H3 & H4).
  exact (conj H3 (conj H2 (H4 eq_refl))).
Defined.

(** X4: a realtime insert is idempotent and loses nothing: delivering the
    same post a second time leaves the list as the first delivery left it,
    every post that was in the list is still in it, and on a subscribed,
    mounted hook the delivered id is in the list afterwards (at the front,
    if it was not there before). *)
Theorem realtime_insert_is_idempotent (s : Feed.store) (p : Post) :
  let s1 := Feed.step s (Feed.NewPost p) in
  Feed.posts (Feed.step s1 (Feed.NewPost p)) = Feed.posts s1
  ∧ (∀ q, q ∈ Feed.posts s → q ∈ Feed.posts s1)
  ∧ (Feed.realtimeChannel s = true → Feed.mounted s = true →
     Post.id p ∈ Post.id <$> Feed.posts s1
     ∧ (Post.id p ∉ Post.id <$> Feed.posts s → Feed.posts s1 = p :: Feed.posts s)).
Proof.
  intros s1. subst s1. simpl. unfold Feed.handleNewPost.
  destruct (Feed.realtimeChannel s) eqn:Hc; [|by rewrite Hc].
  destruct (Feed.mounted s) eqn:Hm; simpl; [|by rewrite Hc, Hm].
  rewrite Hc, Hm. simpl. split; [apply prependNew_twice|]. split.
  - intros q. apply prependNew_keeps.
  - intros _ _. split; [apply prependNew_has|]. apply prependNew_absent.
Qed.

(** X5: [updatePost] and [removePost] touch only the posts with the given
    id.  A patch that carries no id keeps the ids of the list, in order; a
    patch or a removal for an id that is not in the list changes nothing;
    a post with another id stays at its index under a patch; and after a
    removal the list holds exactly the posts of other ids, in their
    order. *)
Theorem patch_and_removal_are_local (s : Feed.store) (postId : string)
    (updates : Feed.partial) :
  let patched := Feed.posts (Feed.updatePost postId updates s) in
  let removed := Feed.posts (Feed.removePost postId s) in
  (Feed.p_id updates = None → Post.id <$> patched = Post.id <$> Feed.posts s)
  ∧ length patched = length (Feed.posts s)
  ∧ (∀ i p, Feed.posts s !! i = Some p → Post.id p ≠ postId → patched !! i = Some p)
  ∧ (postId ∉ Post.id <$> Feed.posts s → patched = Feed.posts s ∧ removed = Feed.posts s)
  ∧ (∀ p, p ∈ removed ↔ p ∈ Feed.posts s ∧ Post.id p ≠ postId)
  ∧ removed `sublist_of` Feed.posts s
  ∧ postId ∉ Post.id <$> removed.
Proof.
  intros patched removed. subst patched removed. simpl. unfold Feed.dropPost.
  split; [|split; [|split; [|split; [|split; [|split]]]]].
  - intros Hid. rewrite <- list_fmap_compose. apply list_fmap_ext.
    intros i p _. simpl. case_decide; [|done]. unfold Feed.spread. simpl. by rewrite Hid.
  - by rewrite length_fmap.
  - intros i p Hi Hp. rewrite list_lookup_fmap, Hi. simpl. by rewrite decide_False.
  - intros Hout. split.
    + rewrite <- (list_fmap_id (Feed.posts s)) at 2. apply list_fmap_ext.
      intros i p Hi. simpl. case_decide as E; [|done].
      exfalso. apply Hout. rewrite <- E. apply list_elem_of_fmap_2.
      by eapply list_elem_of_lookup_2.
    + apply filter_all. intros p Hp E. apply Hout. rewrite <- E.
      by apply list_elem_of_fmap_2.
  - intros p. by rewrite list_elem_of_filter, (comm and).
  - apply sublist_filter.
  - intros (p & E & Hp%list_elem_of_filter)%list_elem_of_fmap. by destruct Hp.
Qed.

Section FeedRequestFacts.
Import Feed.

Lemma loadPosts_requests (pageNum : nat) (replace : bool) (s : store) :
  requests (loadPosts pageNum replace s) = requests s ++ [(userId s, 20, pageNum * 20)]
  ∧ userId (loadPosts pageNum replace s) = userId s
  ∧ realtimeChannel (loadPosts pageNum replace s) = realtimeChannel s.
Proof. unfold loadPosts. by destruct (pageNum =? 0)%nat. Qed.

Lemma loadPosts_resume_frame (pageNum : nat) (replace : bool)
    (r : awaited (response (list Post))) (s : store) :
  let s' := loadPosts_resume pageNum replace r s in
  requests s' = requests s ∧ userId s' = userId s
  ∧ realtimeChannel s' = realtimeChannel s.
Proof.
  unfold loadPosts_resume, loadPosts_finally.
  destruct r as [[newPosts postsError]|]; cbn [Response.data Response.error].
  - destruct (mounted s) eqn:Hm; cbn [negb]; [|by rewrite Hm].
    destruct (truthy postsError); [by cbn; rewrite Hm|].
    destruct newPosts as [newPosts|]; [|by rewrite Hm].
    destruct (replace || _); by cbn; rewrite Hm.
  - destruct (mounted s) eqn:Hm; [|by rewrite Hm]. by cbn; rewrite Hm.
Qed.

Lemma step_requests (u : option string) (s : store) (e : event) :
  userId s = u → Forall (FeedView.page_request u) (requests s) →
  userId (step s e) = u ∧ Forall (FeedView.page_request u) (requests (step s e)).
Proof.
  intros Hu Hrq.
  assert (Hload : ∀ n b, userId (loadPosts n b s) = u
                         ∧ Forall (FeedView.page_request u) (requests (loadPosts n b s))).
  { intros n b. destruct (loadPosts_requests n b s) as (-> & -> & _).
    split; [done|]. apply Forall_app. split; [done|].
    apply Forall_singleton. repeat split; [done|]. by exists n. }
  destruct e as [| | |k r|p|i x|i|]; cbn [step]; try done.
  - apply Hload.
  - unfold loadMore. destruct (_ || _); [done|]. apply Hload.
  - unfold handleEndReached, loadMore. destruct (_ && _); [|done].
    destruct (_ || _); [done|]. apply Hload.
  - destruct (find_fetch k (pending s)) as [f|]; [|done].
    match goal with |- context [loadPosts_resume ?a ?b ?c ?d] =>
      destruct (loadPosts_resume_frame a b c d) as (-> & -> & _) end.
    done.
  - destruct (realtimeChannel s); [|done]. unfold handleNewPost.
    by destruct (mounted s).
Qed.

End FeedRequestFacts.

(** X6: every [getPosts] call the hook ever issues, from its mount on and
    whatever happens to it, is made for the hook's own user, asks for
    twenty posts, and starts at a multiple of twenty. *)
Theorem every_request_is_a_page_request (u : option string) (events : list Feed.event) :
  Forall (FeedView.page_request u) (Feed.requests (Feed.run (Feed.mount u) events)).
Proof.
  assert (Hrun : ∀ s, Feed.userId s = u →
            Forall (FeedView.page_request u) (Feed.requests s) →
            Forall (FeedView.page_request u) (Feed.requests (Feed.run s events))).
  { unfold Feed.run. induction events as [|e events IH]; intros s Hu Hrq; [done|].
    simpl. destruct (step_requests u s e Hu Hrq). by apply IH. }
  apply Hrun.
  - unfold Feed.mount. by destruct (truthy u).
  - assert (Hrq : Feed.requests (Feed.mount u) = [(u, 20, 0)]).
    { unfold Feed.mount. by destruct (truthy u). }
    rewrite Hrq. apply Forall_singleton. repeat split. by exists 0.
Qed.

Section SignedOutFeedFacts.
Import Feed.

Lemma signed_out_step (s : store) (e : event) :
  realtimeChannel s = false →
  Forall (λ u, FeedView.from_fetch_or_caller u = true) (history s) →
  realtimeChannel (step s e) = false
  ∧ Forall (λ u, FeedView.from_fetch_or_caller u = true) (history (step s e)).
Proof.
  intros Hc Hh. split.
  - destruct e as [| | |k r|p|i x|i|]; cbn [step]; try done.
    + unfold loadMore. destruct (_ || _); [done|].
      by destruct (loadPosts_requests (page s + 1) false s) as (_ & _ & ->).
    + unfold handleEndReached, loadMore. destruct (_ && _); [|done].
      destruct (_ || _); [done|].
      by destruct (loadPosts_requests (page s + 1) false s) as (_ & _ & ->).
    + destruct (find_fetch k (pending s)) as [f|]; [|done].
      match goal with |- context [loadPosts_resume ?a ?b ?c ?d] =>
        destruct (loadPosts_resume_frame a b c d) as (_ & _ & ->) end.
      done.
    + by rewrite Hc.
  - assert (Hne : (∃ p, e = NewPost p) ∨ ∀ p, e ≠ NewPost p).
    { destruct e; try (by right); left; by eexists. }
    destruct Hne as [[p ->]|Hne].
    { cbn [step]. by rewrite Hc. }
    destruct (step_update s e) as [[_ ->]|(u & Hu & _ & ->)]; [done|].
    apply Forall_app. split; [done|]. apply Forall_singleton.
    destruct u as [new|new|p'|i' x'|i']; try done.
    destruct e as [| | |k [r|]|p|i x|i|]; try done.
    by destruct (Hne p).
Qed.

Lemma paginated_update (u : update) (l : list (origin * Post)) :
  FeedView.from_fetch_or_caller u = true →
  Forall (λ x, x.1 = Paginated) l →
  Forall (λ x, x.1 = Paginated) (setPosts_origin u l).
Proof.
  intros Hu Hl. destruct u as [new|new|p|i x|i]; simpl; try done.
  - apply Forall_fmap, Forall_forall. done.
  - unfold appendUnique. apply Forall_app. split; [done|].
    apply Forall_kept, Forall_fmap, Forall_forall. done.
  - apply Forall_fmap. eapply Forall_impl; [exact Hl|].
    intros [o p] Ho. simpl. by case_decide.
  - by apply Forall_kept.
Qed.

Lemma paginated_provenance (us : list update) :
  Forall (λ u, FeedView.from_fetch_or_caller u = true) us →
  Forall (λ x, x.1 = Paginated) (provenance us).
Proof.
  induction us as [|u us IH] using rev_ind; intros Hus; [constructor|].
  apply Forall_app in Hus as [Hus Hu]. rewrite Forall_singleton in Hu.
  rewrite provenance_snoc. apply paginated_update; [done|]. by apply IH.
Qed.

End SignedOutFeedFacts.

(** X7: for a signed-out viewer the hook opens no realtime channel, so along
    every run from the mount a realtime insert changes nothing, and every
    entry of the list came in by a page fetch. *)
Theorem signed_out_feed_is_paginated_only (u : option string) (events : list Feed.event) :
  truthy u = false →
  let s := Feed.run (Feed.mount u) events in
  Feed.realtimeChannel s = false
  ∧ (∀ p, Feed.step s (Feed.NewPost p) = s)
  ∧ Feed.posts s = snd <$> Feed.provenance (Feed.history s)
  ∧ Forall (λ x, x.1 = Feed.Paginated) (Feed.provenance (Feed.history s)).
Proof.
  intros Hu s.
  assert (Hrun : ∀ s0, Feed.realtimeChannel s0 = false →
            Forall (λ u, FeedView.from_fetch_or_caller u = true) (Feed.history s0) →
            Feed.realtimeChannel (Feed.run s0 events) = false
            ∧ Forall (λ u, FeedView.from_fetch_or_caller u = true)
                (Feed.history (Feed.run s0 events))).
  { unfold Feed.run. induction events as [|e events IH]; intros s0 Hc Hh; [done|].
    simpl. destruct (signed_out_step s0 e Hc Hh). by apply IH. }
  destruct (Hrun (Feed.mount u)) as [Hc Hh].
  { unfold Feed.mount. by rewrite Hu. }
  { unfold Feed.mount. rewrite Hu. constructor. }
  fold s in Hc, Hh. split; [done|]. split; [|split].
  - intros p. cbn [Feed.step]. by rewrite Hc.
  - apply run_replayed, mount_replayed.
  - by apply paginated_provenance.
Qed.

Lemma signed_out_feed_is_paginated_only_witness :
  let s := Feed.run (Feed.mount None)
             [Feed.NewPost (Examples.mkpost "N");
              Feed.Fetched 0 (Examples.page [Examples.mkpost "A"])] in
  Feed.realtimeChannel s = false ∧ Feed.posts s = [Examples.mkpost "A"].
Proof.
  intros s.
  pose proof (signed_out_feed_is_paginated_only None
                [Feed.NewPost (Examples.mkpost "N");
                 Feed.Fetched 0 (Examples.page [Examples.mkpost "A"])] eq_refl)
    as (H1 & _).
  exact (conj H1 eq_refl).
Defined.

(** ** The feed hook against a backend that serves an unchanging table *)

Section PaginationFacts.
Import Feed.

Context (db : Gateway.backend) (rows : list Gateway.post_row).
Hypothesis Hserves : Session.serves rows db.

(** Against such a backend [getPosts] returns one post per row of the
    slice, with the row's id, and no error. *)
Lemma getPosts_slice (u : option string) (limit offset : nat) :
  ∃ page,
    Gateway.getPosts db u limit offset = Response.mk (Some page) None
    ∧ Post.id <$> page = Gateway.row_id <$> take limit (drop offset rows).
Proof.
  destruct Hserves as (Hposts & Hvotes & Huser).
  unfold Gateway.getPosts. rewrite Hposts. cbn.
  destruct (take limit (drop offset rows)) as [|row slice] eqn:E.
  { by exists []. }
  destruct (Gateway.select_votes db _) as [qv|] eqn:Ev; [|by apply Hvotes in Ev].
  destruct (truthy u).
  - destruct (Gateway.select_user_votes db _ _) as [qu|] eqn:Eu; [|by apply Huser in Eu].
    eexists. split; [done|].
    rewrite <- list_fmap_compose. by apply list_fmap_ext.
  - eexists. split; [done|].
    rewrite <- list_fmap_compose. by apply list_fmap_ext.
Qed.

Lemma open_loaded (u : option string) : Session.loaded rows u 0 (Session.open db u).
Proof.
  destruct (getPosts_slice u 20 0) as (page & Hget & Hids).
  assert (Hlen : length page = length (take 20 rows)).
  { rewrite drop_0 in Hids. apply (f_equal length) in Hids. by rewrite !length_fmap in Hids. }
  unfold Session.open, Session.answer, mount.
  destruct (truthy u); cbn -[Gateway.getPosts take]; unfold pageSize;
    rewrite Hget; unfold Session.loaded; cbn -[take]; (repeat split; try done);
    try (by rewrite Hids, drop_0);
    rewrite Hlen, length_take; unfold pageSize;
    destruct (Nat.eqb_spec (20 `min` length rows) 20); lia.
Qed.

Lemma scroll_loaded (u : option string) (n : nat) (s : store) :
  NoDup (Gateway.row_id <$> rows) →
  Session.loaded rows u n s → Session.loaded rows u (S n) (Session.scroll db s).
Proof.
  intros Hnd (Hm & Hp & Hl & Hlm & Hu & He & Hids & Hmore).
  destruct s as [uid ps il ilm err hm pg mt rc pend nf rq hist].
  cbn [mounted pending isLoading isLoadingMore userId error posts hasMore page] in *.
  subst mt pend il ilm uid err.
  unfold Session.scroll, handleEndReached. cbn [hasMore isLoading isLoadingMore].
  destruct hm; cbn [andb negb].
  - destruct Hmore as [-> Hlen].
    unfold loadMore. cbn [hasMore isLoadingMore orb negb page]. unfold loadPosts.
    rewrite Nat.add_1_r. cbn [Nat.eqb].
    unfold Session.answer, call_getPosts, setIsLoadingMore.
    cbn [pending app fetch_id pageNum userId].
    destruct (getPosts_slice u pageSize (S n * pageSize)) as (page & -> & Hpids).
    cbn [step pending find_fetch List.find fetch_id]. rewrite Nat.eqb_refl.
    cbn [filter list_filter fetch_id pageNum replace].
    rewrite decide_False by (intros E; by apply E).
    assert (Hfresh : filter (λ p, Post.id p ∉ list_to_set (C:=gset string) (Post.id <$> ps)) page
                     = page).
    { apply filter_all. intros p Hp' Hin%elem_of_list_to_set.
      rewrite Hids in Hin. apply (list_elem_of_fmap_2 Post.id) in Hp'.
      rewrite Hpids in Hp'.
      rewrite <- (take_drop ((n + 1) * 20) rows), fmap_app in Hnd.
      apply NoDup_app in Hnd as (_ & Hdis & _).
      apply (Hdis (Post.id p)); [done|].
      rewrite Nat.add_1_r. unfold pageSize in Hp'.
      eapply list_elem_of_fmap in Hp' as (row & -> & Hrow).
      apply list_elem_of_fmap_2. by eapply subseteq_take. }
    assert (Hplen : length page = 20 `min` (length rows - S n * 20)).
    { apply (f_equal length) in Hpids. rewrite !length_fmap in Hpids.
      rewrite Hpids. unfold pageSize. by rewrite length_take, length_drop. }
    unfold Session.loaded, loadPosts_resume.
    cbn -[take drop Nat.eqb Nat.mul appendUnique].
    change (S n =? 0)%nat with false. cbn -[take drop Nat.eqb Nat.mul appendUnique].
    repeat split; try done.
    + unfold appendUnique. rewrite Hfresh, fmap_app, Hids, Hpids.
      rewrite <- fmap_app. f_equal. unfold pageSize.
      rewrite Nat.add_1_r. rewrite take_take_drop. f_equal. lia.
    + rewrite Hplen. unfold pageSize.
      destruct (Nat.eqb_spec (20 `min` (length rows - S n * 20)) 20); [split; [done|]|]; lia.
  - unfold Session.answer. cbn [pending].
    repeat split; try done.
    + cbn [posts]. rewrite Hids. by rewrite !take_ge by lia.
    + cbn [hasMore]. lia.
Qed.

End PaginationFacts.

(** X8: against a backend that serves slices of an unchanging table whose
    ids are distinct, opening the feed and scrolling to the end [n] times,
    each load being answered before the next scroll, leaves in the list the
    first [20 * (n + 1)] rows of the table, in the table's order, and all of
    the table once that many rows cover it; no error is set and no load is
    pending. *)
Theorem scrolling_loads_the_table_in_order
    (db : Gateway.backend) (rows : list Gateway.post_row) (u : option string) (n : nat) :
  Session.serves rows db →
  NoDup (Gateway.row_id <$> rows) →
  let s := Nat.iter n (Session.scroll db) (Session.open db u) in
  Post.id <$> Feed.posts s = Gateway.row_id <$> take (20 * (n + 1)) rows
  ∧ (length rows ≤ 20 * (n + 1) → Post.id <$> Feed.posts s = Gateway.row_id <$> rows)
  ∧ Feed.error s = None
  ∧ Feed.pending s = []
  ∧ (Feed.hasMore s = true → 20 * (n + 1) ≤ length rows).
Proof.
  intros Hserves Hnd s.
  assert (Hs : Session.loaded rows u n s).
  { subst s. induction n as [|n IH]; simpl.
    - by apply open_loaded.
    - by apply scroll_loaded. }
  destruct Hs as (_ & Hp & _ & _ & _ & He & Hids & Hmore).
  rewrite (Nat.mul_comm 20). split; [done|]. split.
  - intros Hlen. by rewrite Hids, take_ge by lia.
  - split; [done|]. split; [done|]. intros Hh. rewrite Hh in Hmore. lia.
Qed.

Lemma scrolling_loads_the_table_in_order_witness :
  Post.id <$> Feed.posts (Nat.iter 1 (Session.scroll Session.example_table)
                            (Session.open Session.example_table (Some "u")))
  = ["A"; "B"].
Proof.
  assert (Hserves : Session.serves
            [Gateway.PostRow "A" "u1" "a.png" None None (Some true) "t2" None;
             Gateway.PostRow "B" "u2" "b.png" None None None "t1" None]
            Session.example_table)
    by (split; [|split]; [reflexivity|discriminate|discriminate]).
  assert (Hnd : NoDup (Gateway.row_id <$>
            [Gateway.PostRow "A" "u1" "a.png" None None (Some true) "t2" None;
             Gateway.PostRow "B" "u2" "b.png" None None None "t1" None]))
    by (apply (bool_decide_unpack _); vm_compute; exact I).
  pose proof (scrolling_loads_the_table_in_order Session.example_table _ (Some "u") 1
                Hserves Hnd) as [H _].
  exact H.
Defined.


(** ** The vote hook: signed-out viewers, provenance of calls, cleanup *)

Section SignedOutVoteFacts.
Import Vote.

Lemma advance_no_timers (t : nat) (s : hook) :
  timers s = [] → advance t s = set_now (now s `max` t) s.
Proof. intros Ht. unfold advance. by rewrite Ht. Qed.

(** A hook without a user stays as it was created, but for the clock. *)
Lemma signed_out_hook_step (u : option string) (t0 : nat) (te : nat * event) :
  truthy u = false →
  ∃ t1, step (set_now t0 (initial u)) te = set_now t1 (initial u).
Proof.
  intros Hu. destruct te as [t e]. unfold step. cbn [fst snd].
  rewrite advance_no_timers by done. exists (t0 `max` t).
  destruct e as [q v|q|q cur v|q| |k r|]; cbn [handle_event].
  - unfold vote. cbn [userId set_now initial]. by rewrite Hu.
  - unfold removeVote. cbn [userId set_now initial]. by rewrite Hu.
  - unfold toggleVote, vote, removeVote. cbn [userId set_now initial]. rewrite Hu.
    by case_decide.
  - unfold clearOptimisticVote, setOptimisticVotes. cbn. by rewrite delete_empty.
  - unfold cleanup. cbn. by rewrite map_to_list_empty.
  - done.
  - done.
Qed.

Lemma signed_out_hook_run (u : option string) (schedule : list (nat * event)) (t0 : nat) :
  truthy u = false →
  ∃ t1, run (set_now t0 (initial u)) schedule = set_now t1 (initial u).
Proof.
  intros Hu. unfold run. revert t0.
  induction schedule as [|te schedule IH]; intros t0; [by exists t0|].
  destruct (signed_out_hook_step u t0 te Hu) as [t1 Hstep].
  simpl. fold (step (set_now t0 (initial u)) te). rewrite Hstep. apply IH.
Qed.

End SignedOutVoteFacts.

(** X9: a hook created without a user never does anything: whatever is
    called on it and whenever, no call is sent, no timer is armed, no
    optimistic entry is set, [isVoting] stays false, and
    [getEffectiveVote] returns the server vote it is given. *)
Theorem signed_out_hook_never_submits (u : option string)
    (schedule : list (nat * Vote.event)) :
  truthy u = false →
  let s := Vote.run (Vote.initial u) schedule in
  Vote.sent s = []
  ∧ Vote.timers s = []
  ∧ Vote.inflight s = []
  ∧ Vote.optimisticVotes s = ∅
  ∧ Vote.isVoting s = false
  ∧ ∀ postId serverVote, Vote.getEffectiveVote postId serverVote s = serverVote.
Proof.
  intros Hu s. destruct (signed_out_hook_run u schedule 0 Hu) as [t1 Hs].
  change (Vote.set_now 0 (Vote.initial u)) with (Vote.initial u) in Hs.
  fold s in Hs. by rewrite Hs.
Qed.

Lemma signed_out_hook_never_submits_witness :
  Vote.sent (Vote.run (Vote.initial None)
               [(0, Vote.CallVote "P" green); (500, Vote.CallRemoveVote "P");
                (1000, Vote.Wait)]) = [].
Proof.
  exact (proj1 (signed_out_hook_never_submits None
                  [(0, Vote.CallVote "P" green); (500, Vote.CallRemoveVote "P");
                   (1000, Vote.Wait)] eq_refl)).
Defined.

(** ** The card: signed-out viewers, counts, the voting flag *)

Section SignedOutCardFacts.
Import Card.

Lemma signed_out_card_step (u : option string) (c : card) (te : nat * event) :
  truthy u = false →
  (∃ t, hook c = Vote.set_now t (Vote.initial u)) →
  (∃ t, hook (step c te) = Vote.set_now t (Vote.initial u))
  ∧ alerts (step c te)
    = alerts c ++ (if CardView.is_press te.2 then [CardView.login_required] else []).
Proof.
  intros Hu [t0 Hc]. destruct te as [t e]. unfold step. cbn [fst snd].
  rewrite Hc. rewrite advance_no_timers by done.
  destruct e as [v|k r|newPost|]; cbn [handle_event CardView.is_press].
  - unfold press. cbn. unfold handleVote, currentUserId. cbn. rewrite Hu. cbn.
    split; [|done]. by eexists.
  - cbn. rewrite app_nil_r. split; [|done]. by eexists.
  - unfold rerender. cbn. rewrite app_nil_r. case_decide; (split; [|done]); by eexists.
  - cbn. rewrite app_nil_r. split; [|done]. by eexists.
Qed.

End SignedOutCardFacts.

(** X10: on the card of a viewer who is not signed in every press of a vote
    button raises the "Login Required" alert and nothing else happens: no
    call is ever sent, and the card shows the vote and the counts of its
    [post] prop. *)
Theorem signed_out_card_only_alerts (post : Post) (u : option string)
    (schedule : list (nat * Card.event)) :
  truthy u = false →
  let c := Card.run (Card.mount post u) schedule in
  Vote.sent (Card.hook c) = []
  ∧ Card.alerts c
    = (λ _, CardView.login_required) <$> filter (λ te, CardView.is_press te.2 = true) schedule
  ∧ Card.display c
    = (Post.user_vote (Card.post c),
       default 0%Z (Post.green_votes (Card.post c)),
       default 0%Z (Post.red_votes (Card.post c))).
Proof.
  intros Hu c.
  assert (Hrun : ∀ c0, (∃ t, Card.hook c0 = Vote.set_now t (Vote.initial u)) →
            (∃ t, Card.hook (Card.run c0 schedule) = Vote.set_now t (Vote.initial u))
            ∧ Card.alerts (Card.run c0 schedule)
              = Card.alerts c0
                ++ ((λ _, CardView.login_required)
                      <$> filter (λ te, CardView.is_press te.2 = true) schedule)).
  { unfold Card.run. induction schedule as [|te schedule IH]; intros c0 Hc0.
    - simpl. by rewrite app_nil_r.
    - destruct (signed_out_card_step u c0 te Hu Hc0) as [Hh Ha].
      simpl. destruct (IH (Card.step c0 te) Hh) as [Hh' Ha'].
      split; [done|]. rewrite Ha', Ha, <- app_assoc. f_equal.
      rewrite filter_cons. destruct (CardView.is_press te.2).
      + by rewrite decide_True.
      + by rewrite decide_False. }
  destruct (Hrun (Card.mount post u)) as [[t Hh] Ha]; [by exists 0|].
  fold c in Hh, Ha. split; [by rewrite Hh|]. split; [done|].
  unfold Card.display, Card.greenCount, Card.redCount, Card.effectiveVote,
    Vote.getEffectiveVote.
  rewrite Hh. cbn [Vote.optimisticVotes Vote.set_now Vote.initial].
  rewrite lookup_empty.
  destruct (Post.user_vote (Card.post c)) as [[|]|]; by simpl; rewrite ?Z.sub_0_r.
Qed.

Lemma signed_out_card_only_alerts_witness :
  Card.alerts (Card.run (Card.mount (Examples.mkpost "P") None)
                 [(0, Card.Press green); (100, Card.Wait); (200, Card.Press red)])
  = [CardView.login_required; CardView.login_required].
Proof.
  exact (proj1 (proj2 (signed_out_card_only_alerts (Examples.mkpost "P") None
                  [(0, Card.Press green); (100, Card.Wait); (200, Card.Press red)]
                  eq_refl))).
Defined.

(** X11: the counts a card shows are the votes of the other users plus the
    viewer's effective vote: the server's count less the viewer's vote as
    the server knew it, plus one for the kind the viewer's effective vote
    has.  So with no optimistic entry the card shows the server's counts;
    the two counts together are the others' votes plus one if the viewer
    has an effective vote; and a count is negative only if the server's
    count did not include the vote it reported for the viewer. *)
Theorem displayed_counts_replace_the_viewers_vote (c : Card.card) :
  let post := Card.post c in
  let server kind :=
    default 0%Z (match kind with
                 | green => Post.green_votes post
                 | red => Post.red_votes post
                 end) in
  Card.greenCount c
  = (CardView.others green post + CardView.one_if (Card.effectiveVote c) green)%Z
  ∧ Card.redCount c
    = (CardView.others red post + CardView.one_if (Card.effectiveVote c) red)%Z
  ∧ (Card.greenCount c + Card.redCount c
     = CardView.others green post + CardView.others red post
       + (if Card.effectiveVote c is Some _ then 1 else 0))%Z
  ∧ (Vote.optimisticVotes (Card.hook c) !! Post.id post = None →
     Card.greenCount c = server green ∧ Card.redCount c = server red)
  ∧ ((0 ≤ CardView.others green post)%Z → (0 ≤ Card.greenCount c)%Z)
  ∧ ((0 ≤ CardView.others red post)%Z → (0 ≤ Card.redCount c)%Z).
Proof.
  intros post server.
  assert (Hg : Card.greenCount c
               = (CardView.others green post + CardView.one_if (Card.effectiveVote c) green)%Z).
  { unfold Card.greenCount, CardView.others, CardView.one_if. fold post.
    destruct (Post.user_vote post) as [[|]|], (Card.effectiveVote c) as [[|]|];
      repeat case_bool_decide; try done; cbn; lia. }
  assert (Hr : Card.redCount c
               = (CardView.others red post + CardView.one_if (Card.effectiveVote c) red)%Z).
  { unfold Card.redCount, CardView.others, CardView.one_if. fold post.
    destruct (Post.user_vote post) as [[|]|], (Card.effectiveVote c) as [[|]|];
      repeat case_bool_decide; try done; cbn; lia. }
  split; [done|]. split; [done|]. split; [|split; [|split]].
  - rewrite Hg, Hr. unfold CardView.one_if.
    destruct (Card.effectiveVote c) as [[|]|]; repeat case_bool_decide; try done; lia.
  - intros Hopt. rewrite Hg, Hr.
    unfold Card.effectiveVote, Vote.getEffectiveVote. fold post. rewrite Hopt.
    unfold CardView.others, CardView.one_if, server.
    destruct (Post.user_vote post) as [[|]|]; repeat case_bool_decide; try done; cbn; lia.
  - rewrite Hg. unfold CardView.one_if. case_bool_decide; lia.
  - rewrite Hr. unfold CardView.one_if. case_bool_decide; lia.
Qed.

Section VotingFlagFacts.
Import Vote.

Lemma debounce_flag (q : string) (o : option VoteType) (cb : callback) (s : hook) :
  isVoting (debounce q o cb s) = isVoting s
  ∧ inflight (debounce q o cb s) = inflight s
  ∧ sent (debounce q o cb s) = sent s.
Proof. unfold debounce, clear_existing. by destruct (voteTimeouts s !! q). Qed.

Lemma tap_flag (q : string) (v : VoteType) (s : hook) :
  (isVoting (vote q v s) = isVoting s ∧ inflight (vote q v s) = inflight s
   ∧ sent (vote q v s) = sent s)
  ∧ (isVoting (removeVote q s) = isVoting s ∧ inflight (removeVote q s) = inflight s
     ∧ sent (removeVote q s) = sent s).
Proof.
  unfold vote, removeVote. destruct (negb _); [done|]. split; apply debounce_flag.
Qed.

(** [isVoting] is only set when a call has gone out. *)
Lemma advance_flag (t : nat) (s : hook) :
  (isVoting s = true → inflight s ≠ []) →
  isVoting (advance t s) = true → inflight (advance t s) ≠ [].
Proof.
  apply (advance_keeps (λ s, isVoting s = true → inflight s ≠ [])); [|done].
  clear s. intros s tm Hs _ _. unfold fire.
  destruct (action tm); cbn; try done.
  - intros _. by destruct (inflight s).
  - intros _. by destruct (inflight s).
Qed.

End VotingFlagFacts.


Lemma card_step_flag (c : Card.card) (te : nat * Card.event) :
  (Vote.isVoting (Card.hook c) = true → Vote.inflight (Card.hook c) ≠ []) →
  Vote.isVoting (Card.hook (Card.step c te)) = true →
  Vote.inflight (Card.hook (Card.step c te)) ≠ [].
Proof.
  intros Hc. destruct te as [t e]. unfold Card.step. cbn [fst snd].
  pose proof (advance_flag t (Card.hook c) Hc) as Ha.
  destruct e as [v|k r|newPost|]; cbn [Card.handle_event].
  - unfold Card.press. cbn [Card.hook Card.set_hook].
    destruct (Vote.isVoting (Vote.advance t (Card.hook c))) eqn:Ev; [intros _; by apply Ha|].
    unfold Card.handleVote. destruct (negb _).
    { cbn [Card.hook Card.set_hook]. by rewrite Ev. }
    destruct (tap_flag (Post.id (Card.post c)) v (Vote.advance t (Card.hook c)))
      as [(V1 & V2 & _) (R1 & R2 & _)].
    cbn [Card.post Card.hook Card.set_hook].
    case_decide; cbn [Card.hook Card.set_hook]; by rewrite ?V1, ?V2, ?R1, ?R2, Ev.
  - cbn [Card.hook Card.set_hook Vote.handle_event].
    destruct (Vote.find_call k _); [|done]. unfold Vote.settle.
    by destruct r as [resp|]; [destruct (truthy (Response.error resp))|].
  - unfold Card.rerender. by case_decide.
  - done.
Qed.

(** X12: on a card the vote buttons are disabled exactly while a call is in
    flight: in every state a card reaches, [isVoting] is set if and only if
    a [voteOnPost] or [removeVote] call is pending.  The flag never stays
    set once the call has come back, however it ended. *)
Theorem buttons_are_disabled_exactly_while_in_flight (post : Post)
    (currentUserId : option string) (schedule : list (nat * Card.event)) :
  let c := Card.run (Card.mount post currentUserId) schedule in
  Vote.isVoting (Card.hook c) = true ↔ Vote.inflight (Card.hook c) ≠ [].
Proof.
  intros c. split.
  - assert (Hrun : ∀ c0,
              (Vote.isVoting (Card.hook c0) = true → Vote.inflight (Card.hook c0) ≠ []) →
              Vote.isVoting (Card.hook (Card.run c0 schedule)) = true →
              Vote.inflight (Card.hook (Card.run c0 schedule)) ≠ []).
    { unfold Card.run. induction schedule as [|te schedule IH]; intros c0 Hc0; [done|].
      simpl. apply IH. by apply card_step_flag. }
    by apply Hrun.
  - pose proof (run_serialised schedule (Card.mount post currentUserId)
                  (mount_serialised post currentUserId)) as (_ & _ & H).
    exact H.
Qed.

Section CleanupFacts.
Import Vote.

Lemma foldr_clearTimeout (hs : list nat) (s : hook) :
  foldr clearTimeout s hs = set_timers (filter (λ tm, handle tm ∉ hs) (timers s)) s.
Proof.
  induction hs as [|h hs IH]; simpl.
  - destruct s. unfold set_timers. simpl. f_equal.
    symmetry. apply filter_all. intros tm _. apply not_elem_of_nil.
  - rewrite IH. unfold clearTimeout, set_timers. simpl. f_equal.
    rewrite list_filter_filter. apply list_filter_iff.
    intros tm. rewrite not_elem_of_cons. tauto.
Qed.

Lemma debouncing_elem (s : hook) (tm : timer) :
  tm ∈ debouncing s ↔ tm ∈ timers s ∧ is_Some (callback_post (action tm)).
Proof. unfold debouncing. rewrite list_elem_of_filter. tauto. Qed.

(** With no debounce timer armed, time sends nothing. *)
Lemma advance_sends_nothing (t : nat) (s : hook) :
  debouncing s = [] →
  debouncing (advance t s) = [] ∧ sent (advance t s) = sent s
  ∧ inflight (advance t s) = inflight s.
Proof.
  intros Hd.
  apply (advance_keeps (λ x, debouncing x = [] ∧ sent x = sent s ∧ inflight x = inflight s));
    [| done | done].
  clear Hd. intros x tm (Hd & Hs & Hi) Htm _.
  assert (Hcb : submits (action tm) = None).
  { destruct (action tm) eqn:E; try done.
    - assert (tm ∈ debouncing x) as Hin by (apply debouncing_elem; rewrite E; by eauto).
      rewrite Hd in Hin. by apply elem_of_nil in Hin.
    - assert (tm ∈ debouncing x) as Hin by (apply debouncing_elem; rewrite E; by eauto).
      rewrite Hd in Hin. by apply elem_of_nil in Hin. }
  destruct (fire_fields tm x) as (Ht & _ & _ & _ & Hi' & Hs').
  rewrite Hcb, app_nil_r in Hi', Hs'. rewrite Hi', Hs'. split; [|done].
  unfold debouncing. rewrite Ht. apply filter_none.
  intros y [_ Hy]%list_elem_of_filter Hsome.
  assert (y ∈ debouncing x) as Hin by by apply debouncing_elem.
  rewrite Hd in Hin. by apply elem_of_nil in Hin.
Qed.

End CleanupFacts.

(** X13: [cleanup] disarms every timer whose handle is registered in
    [voteTimeouts] and empties the registry.  When every armed debounce
    timer is registered (as is the case on a card), no call is sent after
    [cleanup], however much time passes: the taps that were waiting for
    their 300 ms are dropped.  Calls already in flight, the optimistic
    entries and [isVoting] are left as they are. *)
Theorem cleanup_drops_every_registered_tap (s : Vote.hook) :
  (∀ tm, tm ∈ Vote.debouncing s → ∃ q, Vote.voteTimeouts s !! q = Some (Vote.handle tm)) →
  let s' := Vote.cleanup s in
  Vote.voteTimeouts s' = ∅
  ∧ Vote.debouncing s' = []
  ∧ (∀ t, Vote.sent (Vote.advance t s') = Vote.sent s)
  ∧ Vote.inflight s' = Vote.inflight s
  ∧ Vote.optimisticVotes s' = Vote.optimisticVotes s
  ∧ Vote.isVoting s' = Vote.isVoting s.
Proof.
  intros Hreg s'. subst s'. unfold Vote.cleanup. rewrite foldr_clearTimeout.
  assert (Hd : Vote.debouncing
                 (Vote.set_voteTimeouts (λ _, ∅)
                    (Vote.set_timers
                       (filter (λ tm, Vote.handle tm ∉ (map_to_list (Vote.voteTimeouts s)).*2)
                          (Vote.timers s)) s)) = []).
  { unfold Vote.debouncing. cbn [Vote.timers Vote.set_voteTimeouts Vote.set_timers].
    apply filter_none. intros tm [Hout Htm]%list_elem_of_filter Hsome.
    destruct (Hreg tm) as [q Hq]; [by apply debouncing_elem|].
    apply Hout. apply list_elem_of_fmap. exists (q, Vote.handle tm).
    split; [done|]. by apply elem_of_map_to_list. }
  split; [done|]. split; [done|]. split; [|done].
  intros t. by destruct (advance_sends_nothing t _ Hd) as (_ & -> & _).
Qed.

Lemma cleanup_drops_every_registered_tap_witness :
  let s := Vote.run (Vote.initial (Some "u")) [(0, Vote.CallVote "P" green)] in
  Vote.sent (Vote.advance 300 s) = [(300, Vote.VoteOnPost "u" "P" green)]
  ∧ Vote.sent (Vote.advance 300 (Vote.cleanup s)) = [].
Proof.
  intros s. split; [by vm_compute|].
  assert (Hreg : ∀ tm, tm ∈ Vote.debouncing s →
            ∃ q, Vote.voteTimeouts s !! q = Some (Vote.handle tm)).
  { intros tm Htm. exists "P". vm_compute in Htm.
    apply list_elem_of_singleton in Htm. by subst tm. }
  pose proof (cleanup_drops_every_registered_tap s Hreg) as (_ & _ & H & _).
  exact (H 300).
Defined.

Section AccountedFacts.
Import Vote.
Context (u : string).
Hypothesis signed_in : truthy (Some u) = true.

Lemma asked_by_later (pre : list (nat * event)) (t t' : nat) (r : request) :
  t ≤ t' → VoteView.asked_by pre u t r → VoteView.asked_by pre u t' r.
Proof.
  intros Hle (t0 & e & kind & Hin & Htap & Hr & Ht).
  exists t0, e, kind. repeat split; try done. lia.
Qed.

Lemma asked_by_more (pre : list (nat * event)) (te : nat * event) (t : nat) (r : request) :
  VoteView.asked_by pre u t r → VoteView.asked_by (pre ++ [te]) u t r.
Proof.
  intros (t0 & e & kind & Hin & Htap & Hr & Ht).
  exists t0, e, kind. repeat split; try done. apply elem_of_app. by left.
Qed.

Lemma advance_accounted (pre : list (nat * event)) (t : nat) (s : hook) :
  VoteView.accounted pre u s → VoteView.accounted pre u (advance t s).
Proof.
  apply (advance_keeps (VoteView.accounted pre u)); [|done].
  clear s. intros s tm (Hu & Htm & Hsent) Hin _.
  destruct (fire_fields tm s) as (Ht & _ & Hu' & _ & _ & Hs).
  split; [by rewrite Hu'|]. split.
  - intros tm' r. rewrite Ht. intros [_ Hin']%list_elem_of_filter. by apply Htm.
  - intros t' r. rewrite Hs. intros [Hold|Hnew]%elem_of_app; [by apply Hsent|].
    destruct (submits (action tm)) as [r'|] eqn:E; [|by apply elem_of_nil in Hnew].
    apply list_elem_of_singleton in Hnew. injection Hnew as -> ->.
    apply (asked_by_later pre (due tm)); [lia|]. by apply Htm.
Qed.

(** What a debounced tap does to the timers and the log. *)
Lemma debounce_timers (q : string) (o : option VoteType) (cb : callback) (s : hook)
    (tm : timer) :
  tm ∈ timers (debounce q o cb s) →
  tm ∈ timers s ∨ (action tm = cb ∧ due tm = now s + 300).
Proof.
  unfold debounce, clear_existing.
  destruct (voteTimeouts s !! q); cbn; rewrite elem_of_app, list_elem_of_singleton.
  - intros [[_ H]%list_elem_of_filter| ->]; [by left|by right].
  - intros [H| ->]; [by left|by right].
Qed.

Lemma debounce_untouched (q : string) (o : option VoteType) (cb : callback) (s : hook) :
  userId (debounce q o cb s) = userId s ∧ sent (debounce q o cb s) = sent s.
Proof. unfold debounce, clear_existing. by destruct (voteTimeouts s !! q). Qed.

Lemma tap_accounted (pre : list (nat * event)) (t : nat) (e : event) (s : hook)
    (q : string) (kind : option VoteType) (cb : callback) :
  tap e = Some (q, kind) →
  submits cb = Some (request_for u q kind) →
  t ≤ now s →
  VoteView.accounted pre u s →
  VoteView.accounted (pre ++ [(t, e)]) u (debounce q kind cb s).
Proof.
  intros Htap Hcb Hnow (Hu & Htm & Hsent).
  destruct (debounce_untouched q kind cb s) as [Hu' Hs'].
  split; [by rewrite Hu'|]. split.
  - intros tm r [Hold|[Ha Hd]]%debounce_timers Hr.
    + by apply asked_by_more, Htm.
    + rewrite Ha, Hcb in Hr. injection Hr as <-.
      exists t, e, kind. rewrite request_for_post.
      repeat split; try done; [|lia].
      apply elem_of_app. right. by apply list_elem_of_singleton.
  - intros t' r. rewrite Hs'. intros Hin. by apply asked_by_more, Hsent.
Qed.

Lemma other_accounted (pre : list (nat * event)) (te : nat * event) (s s' : hook) :
  userId s' = userId s → sent s' = sent s →
  (∀ tm, tm ∈ timers s' → tm ∈ timers s ∨ submits (action tm) = None) →
  VoteView.accounted pre u s → VoteView.accounted (pre ++ [te]) u s'.
Proof.
  intros Hu' Hs' Ht' (Hu & Htm & Hsent).
  split; [by rewrite Hu'|]. split.
  - intros tm r [Hold|Hnone]%Ht' Hr; [|by rewrite Hnone in Hr].
    by apply asked_by_more, Htm.
  - intros t' r. rewrite Hs'. intros Hin. by apply asked_by_more, Hsent.
Qed.

Lemma step_accounted (pre : list (nat * event)) (te : nat * event) (s : hook) :
  VoteView.accounted pre u s → VoteView.accounted (pre ++ [te]) u (step s te).
Proof.
  intros Hs. destruct te as [t e]. unfold step. cbn [fst snd].
  pose proof (advance_accounted pre t s Hs) as Ha.
  assert (Hnow : t ≤ now (advance t s)) by (unfold advance; cbn; lia).
  assert (Hu : userId (advance t s) = Some u) by apply Ha.
  set (s1 := advance t s) in *. clearbody s1. clear s Hs.
  destruct e as [q v|q|q cur v|q| |k r|]; cbn [handle_event].
  - unfold vote. rewrite Hu, signed_in. cbn [negb default].
    by apply (tap_accounted pre t (CallVote q v) s1 q (Some v)).
  - unfold removeVote. rewrite Hu, signed_in. cbn [negb default].
    by apply (tap_accounted pre t (CallRemoveVote q) s1 q None).
  - unfold toggleVote, vote, removeVote. rewrite Hu, signed_in. cbn [negb default].
    case_decide as Hcur.
    + apply (tap_accounted pre t (CallToggleVote q cur v) s1 q None); try done.
      cbn. by rewrite decide_True.
    + apply (tap_accounted pre t (CallToggleVote q cur v) s1 q (Some v)); try done.
      cbn. by rewrite decide_False.
  - apply (other_accounted pre _ s1); try done; try (by left).
  - unfold cleanup. rewrite foldr_clearTimeout.
    apply (other_accounted pre _ s1); try done.
    intros tm. cbn. intros [_ H]%list_elem_of_filter. by left.
  - destruct (find_call k (inflight s1)) as [c|]; [|apply (other_accounted pre _ s1); try done; try (by left)].
    apply (other_accounted pre _ s1).
    + unfold settle. by destruct r as [resp|]; [destruct (truthy (Response.error resp))|].
    + unfold settle. by destruct r as [resp|]; [destruct (truthy (Response.error resp))|].
    + intros tm. unfold settle.
      destruct r as [resp|]; [destruct (truthy (Response.error resp))|]; cbn;
        rewrite ?elem_of_app, ?list_elem_of_singleton; try (by left).
      intros [H| ->]; [by left|by right].
    + done.
  - apply (other_accounted pre _ s1); try done; try (by left).
Qed.

Lemma run_accounted (schedule pre : list (nat * event)) (s : hook) :
  VoteView.accounted pre u s → VoteView.accounted (pre ++ schedule) u (run s schedule).
Proof.
  unfold run. revert pre s.
  induction schedule as [|te schedule IH]; intros pre s Hs; simpl.
  - by rewrite app_nil_r.
  - rewrite cons_middle, app_assoc. apply IH. by apply step_accounted.
Qed.

End AccountedFacts.

(** X14: the hook sends nothing on its own: every call it ever sends was
    asked for by a tap, which happened on the call's post at least 300 ms
    before the call went out and had the call's kind (a vote of the
    tapped kind, or a removal), and the call is made for the hook's user. *)
Theorem every_call_was_tapped (u : string) (schedule : list (nat * Vote.event))
    (t : nat) (r : Vote.request) :
  truthy (Some u) = true →
  (t, r) ∈ Vote.sent (Vote.run (Vote.initial (Some u)) schedule) →
  ∃ t0 e kind,
    (t0, e) ∈ schedule
    ∧ Vote.tap e = Some (Vote.request_post r, kind)
    ∧ r = Vote.request_for u (Vote.request_post r) kind
    ∧ t0 + 300 ≤ t.
Proof.
  intros Hu Hin.
  assert (H0 : VoteView.accounted [] u (Vote.initial (Some u))).
  { split; [done|]. split; [intros tm r' Htm|intros t' r' Htm]; by apply elem_of_nil in Htm. }
  destruct (run_accounted u Hu schedule [] _ H0) as (_ & _ & Hsent).
  by apply Hsent.
Qed.

Lemma every_call_was_tapped_witness :
  ∃ t0 e kind,
    (t0, e) ∈ [(0, Vote.CallVote "P" green); (100, Vote.CallVote "P" red); (500, Vote.Wait)]
    ∧ Vote.tap e = Some ("P", kind)
    ∧ Vote.VoteOnPost "u" "P" red = Vote.request_for "u" "P" kind
    ∧ t0 + 300 ≤ 400.
Proof.
  assert (Hin : (400, Vote.VoteOnPost "u" "P" red)
                ∈ Vote.sent (Vote.run (Vote.initial (Some "u"))
                    [(0, Vote.CallVote "P" green); (100, Vote.CallVote "P" red);
                     (500, Vote.Wait)])).
  { vm_compute. apply list_elem_of_here. }
  exact (every_call_was_tapped "u" _ 400 (Vote.VoteOnPost "u" "P" red) eq_refl Hin).
Defined.

Section GraceTimerFacts.
Import Vote.

(** A timer that is not due yet is still armed after [advance]. *)
Lemma advance_keeps_future (t : nat) (s : hook) (g : timer) :
  well_formed s → g ∈ timers s → t < due g → g ∈ timers (advance t s).
Proof.
  intros Hwf Hg Hdue.
  apply (advance_keeps (λ x, well_formed x ∧ g ∈ timers x) t); [| done | done].
  clear s Hwf Hg. intros s tm [Hwf Hg] Htm Htm_due. split; [by apply fire_wf|].
  rewrite fire_timers. apply list_elem_of_filter. split; [|done].
  intros Heq. apply (same_handle s g tm Hwf Hg Htm) in Heq. subst g. lia.
Qed.

Lemma fire_optimistic (tm : timer) (s : hook) :
  optimisticVotes (fire tm s)
  = match action tm with
    | ClearOptimistic q => delete q (optimisticVotes s)
    | _ => optimisticVotes s
    end.
Proof. unfold fire. by destruct (action tm). Qed.

(** The deferred clearing does its work when its time has come. *)
Lemma advance_clears (t : nat) (s : hook) (g : timer) (p : string) :
  well_formed s → g ∈ timers s → action g = ClearOptimistic p → due g ≤ t →
  optimisticVotes (advance t s) !! p = None.
Proof.
  intros Hwf Hg Hact Hdue.
  assert (H : well_formed (advance t s)
              ∧ (g ∈ timers (advance t s) ∨ optimisticVotes (advance t s) !! p = None)).
  { apply (advance_keeps
             (λ x, well_formed x ∧ (g ∈ timers x ∨ optimisticVotes x !! p = None)) t);
      [| done | by split; [|left]].
    clear s Hwf Hg. intros s tm [Hwf Hcase] Htm _. split; [by apply fire_wf|].
    rewrite fire_timers, fire_optimistic.
    destruct (decide (handle g = handle tm)) as [Heq|Hne].
    - destruct Hcase as [Hg|Hnone].
      + apply (same_handle s g tm Hwf Hg Htm) in Heq. subst tm.
        right. rewrite Hact. by rewrite lookup_delete_eq.
      + right. destruct (action tm); try done.
        rewrite lookup_delete_None. by right.
    - destruct Hcase as [Hg|Hnone].
      + left. by apply list_elem_of_filter.
      + right. destruct (action tm); try done.
        rewrite lookup_delete_None. by right. }
  destruct H as [_ [Hin|Hnone]]; [|done].
  apply advance_complete in Hin. lia.
Qed.

(** A tap leaves the deferred clearings armed and arms its own timer. *)
Lemma debounce_keeps_clearing (q : string) (o : option VoteType) (cb : callback)
    (s : hook) (g : timer) :
  well_formed s → g ∈ timers s → callback_post (action g) = None →
  g ∈ timers (debounce q o cb s)
  ∧ Timer (next_timer s) (now s + 300) cb ∈ timers (debounce q o cb s)
  ∧ optimisticVotes (debounce q o cb s) !! q = Some o.
Proof.
  intros (_ & _ & Hreg) Hg Hcb. unfold debounce, clear_existing.
  destruct (voteTimeouts s !! q) as [h|] eqn:E; cbn.
  - rewrite lookup_insert_eq. repeat split; [|apply elem_of_app; right; apply list_elem_of_here].
    apply elem_of_app. left. apply list_elem_of_filter. split; [|done].
    intros Heq. destruct (Hreg q h E) as [_ Hq]. rewrite (Hq g Hg Heq) in Hcb. done.
  - rewrite lookup_insert_eq. repeat split; [|apply elem_of_app; right; apply list_elem_of_here].
    apply elem_of_app. by left.
Qed.

(** A tap of a signed-in user is one debounce. *)
Lemma tap_is_debounce (u p : string) (e : event) (kind : option VoteType) (s : hook) :
  userId s = Some u → truthy (Some u) = true →
  tap_on p e = Some kind →
  ∃ cb, handle_event s e = debounce p kind cb s
        ∧ submits cb = Some (request_for u p kind).
Proof.
  intros Hu Hauth Htap. unfold tap_on in Htap.
  destruct e as [q v|q|q cur v|q| |k r|]; simpl in Htap; try done;
    case_decide as Hq; try done; subst q; injection Htap as <-; cbn [handle_event].
  - unfold vote. rewrite Hu, Hauth. by eexists.
  - unfold removeVote. rewrite Hu, Hauth. by eexists.
  - unfold toggleVote, vote, removeVote. rewrite Hu, Hauth. case_decide; by eexists.
Qed.

End GraceTimerFacts.

(** X15: the deferred clearing armed after a successful call is never
    cancelled, also not by a later tap.  If the viewer taps on the post
    again before the clearing is due, the tap shows at once; but when the
    clearing comes due the optimistic entry of the post is deleted
    whatever it then holds, and the hook reports the server vote again,
    even while the timer of the newer tap is still armed and its call
    has not gone out. *)
Theorem deferred_clearing_drops_a_newer_tap (s : Vote.hook) (u p : string)
    (g : Vote.timer) (e : Vote.event) (kind serverVote : option VoteType) (t2 t : nat) :
  Vote.well_formed s →
  Vote.userId s = Some u → truthy (Some u) = true →
  g ∈ Vote.timers s → Vote.action g = Vote.ClearOptimistic p →
  Vote.tap_on p e = Some kind →
  Vote.now s ≤ t2 → t2 < Vote.due g → Vote.due g ≤ t →
  let s1 := Vote.step s (t2, e) in
  let s2 := Vote.advance t s1 in
  Vote.getEffectiveVote p serverVote s1 = kind
  ∧ Vote.getEffectiveVote p serverVote s2 = serverVote
  ∧ (t < t2 + 300 →
     ∃ tm, tm ∈ Vote.timers s2
           ∧ Vote.due tm = t2 + 300
           ∧ Vote.submits (Vote.action tm) = Some (Vote.request_for u p kind)).
Proof.
  intros Hwf Hu Hauth Hg Hact Htap Hnow Hlt Hdue s1 s2.
  pose proof (advance_wf t2 s Hwf) as Hwf0.
  pose proof (advance_keeps_future t2 s g Hwf Hg Hlt) as Hg0.
  pose proof (now_advance t2 s Hnow) as Hnow0.
  pose proof (userId_advance t2 s) as Hu0. rewrite Hu in Hu0.
  destruct (tap_is_debounce u p e kind (Vote.advance t2 s) Hu0 Hauth Htap)
    as (cb & Hstep & Hcb).
  assert (Hs1 : s1 = Vote.debounce p kind cb (Vote.advance t2 s)) by exact Hstep.
  assert (Hpost : Vote.callback_post (Vote.action g) = None) by by rewrite Hact.
  destruct (debounce_keeps_clearing p kind cb (Vote.advance t2 s) g Hwf0 Hg0 Hpost)
    as (Hg1 & Hnew & Hopt).
  rewrite <- Hs1 in Hg1, Hnew, Hopt. rewrite Hnow0 in Hnew.
  assert (Hwf1 : Vote.well_formed s1).
  { rewrite Hs1. apply debounce_wf; [|done]. rewrite callback_post_submits, Hcb.
    simpl. by rewrite request_for_post. }
  split; [|split].
  - unfold Vote.getEffectiveVote. by rewrite Hopt.
  - unfold Vote.getEffectiveVote. subst s2.
    by rewrite (advance_clears t s1 g p Hwf1 Hg1 Hact Hdue).
  - intros Ht.
    exists (Vote.Timer (Vote.next_timer (Vote.advance t2 s)) (t2 + 300) cb).
    split; [|by split]. subst s2. by apply advance_keeps_future.
Qed.


Lemma deferred_clearing_drops_a_newer_tap_witness :
  let s := Vote.run (Vote.initial (Some "u"))
             [(0, Vote.CallVote "P" green); (400, Vote.Settled 0 Examples.ok)] in
  let s1 := Vote.step s (1200, Vote.CallVote "P" red) in
  Vote.getEffectiveVote "P" (Some green) s1 = Some red
  ∧ Vote.getEffectiveVote "P" (Some green) (Vote.advance 1400 s1) = Some green
  ∧ Vote.sent (Vote.advance 1400 s1) = [(300, Vote.VoteOnPost "u" "P" green)].
Proof.
  intros s s1.
  assert (Hwf : Vote.well_formed s).
  { unfold s, Vote.run. simpl foldl.
    apply handle_event_wf; [done|]. apply advance_wf.
    apply handle_event_wf; [done|]. apply advance_wf. apply initial_wf. }
  assert (Hg : Vote.Timer 2 1400 (Vote.ClearOptimistic "P") ∈ Vote.timers s).
  { vm_compute. apply list_elem_of_here. }
  pose proof (deferred_clearing_drops_a_newer_tap s "u" "P"
                (Vote.Timer 2 1400 (Vote.ClearOptimistic "P"))
                (Vote.CallVote "P" red) (Some red) (Some green) 1200 1400
                Hwf eq_refl eq_refl Hg eq_refl eq_refl
                (proj1 (Nat.leb_le 400 1200) eq_refl)
                (proj1 (Nat.ltb_lt 1200 1400) eq_refl)
                (proj1 (Nat.leb_le 1400 1400) eq_refl)) as (H1 & H2 & _).
  split; [exact H1|]. split; [exact H2|]. by vm_compute.
Defined.


(** ** The gateway: outcomes, counts, the viewer's vote *)

Section GatewayCountFacts.
Import Gateway.

(** Every vote is green or red. *)
Lemma count_votes_total (l : list vote_row) :
  count_votes green l + count_votes red l = length l.
Proof.
  unfold count_votes. induction l as [|v l IH]; [done|].
  rewrite !filter_cons.
  repeat case_decide; simpl; try lia; destruct (vote_type v); congruence.
Qed.

Lemma count_votes_of (kind : VoteType) (postId : string) (l : list vote_row) :
  count_votes kind (filter (λ v, post_id v = postId) l)
  = length (filter (λ v, post_id v = postId ∧ vote_type v = kind) l).
Proof.
  unfold count_votes. rewrite list_filter_filter. f_equal.
  apply list_filter_iff. intros v. tauto.
Qed.

(** The counts [with_votes] attaches to a row. *)
Lemma with_votes_counts (votes : option (list vote_row)) (userVotes : list vote_row)
    (row : post_row) :
  let p := with_votes votes userVotes row in
  let cast := filter (λ v, post_id v = row_id row) (default [] votes) in
  Post.green_votes p = Some (Z.of_nat (count_votes green cast))
  ∧ Post.red_votes p = Some (Z.of_nat (count_votes red cast)).
Proof. by destruct votes. Qed.

(** What a non-empty page is made of. *)
Lemma getPosts_page (db : backend) (userId : option string) (limit offset : nat)
    (page : list Post) :
  Response.data (getPosts db userId limit offset) = Some page →
  page ≠ [] →
  ∃ rows qv userVotes,
    page = with_votes (Response.data qv) userVotes <$> rows
    ∧ Post.id <$> page = row_id <$> rows
    ∧ select_votes db (row_id <$> rows) = Resolved qv
    ∧ if truthy userId
      then ∃ qu, select_user_votes db (default EmptyString userId) (row_id <$> rows)
                 = Resolved qu
                 ∧ userVotes = default [] (Response.data qu)
      else userVotes = [].
Proof.
  assert (Hids : ∀ votes userVotes (rows : list post_row),
            Post.id <$> (with_votes votes userVotes <$> rows) = row_id <$> rows).
  { intros. rewrite <- list_fmap_compose. by apply list_fmap_ext. }
  unfold getPosts.
  destruct (select_posts db limit offset) as [q|]; [|done].
  destruct (truthy (Response.error q)); [done|].
  destruct (Response.data q) as [[|row rows]|]; [by intros [= <-]| |by intros [= <-]].
  destruct (select_votes db (row_id <$> row :: rows)) as [qv|] eqn:Ev; [|done].
  destruct (truthy userId).
  - destruct (select_user_votes db _ (row_id <$> row :: rows)) as [qu|] eqn:Eu; [|done].
    intros [= <-] _. exists (row :: rows), qv, (default [] (Response.data qu)).
    split; [done|]. split; [exact (Hids _ _ (row :: rows))|]. split; [done|]. by exists qu.
  - intros [= <-] _. exists (row :: rows), qv, [].
    split; [done|]. split; [exact (Hids _ _ (row :: rows))|]. by split.
Qed.

End GatewayCountFacts.

(** X16: [getPosts] always comes back with exactly one of a page and an
    error: either data and no error, or no data and one of the messages
    "Failed to load posts" (the posts query reported an error) and "Network
    error" (a query's promise was rejected).  [loadPosts] takes its error
    branch exactly when there is no page. *)
Theorem getPosts_gives_a_page_or_a_message (db : Gateway.backend)
    (userId : option string) (limit offset : nat) :
  let r := Gateway.getPosts db userId limit offset in
  (∃ page, r = Response.mk (Some page) None)
  ∨ (r = Response.mk None (Some "Failed to load posts")
     ∧ ∃ q, Gateway.select_posts db limit offset = Resolved q
            ∧ truthy (Response.error q) = true)
  ∨ (r = Response.mk None (Some "Network error")
     ∧ (Gateway.select_posts db limit offset = Rejected
        ∨ ∃ ids, Gateway.select_votes db ids = Rejected
                 ∨ ∃ u, Gateway.select_user_votes db u ids = Rejected)).
Proof.
  intros r. subst r. unfold Gateway.getPosts.
  destruct (Gateway.select_posts db limit offset) as [q|]; [|right; right; by auto].
  destruct (truthy (Response.error q)) eqn:Eq; [right; left; by eauto|].
  destruct (Response.data q) as [[|row rows]|]; [left; by eexists| |left; by eexists].
  destruct (Gateway.select_votes db _) as [qv|] eqn:Ev; [|right; right; by eauto].
  destruct (truthy userId); [|left; by eexists].
  destruct (Gateway.select_user_votes db _ _) as [qu|] eqn:Eu; [left; by eexists|].
  right; right. split; [done|]. right. eexists. right. by eexists.
Qed.

(** X17: the counts on a page are the votes the votes query returned: the
    query is asked for exactly the ids of the page, and every post of the
    page carries as [green_votes] and [red_votes] the number of returned
    rows for its id of that kind, so that every returned vote of the post
    is counted once, under green or under red. *)
Theorem getPosts_counts_every_vote_once (db : Gateway.backend) (userId : option string)
    (limit offset : nat) (page : list Post) :
  Response.data (Gateway.getPosts db userId limit offset) = Some page →
  page ≠ [] →
  ∃ qv,
    Gateway.select_votes db (Post.id <$> page) = Resolved qv
    ∧ ∀ p, p ∈ page →
        let cast := filter (λ v, Gateway.post_id v = Post.id p)
                      (default [] (Response.data qv)) in
        Post.green_votes p
        = Some (Z.of_nat (length (filter (λ v, Gateway.vote_type v = green) cast)))
        ∧ Post.red_votes p
          = Some (Z.of_nat (length (filter (λ v, Gateway.vote_type v = red) cast)))
        ∧ (default 0 (Post.green_votes p) + default 0 (Post.red_votes p)
           = Z.of_nat (length cast))%Z.
Proof.
  intros Hpage Hne.
  destruct (getPosts_page db userId limit offset page Hpage Hne)
    as (rows & qv & userVotes & -> & Hids & Hq & _).
  exists qv. split; [by rewrite Hids|].
  intros p (r & -> & _)%list_elem_of_fmap. intros cast.
  destruct (with_votes_counts (Response.data qv) userVotes r) as [Hg Hr].
  rewrite Hg, Hr. split; [reflexivity|]. split; [reflexivity|]. simpl.
  rewrite <- Nat2Z.inj_add. f_equal. apply count_votes_total.
Qed.

Lemma getPosts_counts_every_vote_once_witness :
  ∃ qv,
    Gateway.select_votes Samples.voted_table ["A"; "B"] = Resolved qv
    ∧ ∀ p, p ∈ default [] (Response.data (Gateway.getPosts Samples.voted_table (Some "u") 20 0)) →
        (default 0 (Post.green_votes p) + default 0 (Post.red_votes p)
         = Z.of_nat (length (filter (λ v, Gateway.post_id v = Post.id p)
                               (default [] (Response.data qv)))))%Z.
Proof.
  destruct (getPosts_counts_every_vote_once Samples.voted_table (Some "u") 20 0 _
              eq_refl ltac:(discriminate)) as (qv & Hq & Hcount).
  exists qv. split; [exact Hq|]. intros p Hp. by apply Hcount.
Defined.

Section GatewayViewerFacts.
Import Gateway.

Lemma find_vote (postId : string) (l : list vote_row) :
  match List.find (λ v, bool_decide (post_id v = postId)) l with
  | Some v => v ∈ l ∧ post_id v = postId
  | None => ∀ v, v ∈ l → post_id v ≠ postId
  end.
Proof.
  induction l as [|x l IH]; simpl; [by intros v ?%elem_of_nil|].
  case_bool_decide as E.
  - split; [apply list_elem_of_here|done].
  - destruct (List.find _ l) as [v|].
    + destruct IH. split; [by apply list_elem_of_further|done].
    + intros v [->|Hv]%elem_of_cons; [done|]. by apply IH.
Qed.

End GatewayViewerFacts.

(** X18: the viewer's vote on a page.  For a signed-out viewer the viewer
    query is not consulted (the answer does not depend on it) and no post
    carries a viewer vote.  For a signed-in viewer the query is asked for
    the viewer and exactly the ids of the page; a post carries a vote only
    if the query returned a row of that kind for the post, and carries none
    exactly when the query returned no row for it. *)
Theorem getPosts_viewer_vote_comes_from_the_viewer_query (db : Gateway.backend)
    (userId : option string) (limit offset : nat) (page : list Post) :
  Response.data (Gateway.getPosts db userId limit offset) = Some page →
  (truthy userId = false →
   Forall (λ p, Post.user_vote p = None) page
   ∧ ∀ other,
       Gateway.getPosts
         (Gateway.Backend (Gateway.select_posts db) (Gateway.select_votes db) other)
         userId limit offset
       = Gateway.getPosts db userId limit offset)
  ∧ (truthy userId = true → page ≠ [] →
     ∃ qu,
       Gateway.select_user_votes db (default EmptyString userId) (Post.id <$> page)
       = Resolved qu
       ∧ ∀ p, p ∈ page →
           let mine := default [] (Response.data qu) in
           (∀ kind, Post.user_vote p = Some kind →
              ∃ v, v ∈ mine ∧ Gateway.post_id v = Post.id p
                   ∧ Gateway.vote_type v = kind)
           ∧ (Post.user_vote p = None ↔ ∀ v, v ∈ mine → Gateway.post_id v ≠ Post.id p)).
Proof.
  intros Hpage. split.
  - intros Hu. split.
    + destruct page as [|p0 page0]; [constructor|].
      destruct (getPosts_page db userId limit offset (p0 :: page0) Hpage)
        as (rows & qv & userVotes & -> & _ & _ & Hmine); [done|].
      rewrite Hu in Hmine. subst userVotes.
      apply Forall_fmap, Forall_forall. done.
    + intros other. unfold Gateway.getPosts. cbn [Gateway.select_posts Gateway.select_votes].
      by rewrite Hu.
  - intros Hu Hne.
    destruct (getPosts_page db userId limit offset page Hpage Hne)
      as (rows & qv & userVotes & -> & Hids & _ & Hmine).
    rewrite Hu in Hmine. destruct Hmine as (qu & Hq & ->).
    exists qu. split; [by rewrite Hids|].
    intros p (r & -> & _)%list_elem_of_fmap. intros mine. subst mine.
    unfold Gateway.with_votes. cbn [Post.user_vote Post.id].
    pose proof (find_vote (Gateway.row_id r) (default [] (Response.data qu))) as Hfind.
    destruct (List.find _ _) as [v|]; simpl.
    + destruct Hfind as [Hin Hid]. split.
      * intros kind [= <-]. by exists v.
      * split; [done|]. intros Hnone. by destruct (Hnone v Hin).
    + split; [done|]. by split.
Qed.

Lemma getPosts_viewer_vote_comes_from_the_viewer_query_witness :
  Post.user_vote <$> default [] (Response.data (Gateway.getPosts Samples.voted_table None 20 0))
  = [None; None]
  ∧ ∃ qu, Gateway.select_user_votes Samples.voted_table "u" ["A"; "B"] = Resolved qu.
Proof.
  destruct (getPosts_viewer_vote_comes_from_the_viewer_query Samples.voted_table
              None 20 0 _ eq_refl) as [_ _].
  destruct (getPosts_viewer_vote_comes_from_the_viewer_query Samples.voted_table
              (Some "u") 20 0 _ eq_refl) as [_ H].
  destruct (H eq_refl ltac:(discriminate)) as (qu & Hq & _).
  split; [reflexivity|]. by exists qu.
Defined.


(** ** The vote services and the detail view *)

(** X19: the vote services never let a failure through unreported.  Whatever
    the SDK call does, the call the hook awaits resolves; it carries an
    error exactly when the SDK call returned an error or its promise was
    rejected.  Then the hook deletes the optimistic entry of the post and
    arms nothing; otherwise it keeps the entry and arms its deletion 1000
    ms later.  Either way [isVoting] is cleared and the post's timer
    registration is dropped. *)
Theorem vote_services_report_every_failure {A : Type} (s : Vote.hook) (k : nat)
    (c : Vote.call) (answer : awaited (Service.sdk_result A)) :
  Vote.find_call k (Vote.inflight s) = Some c →
  let p := Vote.request_post (Vote.call_request c) in
  let r := Service.settles (Vote.call_request c) answer in
  let s' := Vote.handle_event s (Vote.Settled k r) in
  r ≠ Rejected
  ∧ Vote.failed r = Service.went_wrong answer
  ∧ (if Service.went_wrong answer
     then Vote.optimisticVotes s' = delete p (Vote.optimisticVotes s)
          ∧ Vote.timers s' = Vote.timers s
     else Vote.optimisticVotes s' = Vote.optimisticVotes s
          ∧ Vote.timers s'
            = Vote.timers s
              ++ [Vote.Timer (Vote.next_timer s) (Vote.now s + 1000) (Vote.ClearOptimistic p)])
  ∧ Vote.isVoting s' = false
  ∧ Vote.voteTimeouts s' !! p = None
  ∧ Vote.sent s' = Vote.sent s.
Proof.
  intros Hc p r s'. subst s'. cbn [Vote.handle_event]. rewrite Hc. fold p.
  subst r. unfold Service.settles, Service.voteOnPost, Service.removeVote, Service.went_wrong.
  destruct (Vote.call_request c) as [u q v|u q], answer as [[d [|]]|];
    cbn -[delete lookup]; rewrite lookup_delete_eq; done.
Qed.

Lemma vote_services_report_every_failure_witness :
  let s := Vote.advance 300 (Vote.run (Vote.initial (Some "u")) [(0, Vote.CallVote "P" green)]) in
  let s' := Vote.handle_event s
              (Vote.Settled 0 (Service.settles (Vote.VoteOnPost "u" "P" green)
                                 (Resolved (Service.SdkResult (@None unit) true)))) in
  Vote.getEffectiveVote "P" None s = Some green
  ∧ Vote.optimisticVotes s' = delete "P" (Vote.optimisticVotes s)
  ∧ Vote.isVoting s' = false.
Proof.
  intros s s'.
  pose proof (vote_services_report_every_failure s 0
                (Vote.Call 0 (Vote.VoteOnPost "u" "P" green))
                (Resolved (Service.SdkResult (@None unit) true)) eq_refl)
    as (_ & _ & [H1 _] & H2 & _).
  split; [reflexivity|]. split; [exact H1|exact H2].
Defined.

Section DetailFacts.
Import Detail.

Lemma find_post (postId : string) (l : list Post) :
  match List.find (λ p, bool_decide (Post.id p = postId)) l with
  | Some p => p ∈ l ∧ Post.id p = postId
  | None => postId ∉ Post.id <$> l
  end.
Proof.
  induction l as [|x l IH]; simpl; [by intros ?%elem_of_nil|].
  case_bool_decide as E.
  - split; [apply list_elem_of_here|done].
  - destruct (List.find _ l) as [p|].
    + destruct IH. split; [by apply list_elem_of_further|done].
    + rewrite not_elem_of_cons. by split; [intros ->|].
Qed.

End DetailFacts.

(** X20: the detail view looks for its post in the first fifty posts of the
    feed and nowhere else.  Against a backend that serves slices of an
    unchanging table, [loadPost] on a mounted hook ends with no error and
    [isLoading] cleared; it shows a post, carrying the requested id, if
    that id is among the first fifty rows of the table, and it shows no
    post (and still no error) if the id is not among them, whether or not
    the table holds it further down. *)
Theorem detail_view_finds_only_the_first_fifty (db : Gateway.backend)
    (rows : list Gateway.post_row) (userId : option string) (postId : string)
    (s : Detail.single) :
  Session.serves rows db →
  Detail.mounted s = true →
  let s' := Detail.loadPost db userId postId s in
  Detail.error s' = None
  ∧ Detail.isLoading s' = false
  ∧ (postId ∈ Gateway.row_id <$> take 50 rows →
     ∃ p, Detail.post s' = Some p ∧ Post.id p = postId)
  ∧ (postId ∉ Gateway.row_id <$> take 50 rows → Detail.post s' = None).
Proof.
  intros Hserves Hm s'.
  destruct (getPosts_slice db rows Hserves userId 50 0) as (page & Hget & Hids).
  rewrite drop_0 in Hids.
  assert (Hs' : s' = Detail.Single (Detail.find postId (Some page)) false None true).
  { subst s'. unfold Detail.loadPost. rewrite Hget.
    destruct s as [p0 l0 e0 m0]. cbn in Hm. by subst m0. }
  rewrite Hs'. cbn [Detail.error Detail.isLoading Detail.post].
  split; [done|]. split; [done|].
  unfold Detail.find. change (default [] (Some page)) with page.
  pose proof (find_post postId page) as Hfind. rewrite <- Hids. revert Hfind.
  destruct (List.find _ page) as [p|].
  - intros [Hin Hid]. split; [intros _; by exists p|].
    intros Hout. destruct Hout. rewrite <- Hid. by apply list_elem_of_fmap_2.
  - intros Hout. split; [done|done].
Qed.

Lemma detail_view_finds_only_the_first_fifty_witness :
  Post.id <$> Detail.post (Detail.loadPost Session.example_table (Some "u") "B" Detail.initial)
  = Some "B"
  ∧ Detail.post (Detail.loadPost Session.example_table (Some "u") "Z" Detail.initial) = None.
Proof.
  assert (Hserves : Session.serves
            [Gateway.PostRow "A" "u1" "a.png" None None (Some true) "t2" None;
             Gateway.PostRow "B" "u2" "b.png" None None None "t1" None]
            Session.example_table)
    by (split; [|split]; [reflexivity|discriminate|discriminate]).
  pose proof (detail_view_finds_only_the_first_fifty Session.example_table _ (Some "u") "Z"
                Detail.initial Hserves eq_refl) as (_ & _ & _ & H).
  split; [reflexivity|]. apply H. apply (bool_decide_unpack _). vm_compute. exact I.
Defined.


(** ** Signing in *)

Section StringFacts.

Lemma string_app_cons (c : Ascii.ascii) (a b : string) :
  String c a +:+ b = String c (a +:+ b).
Proof. reflexivity. Qed.

Lemma string_app_nil (a : string) : "" +:+ a = a.
Proof. reflexivity. Qed.

Lemma string_length_app (a b : string) :
  String.length (a +:+ b) = String.length a + String.length b.
Proof.
  induction a as [|c a IH]; [done|].
  rewrite string_app_cons. cbn [String.length]. by rewrite IH.
Qed.

Lemma string_length_substring (a n : nat) (s : string) :
  String.length (String.substring a n s) = n `min` (String.length s - a).
Proof.
  revert a n. induction s as [|c s IH]; intros [|a] [|n];
    cbn [String.substring String.length]; rewrite ?IH; lia.
Qed.

Lemma substring_all (n : nat) (s : string) :
  String.length s ≤ n → String.substring 0 n s = s.
Proof.
  revert n. induction s as [|c s IH]; intros [|n] Hn; simpl in *; try done; try lia.
  f_equal. apply IH. lia.
Qed.

Lemma substring_split (a n b m : nat) (s : string) :
  b = a + n →
  String.substring a n s +:+ String.substring b m s = String.substring a (n + m) s.
Proof.
  intros ->. revert a n m. induction s as [|c s IH]; intros a n m.
  - by destruct a, n, m.
  - destruct a as [|a]; simpl.
    + destruct n as [|n]; simpl.
      * by destruct m.
      * rewrite string_app_cons. f_equal. exact (IH 0 n m).
    + apply IH.
Qed.

(** A slice of a prefix is the slice of the whole, when it lies within
    the prefix. *)
Lemma substring_prefix (a n k : nat) (s : string) :
  a + n ≤ k → String.substring a n (String.substring 0 k s) = String.substring a n s.
Proof.
  revert a n k. induction s as [|c s IH]; intros a n k Hk.
  - by destruct k.
  - destruct k as [|k].
    + assert (a = 0) as -> by lia. assert (n = 0) as -> by lia. done.
    + simpl. destruct a as [|a].
      * destruct n as [|n]; [done|]. f_equal. apply (IH 0). lia.
      * apply IH. lia.
Qed.

End StringFacts.

Section DigitFacts.
Import Auth.

Lemma digits_app (a b : string) : digits (a +:+ b) = digits a +:+ digits b.
Proof.
  induction a as [|c a IH]; [done|]. rewrite string_app_cons. cbn [digits].
  destruct (is_digit c); by rewrite ?string_app_cons, IH.
Qed.

Lemma all_digits_digits (s : string) : all_digits (digits s) = true.
Proof.
  induction s as [|c s IH]; simpl; [done|].
  destruct (is_digit c) eqn:E; simpl; [by rewrite E|done].
Qed.

Lemma digits_all_digits (s : string) : all_digits s = true → digits s = s.
Proof.
  induction s as [|c s IH]; simpl; [done|].
  intros [-> Hs]%andb_true_iff. by rewrite IH.
Qed.

Lemma all_digits_substring (a n : nat) (s : string) :
  all_digits s = true → all_digits (String.substring a n s) = true.
Proof.
  revert a n. induction s as [|c s IH]; intros [|a] [|n]; simpl; try done.
  - intros [-> Hs]%andb_true_iff. by apply IH.
  - intros [_ Hs]%andb_true_iff. by apply IH.
  - intros [_ Hs]%andb_true_iff. by apply IH.
Qed.

Lemma length_digits (s : string) : String.length (digits s) ≤ String.length s.
Proof. induction s as [|c s IH]; simpl; [done|]. destruct (is_digit c); simpl; lia. Qed.

Lemma digits_slice (a n : nat) (s : string) :
  digits (String.substring a n (digits s)) = String.substring a n (digits s).
Proof. apply digits_all_digits, all_digits_substring, all_digits_digits. Qed.

(** The digits of a formatted number. *)
Lemma digits_formatPhoneNumber (text : string) :
  digits (formatPhoneNumber text) = String.substring 0 10 (digits text).
Proof.
  unfold formatPhoneNumber, slice, slice_from.
  set (c := digits text).
  destruct (Nat.leb_spec (String.length c) 3) as [H3|H3].
  { unfold c at 1. rewrite digits_all_digits by apply all_digits_digits.
    fold c. rewrite substring_all; [done|lia]. }
  destruct (Nat.leb_spec (String.length c) 6) as [H6|H6].
  - rewrite !digits_app. unfold c. rewrite !digits_slice. fold c. simpl.
    rewrite !string_app_nil.
    rewrite (substring_split 0 3 3 (String.length c - 3) c eq_refl).
    rewrite !substring_all; [done|lia|lia].
  - rewrite !digits_app. unfold c. rewrite !digits_slice. fold c. simpl.
    rewrite !string_app_nil.
    rewrite (substring_split 3 3 6 4 c eq_refl), (substring_split 0 3 3 (3 + 4) c eq_refl). done.
Qed.

End DigitFacts.

(** X21: the phone field keeps at most ten digits, in the order typed:
    whatever text a change delivers, the digits of the formatted number
    are the first ten digits of the text; the formatted number has at most
    14 characters; and formatting a formatted number changes nothing. *)
Theorem formatPhoneNumber_keeps_the_first_ten_digits (text : string) :
  Auth.digits (Auth.formatPhoneNumber text) = String.substring 0 10 (Auth.digits text)
  ∧ String.length (Auth.formatPhoneNumber text) ≤ 14
  ∧ Auth.formatPhoneNumber (Auth.formatPhoneNumber text) = Auth.formatPhoneNumber text
  ∧ (String.length (Auth.digits text) ≤ 3 → Auth.formatPhoneNumber text = Auth.digits text).
Proof.
  split; [apply digits_formatPhoneNumber|]. split; [|split].
  - unfold Auth.formatPhoneNumber, Auth.slice, Auth.slice_from.
    set (c := Auth.digits text).
    destruct (Nat.leb_spec (String.length c) 3) as [H3|H3]; [lia|].
    destruct (Nat.leb_spec (String.length c) 6) as [H6|H6];
      rewrite !string_length_app, !string_length_substring; cbn [String.length]; lia.
  - unfold Auth.formatPhoneNumber at 1 3. rewrite digits_formatPhoneNumber.
    set (c := Auth.digits text).
    assert (Hlen : String.length (String.substring 0 10 c) = 10 `min` String.length c).
    { rewrite string_length_substring. lia. }
    destruct (Nat.leb_spec (String.length c) 3) as [H3|H3].
    { rewrite substring_all by lia. by rewrite (proj2 (Nat.leb_le _ _) H3). }
    destruct (Nat.leb_spec (String.length c) 6) as [H6|H6].
    { rewrite substring_all by lia.
      rewrite (proj2 (Nat.leb_gt _ _) H3). by rewrite (proj2 (Nat.leb_le _ _) H6). }
    rewrite (proj2 (Nat.leb_gt (String.length (String.substring 0 10 c)) 3)) by lia.
    rewrite (proj2 (Nat.leb_gt (String.length (String.substring 0 10 c)) 6)) by lia.
    unfold Auth.slice. by rewrite !substring_prefix by lia.
  - intros H3. unfold Auth.formatPhoneNumber. by rewrite (proj2 (Nat.leb_le _ _) H3).
Qed.

(** X22: what the phone step sends.  With fewer than ten digits in the field
    the screen raises "Invalid Phone" and nothing is sent.  Otherwise the
    SDK is asked to send a code to the number made of a 1 and the first ten
    digits typed (eleven digits), with "+1" and those ten digits as the
    phone in the user's metadata.  The hook's own check of the number
    never refuses what the screen passes on. *)
Theorem phone_step_sends_eleven_digits (text : string) :
  let phone := Auth.formatPhoneNumber text in
  let number := String.substring 0 10 (Auth.digits text) in
  Auth.AuthScreen.handlePhoneSubmit phone
  = (if (String.length (Auth.digits text) <? 10)%nat
     then Auth.Alert "Invalid Phone" "Please enter a valid 10-digit phone number"
     else Auth.SignInWithOtp ("1" +:+ number) ("+1" +:+ number))
  ∧ (10 ≤ String.length (Auth.digits text) →
     String.length ("1" +:+ number) = 11 ∧ Auth.all_digits ("1" +:+ number) = true)
  ∧ ∀ field error, Auth.AuthScreen.handlePhoneSubmit field ≠ Auth.Refused error.
Proof.
  intros phone number.
  assert (Hsent : ∀ field,
            Auth.digits ("+1" +:+ Auth.digits field) = "1" +:+ Auth.digits field).
  { intros field. rewrite digits_app.
    by rewrite (digits_all_digits (Auth.digits field)) by apply all_digits_digits. }
  assert (Hpass : ∀ field,
            10 ≤ String.length (Auth.digits field) →
            (String.length (Auth.digits ("+1" +:+ Auth.digits field)) <? 10)%nat = false).
  { intros field Hge. rewrite Hsent, string_length_app. apply Nat.ltb_ge.
    cbn [String.length]. lia. }
  split; [|split].
  - unfold Auth.AuthScreen.handlePhoneSubmit, Auth.UseAuth.signInWithPhone,
      Auth.AuthService.signInWithPhone.
    assert (Hlen : String.length number = 10 `min` String.length (Auth.digits text)).
    { unfold number. rewrite string_length_substring. lia. }
    assert (Hphone : Auth.digits phone = number) by apply digits_formatPhoneNumber.
    destruct (Nat.ltb_spec (String.length (Auth.digits text)) 10) as [Hlt|Hge].
    + rewrite Hphone. by rewrite (proj2 (Nat.ltb_lt _ _)) by lia.
    + rewrite Hpass, Hsent by (rewrite Hphone; lia). rewrite Hphone.
      by rewrite (proj2 (Nat.ltb_ge _ _)) by lia.
  - intros Hge. split.
    + rewrite string_length_app. unfold number. rewrite string_length_substring.
      cbn [String.length]. lia.
    + change (Auth.all_digits ("1" +:+ number))
        with (Auth.all_digits number).
      unfold number. apply all_digits_substring, all_digits_digits.
  - intros field error. unfold Auth.AuthScreen.handlePhoneSubmit,
      Auth.UseAuth.signInWithPhone, Auth.AuthService.signInWithPhone.
    destruct (Nat.ltb_spec (String.length (Auth.digits field)) 10) as [Hlt|Hge]; [done|].
    by rewrite Hpass.
Qed.

(** X23: what the code step sends.  The SDK is asked to verify only a token
    of exactly six digits, the digits of the code field, for the number
    made of a 1 and the digits of the phone field.  A code field of six
    or more characters that does not hold exactly six digits passes the
    screen's length check and is refused by the hook; a code of six digits
    is sent as it is. *)
Theorem code_step_sends_exactly_six_digits (phone otp : string) :
  (∀ number token,
     Auth.AuthScreen.handleOTPSubmit phone otp = Auth.VerifyOtp number token →
     token = Auth.digits otp
     ∧ String.length token = 6
     ∧ Auth.all_digits token = true
     ∧ number = "1" +:+ Auth.digits phone)
  ∧ (Auth.AuthScreen.handleOTPSubmit phone otp
     = Auth.Refused "Please enter a valid 6-digit code"
     ↔ 6 ≤ String.length otp ∧ String.length (Auth.digits otp) ≠ 6)
  ∧ (Auth.all_digits otp = true → String.length otp = 6 →
     Auth.AuthScreen.handleOTPSubmit phone otp
     = Auth.VerifyOtp ("1" +:+ Auth.digits phone) otp).
Proof.
  assert (Hsent : Auth.digits ("+1" +:+ Auth.digits phone) = "1" +:+ Auth.digits phone).
  { rewrite digits_app.
    by rewrite (digits_all_digits (Auth.digits phone)) by apply all_digits_digits. }
  unfold Auth.AuthScreen.handleOTPSubmit, Auth.UseAuth.verifyOTP, Auth.AuthService.verifyOTP.
  rewrite Hsent.
  destruct (Nat.ltb_spec (String.length otp) 6) as [Hshort|Hlong].
  { split; [done|]. split; [|intros _ Hlen; lia].
    split; [done|]. intros [? _]. lia. }
  destruct (Nat.eqb_spec (String.length (Auth.digits otp)) 6) as [Hsix|Hnot]; simpl.
  - split; [|split].
    + intros number token [= <- <-]. repeat split; try done. apply all_digits_digits.
    + split; [done|]. by intros [_ ?].
    + intros Hall _. by rewrite (digits_all_digits otp Hall).
  - split; [done|]. split; [done|].
    intros Hall Hlen. rewrite (digits_all_digits otp Hall) in Hnot. done.
Qed.


(** ** Uploads and content *)

Section StorageFacts.
Import Storage.

Lemma string_app_assoc (a b c : string) : (a +:+ b) +:+ c = a +:+ b +:+ c.
Proof. induction a as [|x a IH]; [done|]. by rewrite !string_app_cons, IH. Qed.

Lemma every_app (test : Ascii.ascii → bool) (a b : string) :
  every test (a +:+ b) = every test a && every test b.
Proof.
  induction a as [|c a IH]; [done|].
  rewrite string_app_cons. cbn [every]. by rewrite IH, andb_assoc.
Qed.

Lemma every_weaken (test test' : Ascii.ascii → bool) (s : string) :
  (∀ c, test c = true → test' c = true) → every test s = true → every test' s = true.
Proof.
  intros Hw. induction s as [|c s IH]; [done|]. cbn [every].
  intros [Hc Hs]%andb_true_iff. by rewrite (Hw c Hc), IH.
Qed.

Lemma kept_underscore : kept underscore = false.
Proof. reflexivity. Qed.

Lemma kept_no_slash (c : Ascii.ascii) : plain c = true → no_slash c = true.
Proof.
  unfold plain, no_slash. intros H. rewrite negb_true_iff, bool_decide_eq_false.
  intros ->. by vm_compute in H.
Qed.

Lemma length_cleanFileName (s : string) :
  String.length (cleanFileName s) = String.length s.
Proof. induction s as [|c s IH]; [done|]. cbn [cleanFileName String.length]. by rewrite IH. Qed.

Lemma plain_cleanFileName (s : string) : every plain (cleanFileName s) = true.
Proof.
  induction s as [|c s IH]; [done|]. cbn [cleanFileName every]. rewrite IH, andb_true_r.
  unfold plain. destruct (kept c) eqn:E; [by rewrite E|].
  by rewrite bool_decide_eq_true_2, orb_true_r.
Qed.

Lemma cleanFileName_kept (s : string) : every kept s = true → cleanFileName s = s.
Proof.
  induction s as [|c s IH]; [done|]. cbn [cleanFileName every].
  intros [-> Hs]%andb_true_iff. by rewrite IH.
Qed.

Lemma cleanFileName_twice (s : string) : cleanFileName (cleanFileName s) = cleanFileName s.
Proof.
  induction s as [|c s IH]; [done|]. cbn [cleanFileName]. rewrite IH. f_equal.
  destruct (kept c) eqn:E; [by rewrite E|]. by rewrite kept_underscore.
Qed.

Lemma digit_pretty_N_char (d : N) : Auth.is_digit (pretty_N_char d) = true.
Proof. unfold pretty_N_char. by repeat case_match. Qed.

Lemma digits_pretty_N_go (x : N) (s : string) :
  every Auth.is_digit s = true → every Auth.is_digit (pretty_N_go x s) = true.
Proof.
  revert s. induction (N.lt_wf_0 x) as [x _ IH]; intros s Hs.
  assert (x = 0 ∨ 0 < x)%N as [->|Hx] by lia.
  - by rewrite pretty_N_go_0.
  - rewrite pretty_N_go_step by done. apply IH.
    + by apply N.div_lt.
    + cbn [every]. by rewrite digit_pretty_N_char, Hs.
Qed.

(** A number is rendered with digits only. *)
Lemma digits_pretty (n : N) : every Auth.is_digit (pretty n) = true.
Proof.
  unfold pretty, pretty_N. case_decide; [done|]. by apply digits_pretty_N_go.
Qed.

Lemma digit_no_slash (c : Ascii.ascii) : Auth.is_digit c = true → no_slash c = true.
Proof.
  unfold no_slash. intros H. rewrite negb_true_iff, bool_decide_eq_false.
  intros ->. by vm_compute in H.
Qed.

End StorageFacts.

(** X24: uploads are capped and confined.  A file of more than 10 MiB is
    refused with "File too large (max 10MB)" without the storage being
    called; otherwise the storage is called once, for the computed path.
    The cleaned file name has the length of the given one and holds only
    letters, digits, dots, dashes and underscores; names that already do
    are kept; cleaning twice changes nothing.  The path is the user's
    folder (if there is a user) followed by a name without any slash, so
    a file name cannot place the file in another folder. *)
Theorem upload_is_capped_and_confined
    (upload : Storage.bucket → string → awaited (Service.sdk_result string))
    (getPublicUrl : Storage.bucket → string → string)
    (b : Storage.bucket) (size : N) (fileName : string) (userId : option string)
    (timestamp : N) :
  let clean := Storage.cleanFileName fileName in
  let path := Storage.filePath userId timestamp fileName in
  let r := Storage.uploadImage upload getPublicUrl b size fileName userId timestamp in
  ((10485760 < size)%N → r = Response.mk None (Some "File too large (max 10MB)"))
  ∧ (∀ upload',
       upload' b path = upload b path →
       Storage.uploadImage upload' getPublicUrl b size fileName userId timestamp = r)
  ∧ String.length clean = String.length fileName
  ∧ Storage.every Storage.plain clean = true
  ∧ Storage.cleanFileName clean = clean
  ∧ (Storage.every Storage.kept fileName = true → clean = fileName)
  ∧ ∃ name,
      path = (if truthy userId then default EmptyString userId +:+ "/" else "") +:+ name
      ∧ Storage.every Storage.no_slash name = true.
Proof.
  intros clean path r.
  split; [|split; [|split; [|split; [|split; [|split]]]]].
  - intros Hbig. subst r. unfold Storage.uploadImage.
    by rewrite (proj2 (N.ltb_lt _ _)) by (simpl; lia).
  - intros upload' Hsame. subst r. unfold Storage.uploadImage. fold path.
    destruct (_ <? _)%N; [done|]. by rewrite Hsame.
  - apply length_cleanFileName.
  - apply plain_cleanFileName.
  - apply cleanFileName_twice.
  - apply cleanFileName_kept.
  - exists (pretty timestamp +:+ "_" +:+ clean). split.
    + subst path. unfold Storage.filePath. fold clean.
      destruct (truthy userId); [|done]. by rewrite !string_app_assoc.
    + rewrite !every_app.
      rewrite (every_weaken Auth.is_digit Storage.no_slash (pretty timestamp)
                 digit_no_slash (digits_pretty timestamp)).
      rewrite (every_weaken Storage.plain Storage.no_slash clean
                 kept_no_slash (plain_cleanFileName fileName)).
      done.
Qed.

Section TrimFacts.
Import Content.

Lemma trimStart_first (s : string) (c : Ascii.ascii) :
  first_char (trimStart s) = Some c → is_white c = false.
Proof.
  induction s as [|x s IH]; [done|]. cbn [trimStart].
  destruct (is_white x) eqn:E; [done|]. by intros [= <-].
Qed.

Lemma trimStart_empty (s : string) :
  trimStart s = EmptyString ↔ Storage.every is_white s = true.
Proof.
  induction s as [|x s IH]; [done|]. cbn [trimStart Storage.every].
  destruct (is_white x); [done|]. by split.
Qed.

Lemma trimEnd_empty (s : string) :
  trimEnd s = EmptyString ↔ Storage.every is_white s = true.
Proof.
  induction s as [|x s IH]; [done|]. cbn [trimEnd Storage.every].
  destruct (trimEnd s) as [|y t].
  - rewrite (proj1 IH eq_refl), andb_true_r. by destruct (is_white x).
  - split; [done|]. intros [_ Hs]%andb_true_iff. by apply IH in Hs.
Qed.

Lemma trimEnd_first (s : string) :
  trimEnd s ≠ EmptyString → first_char (trimEnd s) = first_char s.
Proof.
  destruct s as [|x s]; [done|]. cbn [trimEnd].
  destruct (trimEnd s); [|done]. by destruct (is_white x).
Qed.

Lemma trimEnd_last (s : string) (c : Ascii.ascii) :
  last_char (trimEnd s) = Some c → is_white c = false.
Proof.
  induction s as [|x s IH]; [done|]. cbn [trimEnd].
  destruct (trimEnd s) as [|y t].
  - destruct (is_white x) eqn:E; [done|]. by intros [= <-].
  - exact IH.
Qed.

Lemma length_trimStart (s : string) : String.length (trimStart s) ≤ String.length s.
Proof.
  induction s as [|x s IH]; [done|]. cbn [trimStart].
  destruct (is_white x); cbn [String.length]; lia.
Qed.

Lemma length_trimEnd (s : string) : String.length (trimEnd s) ≤ String.length s.
Proof.
  induction s as [|x s IH]; [done|]. cbn [trimEnd].
  destruct (trimEnd s) as [|y t]; [destruct (is_white x)|]; cbn [String.length] in *; lia.
Qed.

Lemma first_char_None (s : string) : first_char s = None → s = EmptyString.
Proof. by destruct s. Qed.

Lemma last_char_None (s : string) : last_char s = None → s = EmptyString.
Proof.
  induction s as [|x s IH]; [done|]. cbn [last_char].
  destruct s as [|y s]; [done|]. intros H. by apply IH in H.
Qed.

(** What [trim] returns is empty or tidy, and it is empty exactly for
    white space. *)
Lemma trim_tidy (s : string) : trim s = EmptyString ∨ tidy (trim s).
Proof.
  unfold trim. destruct (decide (trimEnd (trimStart s) = EmptyString)) as [|Hne]; [by left|].
  right. split.
  - rewrite trimEnd_first by done.
    destruct (first_char (trimStart s)) as [c|] eqn:E.
    + exists c. split; [done|]. by apply (trimStart_first s).
    + apply first_char_None in E. rewrite E in Hne. done.
  - destruct (last_char (trimEnd (trimStart s))) as [c|] eqn:E.
    + exists c. split; [done|]. by apply (trimEnd_last (trimStart s)).
    + by apply last_char_None in E.
Qed.

Lemma trim_empty (s : string) : trim s = EmptyString ↔ Storage.every is_white s = true.
Proof.
  unfold trim. rewrite <- trimStart_empty. split.
  - intros H. destruct (trimStart s) as [|x t] eqn:E; [done|].
    apply trimEnd_empty in H. cbn [Storage.every] in H.
    apply andb_true_iff in H as [Hx _].
    assert (first_char (trimStart s) = Some x) as Hf by by rewrite E.
    apply trimStart_first in Hf. congruence.
  - by intros ->.
Qed.

Lemma length_trim (s : string) : String.length (trim s) ≤ String.length s.
Proof.
  unfold trim. pose proof (length_trimEnd (trimStart s)). pose proof (length_trimStart s). lia.
Qed.

Lemma truthy_string (s : string) : truthy (Some s) = false ↔ s = EmptyString.
Proof.
  unfold truthy. destruct (String.eqb_spec s EmptyString); by split.
Qed.

Lemma trimmed_or_null_Some (value : option string) (text : string) :
  trimmed_or_null value = Some text →
  tidy text ∧ ∃ given, value = Some given ∧ text = trim given.
Proof.
  destruct value as [s|]; [|done]. unfold trimmed_or_null.
  destruct (truthy (Some (trim s))) eqn:E; [|done]. intros [= <-].
  split; [|by exists s]. destruct (trim_tidy s) as [H|H]; [|done].
  apply truthy_string in H. congruence.
Qed.

Lemma trimmed_or_null_None (value : option string) :
  trimmed_or_null value = None
  ↔ ∀ given, value = Some given → Storage.every is_white given = true.
Proof.
  destruct value as [s|]; [|by split]. unfold trimmed_or_null.
  destruct (truthy (Some (trim s))) eqn:E.
  - split; [done|]. intros H. specialize (H s eq_refl).
    apply trim_empty, truthy_string in H. congruence.
  - split; [|done]. intros _ given [= <-]. by apply trim_empty, truthy_string.
Qed.

End TrimFacts.

(** X25: [createPost] requires an image and stores tidy text.  Without an
    image URL it answers "Image is required" and inserts nothing.  With
    one it makes a single insert, for the given user and image; the name
    and the description of the inserted row are each either null or the
    trimmed text, which is then not empty and neither starts nor ends
    with white space, and they are null exactly when the text was absent
    or all white space. *)
Theorem createPost_requires_an_image_and_stores_tidy_text {A : Type}
    (insert : Content.post_insert → awaited (Service.sdk_result A))
    (userId : string) (postData : Content.post_data) :
  let row :=
    Content.PostInsert userId (Content.image_url postData)
      (Content.trimmed_or_null (Content.person_name postData))
      (Content.trimmed_or_null (Content.description postData)) in
  (Content.image_url postData = EmptyString →
   Content.createPost insert userId postData = Response.mk None (Some "Image is required"))
  ∧ (∀ insert' : Content.post_insert → awaited (Service.sdk_result A),
       insert' row = insert row →
       Content.createPost insert' userId postData = Content.createPost insert userId postData)
  ∧ (∀ text,
       Content.ins_person_name row = Some text →
       Content.tidy text
       ∧ ∃ given, Content.person_name postData = Some given ∧ text = Content.trim given)
  ∧ (∀ text,
       Content.ins_description row = Some text →
       Content.tidy text
       ∧ ∃ given, Content.description postData = Some given ∧ text = Content.trim given)
  ∧ (Content.ins_person_name row = None
     ↔ ∀ given, Content.person_name postData = Some given →
                Storage.every Content.is_white given = true)
  ∧ (Content.ins_description row = None
     ↔ ∀ given, Content.description postData = Some given →
                Storage.every Content.is_white given = true).
Proof.
  intros row. split; [|split; [|split; [|split; [|split]]]].
  - intros Himg. unfold Content.createPost. by rewrite Himg.
  - intros insert' Hsame. unfold Content.createPost. fold row.
    destruct (negb _); [done|]. by rewrite Hsame.
  - apply trimmed_or_null_Some.
  - apply trimmed_or_null_Some.
  - apply trimmed_or_null_None.
  - apply trimmed_or_null_None.
Qed.

(** X26: [addComment] stores between 1 and 500 characters of tidy text.  A
    comment of white space only is refused with "Comment cannot be
    empty", one whose trimmed text is longer than 500 characters with
    "Comment too long (max 500 characters)", and in both cases nothing is
    inserted.  Otherwise a single insert is made, whose content is the
    trimmed text: not empty, at most 500 characters, not starting or
    ending with white space. *)
Theorem addComment_stores_tidy_text_of_bounded_length {A : Type}
    (insert : Content.comment_insert → awaited (Service.sdk_result A))
    (userId postId content : string) (isAnonymous : bool) :
  let text := Content.trim content in
  let r := Content.addComment insert userId postId content isAnonymous in
  (Storage.every Content.is_white content = true →
   r = Response.mk None (Some "Comment cannot be empty"))
  ∧ (500 < String.length text →
     r = Response.mk None (Some "Comment too long (max 500 characters)"))
  ∧ (Storage.every Content.is_white content = false → String.length text ≤ 500 →
     (∀ insert' : Content.comment_insert → awaited (Service.sdk_result A),
        insert' (Content.CommentInsert userId postId text isAnonymous)
        = insert (Content.CommentInsert userId postId text isAnonymous) →
        Content.addComment insert' userId postId content isAnonymous = r)
     ∧ r = match insert (Content.CommentInsert userId postId text isAnonymous) with
           | Rejected => Response.mk None (Some "Network error")
           | Resolved a =>
               if Service.sdk_failed a
               then Response.mk None (Some "Failed to post comment")
               else Response.mk (Service.sdk_data a) None
           end
     ∧ Content.tidy text
     ∧ 1 ≤ String.length text).
Proof.
  intros text r. subst r. unfold Content.addComment. fold text.
  assert (Hempty : text = EmptyString ↔ Storage.every Content.is_white content = true)
    by apply trim_empty.
  pose proof (trim_tidy content) as Htidy0. fold text in Htidy0.
  clearbody text.
  split; [|split].
  - intros Hw. apply Hempty in Hw. by rewrite Hw.
  - intros Hlong. destruct text as [|x t] eqn:E; [simpl in Hlong; lia|].
    cbn [truthy String.eqb negb orb]. 
    rewrite (proj2 (Nat.ltb_ge _ _)) by (cbn [String.length]; lia).
    by rewrite (proj2 (Nat.ltb_lt _ _)) by done.
  - intros Hw Hlen.
    assert (Hne : text ≠ EmptyString).
    { intros H. apply Hempty in H. congruence. }
    assert (Htidy : Content.tidy text).
    { destruct Htidy0 as [H|H]; [by destruct Hne|done]. }
    assert (Hpos : 1 ≤ String.length text).
    { destruct text; [done|]. cbn [String.length]. lia. }
    assert (Hgo : negb (truthy (Some text)) || (String.length text <? 1)%nat = false).
    { apply orb_false_iff. split.
      - apply negb_false_iff. destruct (truthy (Some text)) eqn:E; [done|].
        by apply truthy_string in E.
      - by apply Nat.ltb_ge. }
    rewrite Hgo. rewrite (proj2 (Nat.ltb_ge _ _)) by done.
    split; [|done]. intros insert' Hsame. by rewrite Hsame.
Qed.

(** ** The age label *)

(** X27: the age label of a card follows the age of the post.  A post less
    than a minute old, or dated in the future, is labelled "now"; from one
    minute to under an hour the label is the number of whole minutes with
    "m" (1 to 59); from one hour to under a day the whole hours with "h"
    (1 to 23); from one day to under a week the whole days with "d" (1 to
    6); from a week on, and for an invalid date, the locale's date. *)
Theorem formatTime_follows_the_age (toLocaleDateString : option Z → string)
    (now time : Z) :
  let age := (now - time)%Z in
  let label := Age.formatTime toLocaleDateString now (Some time) in
  ((age < 60000)%Z → label = "now")
  ∧ ((60000 ≤ age < 3600000)%Z →
     ∃ m, label = pretty m +:+ "m"
          ∧ (1 ≤ m ≤ 59)%Z ∧ (m * 60000 ≤ age < (m + 1) * 60000)%Z)
  ∧ ((3600000 ≤ age < 86400000)%Z →
     ∃ h, label = pretty h +:+ "h"
          ∧ (1 ≤ h ≤ 23)%Z ∧ (h * 3600000 ≤ age < (h + 1) * 3600000)%Z)
  ∧ ((86400000 ≤ age < 604800000)%Z →
     ∃ d, label = pretty d +:+ "d"
          ∧ (1 ≤ d ≤ 6)%Z ∧ (d * 86400000 ≤ age < (d + 1) * 86400000)%Z)
  ∧ ((604800000 ≤ age)%Z → label = toLocaleDateString (Some time))
  ∧ Age.formatTime toLocaleDateString now None = toLocaleDateString None.
Proof.
  intros age label. subst label. unfold Age.formatTime. fold age.
  pose proof (Z.div_mod age 60000 ltac:(done)) as Em.
  pose proof (Z.mod_pos_bound age 60000 ltac:(done)) as Bm.
  pose proof (Z.div_mod age 3600000 ltac:(done)) as Eh.
  pose proof (Z.mod_pos_bound age 3600000 ltac:(done)) as Bh.
  pose proof (Z.div_mod age 86400000 ltac:(done)) as Ed.
  pose proof (Z.mod_pos_bound age 86400000 ltac:(done)) as Bd.
  set (m := (age `div` 60000)%Z) in *.
  set (h := (age `div` 3600000)%Z) in *.
  set (d := (age `div` 86400000)%Z) in *.
  clearbody m h d age.
  repeat split.
  - intros Hage. rewrite (proj2 (Z.ltb_lt m 1)) by lia. done.
  - intros Hage. rewrite (proj2 (Z.ltb_ge m 1)) by lia.
    rewrite (proj2 (Z.ltb_lt m 60)) by lia. exists m. split; [done|]. lia.
  - intros Hage. rewrite (proj2 (Z.ltb_ge m 1)), (proj2 (Z.ltb_ge m 60)) by lia.
    rewrite (proj2 (Z.ltb_lt h 24)) by lia. exists h. split; [done|]. lia.
  - intros Hage. rewrite (proj2 (Z.ltb_ge m 1)), (proj2 (Z.ltb_ge m 60)) by lia.
    rewrite (proj2 (Z.ltb_ge h 24)) by lia.
    rewrite (proj2 (Z.ltb_lt d 7)) by lia. exists d. split; [done|]. lia.
  - intros Hage. rewrite (proj2 (Z.ltb_ge m 1)), (proj2 (Z.ltb_ge m 60)) by lia.
    rewrite (proj2 (Z.ltb_ge h 24)) by lia.
    by rewrite (proj2 (Z.ltb_ge d 7)) by lia.
Qed.


(** ** The auth state *)

Section AccountFacts.
Import Account.

Lemma extends_wf (s s' : auth) : Account.extends s s' → well_formed s → well_formed s'.
Proof.
  intros [[Hw Hn]|(c & Hw & Hn)] [Hnd Hlt]; unfold well_formed; rewrite Hw, Hn.
  - done.
  - split.
    + rewrite fmap_app. apply NoDup_app. split; [done|]. split; [|apply NoDup_singleton].
      intros k (w & -> & Hin)%list_elem_of_fmap Hk. simpl in Hk.
      apply list_elem_of_singleton in Hk. specialize (Hlt w Hin). lia.
    + intros w [Hin| ->%list_elem_of_singleton]%elem_of_app; [|simpl; lia].
      specialize (Hlt w Hin). lia.
Qed.

Lemma extends_keeps (s s' : auth) (w : suspended) :
  Account.extends s s' → w ∈ waiting s → w ∈ waiting s'.
Proof.
  intros [[Hw _]|(c & Hw & _)] Hin; rewrite Hw; [done|]. apply elem_of_app. by left.
Qed.

(** Case analysis on the flag of the effect, after which the setters
    compute: they leave the flag and the pending awaits alone, and on an
    unmounted hook they do nothing at all. *)
Ltac on_flag s :=
  let m := fresh "m" in
  destruct s as [? ? ? ? m ? ?]; destruct m; cbn.

Lemma resume_extends (c : continuation) (a : answer) (s : auth) : Account.extends s (resume c a s).
Proof.
  destruct c, a as [r|r|r]; cbn [resume]; try (by left).
  - unfold initializeAuth_session, initializeAuth_finally.
    destruct r as [r|]; [|left; by on_flag s].
    destruct (truthy (Response.error r)); [left; by on_flag s|].
    destruct (Response.data r) as [[authUser|]|]; try (left; by on_flag s).
    on_flag s; [|by left]. right. by exists InitProfile.
  - left. unfold initializeAuth_profile, initializeAuth_finally.
    destruct r as [r|]; [|by on_flag s].
    destruct (truthy (Response.error r)); [by on_flag s|].
    destruct (Response.data r); by on_flag s.
  - left. unfold onAuthStateChange_profile.
    destruct r as [r|]; [destruct (truthy (Response.error r))|]; by on_flag s.
  - left. unfold refreshProfile_profile.
    destruct r as [r|]; [destruct (truthy (Response.error r))|]; by on_flag s.
  - left. destruct r; [done|]. by on_flag s.
Qed.

Lemma filter_wf (k : nat) (s : auth) :
  well_formed s → well_formed (set_waiting (filter (λ w, await_id w ≠ k) (waiting s)) s).
Proof.
  intros [Hnd Hlt]. split; cbn.
  - eapply sublist_NoDup; [exact Hnd|]. apply fmap_sublist, sublist_filter.
  - intros w [_ Hin]%list_elem_of_filter. by apply Hlt.
Qed.

(** Whatever happens adds at most one await, with the next id. *)
Lemma event_extends (s : auth) (e : event) :
  (∀ k a, e ≠ Answer k a) → Account.extends s (step s e).
Proof.
  intros He. destruct e as [ev su|k a| | |]; cbn [step].
  - unfold onAuthStateChange. destruct (mounted s) eqn:Hm; cbn [negb]; [|by left].
    destruct (_ && _); [|destruct (String.eqb ev "SIGNED_OUT"); left; by on_flag s].
    right. exists ListenerProfile. by on_flag s.
  - by destruct (He k a).
  - unfold refreshProfile. destruct (user s) eqn:Hu; [|by left].
    right. exists RefreshProfile. by on_flag s.
  - right. exists SigningOut. unfold signOut. by on_flag s.
  - by left.
Qed.

Lemma step_wf (s : auth) (e : event) : well_formed s → well_formed (step s e).
Proof.
  intros Hs. destruct e as [ev su|k a| | |];
    try (by (apply (extends_wf s); [apply event_extends|])).
  cbn [step]. destruct (find_await k (waiting s)) as [w|]; [|done].
  eapply extends_wf; [apply resume_extends|]. by apply filter_wf.
Qed.

(** An await stays pending until its answer comes. *)
Lemma step_keeps_waiting (s : auth) (e : event) (w : suspended) :
  answers (await_id w) e = false → w ∈ waiting s → w ∈ waiting (step s e).
Proof.
  intros He Hw. destruct e as [ev su|k a| | |];
    try (by (apply (extends_keeps s); [apply event_extends|])).
  cbn [step]. destruct (find_await k (waiting s)) as [w'|]; [|done].
  apply (extends_keeps _ _ w (resume_extends _ _ _)). cbn.
  apply list_elem_of_filter. split; [|done]. simpl in He.
  intros Heq. rewrite Heq, Nat.eqb_refl in He. done.
Qed.

Lemma run_keeps_waiting (events : list event) (s : auth) (w : suspended) :
  Forall (λ e, answers (await_id w) e = false) events →
  well_formed s → w ∈ waiting s →
  well_formed (run s events) ∧ w ∈ waiting (run s events).
Proof.
  unfold run. revert s. induction events as [|e events IH]; intros s Hev Hs Hw; [done|].
  inversion_clear Hev as [|? ? He Hev']. simpl. apply IH; [done|by apply step_wf|].
  by apply step_keeps_waiting.
Qed.

Lemma find_await_elem (s : auth) (w : suspended) :
  well_formed s → w ∈ waiting s → find_await (await_id w) (waiting s) = Some w.
Proof.
  intros [Hnd _]. unfold find_await. revert Hnd.
  induction (waiting s) as [|x l IH]; [by intros _ ?%elem_of_nil|].
  rewrite fmap_cons, NoDup_cons. intros [Hx Hl] [->|Hin]%elem_of_cons; simpl.
  - by rewrite Nat.eqb_refl.
  - destruct (Nat.eqb_spec (await_id x) (await_id w)) as [Heq|_]; [|by apply IH].
    destruct Hx. rewrite Heq. by apply list_elem_of_fmap_2.
Qed.

(** Only the cleanup of the effect touches its flag. *)
Lemma resume_mounted (c : continuation) (a : answer) (s : auth) :
  mounted (resume c a s) = mounted s.
Proof.
  destruct c, a as [r|r|r]; cbn [resume]; try done.
  - unfold initializeAuth_session, initializeAuth_finally.
    destruct r as [r|]; [|by on_flag s].
    destruct (truthy (Response.error r)); [by on_flag s|].
    destruct (Response.data r) as [[authUser|]|]; by on_flag s.
  - unfold initializeAuth_profile, initializeAuth_finally.
    destruct r as [r|]; [|by on_flag s].
    destruct (truthy (Response.error r)); [by on_flag s|].
    destruct (Response.data r); by on_flag s.
  - unfold onAuthStateChange_profile.
    destruct r as [r|]; [destruct (truthy (Response.error r))|]; by on_flag s.
  - unfold refreshProfile_profile.
    destruct r as [r|]; [destruct (truthy (Response.error r))|]; by on_flag s.
  - destruct r; [done|]. by on_flag s.
Qed.

Lemma step_mounted (s : auth) (e : event) :
  e ≠ Unmount → mounted (step s e) = mounted s.
Proof.
  intros He. destruct e as [ev su|k a| | |]; cbn [step]; [| | | |done].
  - unfold onAuthStateChange. destruct (mounted s) eqn:Hm; cbn [negb]; [|done].
    destruct (_ && _); [|destruct (String.eqb ev "SIGNED_OUT")];
      revert Hm; by on_flag s.
  - destruct (find_await k (waiting s)) as [w|]; [|done]. by rewrite resume_mounted.
  - unfold refreshProfile. destruct (user s) eqn:Hu; [|done]. by on_flag s.
  - unfold signOut. by on_flag s.
Qed.

Lemma run_mounted (events : list event) (s : auth) :
  Forall (λ e, e ≠ Unmount) events → mounted (run s events) = mounted s.
Proof.
  unfold run. revert s. induction events as [|e events IH]; intros s Hev; [done|].
  inversion_clear Hev. simpl. rewrite IH by done. by apply step_mounted.
Qed.

(** After the cleanup nothing reaches the state of the hook any more. *)
Lemma resume_unmounted (c : continuation) (a : answer) (s : auth) :
  mounted s = false →
  user (resume c a s) = user s ∧ profile (resume c a s) = profile s
  ∧ isLoading (resume c a s) = isLoading s ∧ error (resume c a s) = error s.
Proof.
  destruct s as [u p l e m w n]. cbn [mounted]. intros ->.
  destruct c, a as [r|r|r]; cbn [resume]; try done.
  - unfold initializeAuth_session, initializeAuth_finally.
    destruct r as [r|]; [|done].
    destruct (truthy (Response.error r)); [done|].
    by destruct (Response.data r) as [[authUser|]|].
  - unfold initializeAuth_profile, initializeAuth_finally.
    destruct r as [r|]; [|done].
    destruct (truthy (Response.error r)); [done|].
    by destruct (Response.data r).
  - unfold onAuthStateChange_profile.
    by destruct r as [r|]; [destruct (truthy (Response.error r))|].
  - unfold refreshProfile_profile.
    by destruct r as [r|]; [destruct (truthy (Response.error r))|].
  - by destruct r.
Qed.

Lemma step_unmounted (s : auth) (e : event) :
  mounted s = false →
  mounted (step s e) = false
  ∧ user (step s e) = user s ∧ profile (step s e) = profile s
  ∧ isLoading (step s e) = isLoading s ∧ error (step s e) = error s.
Proof.
  intros Hm. split.
  { destruct e as [ev su|k a| | |]; [..|done]; by rewrite step_mounted. }
  destruct e as [ev su|k a| | |]; cbn [step].
  - unfold onAuthStateChange. by rewrite Hm.
  - destruct (find_await k (waiting s)) as [w|]; [|done].
    by apply (resume_unmounted (resumes w) a (set_waiting _ s)).
  - unfold refreshProfile. destruct (user s) eqn:Hu; [|done].
    revert Hm Hu. destruct s as [u p l e m w n]. cbn. by intros -> ->.
  - unfold signOut. revert Hm. destruct s as [u p l e m w n]. cbn. by intros ->.
  - done.
Qed.

Lemma run_unmounted (events : list event) (s : auth) :
  mounted s = false →
  mounted (run s events) = false
  ∧ user (run s events) = user s ∧ profile (run s events) = profile s
  ∧ isLoading (run s events) = isLoading s ∧ error (run s events) = error s.
Proof.
  unfold run. revert s. induction events as [|e events IH]; intros s Hm; [done|].
  simpl. destruct (step_unmounted s e Hm) as (Hm' & <- & <- & <- & <-).
  by apply IH.
Qed.

Lemma run_unmounts (events : list event) (s : auth) :
  Unmount ∈ events → mounted (run s events) = false.
Proof.
  unfold run. revert s. induction events as [|e events IH]; intros s Hin.
  - by apply elem_of_nil in Hin.
  - simpl. apply elem_of_cons in Hin as [<-|Hin]; [|by apply IH].
    by apply (run_unmounted events (step s Unmount)).
Qed.

End AccountFacts.

(** X28: the profile fetched for a sign-in is applied when its answer
    arrives, as long as the hook is mounted.  After a sign-in on a mounted
    hook, whatever is handled before the answer to its profile fetch comes
    (a sign-out, the sign-in of another user, refreshes, other answers),
    the answer sets [profile] to the fetched profile and clears
    [isLoading], and leaves [user] as it then is: nothing ties the profile
    to the user that is signed in when it arrives, and [HomeScreen] reads
    its verification status from it.  If the hook was unmounted in the
    meantime, the answer changes nothing of [user], [profile], [isLoading]
    and [error]. *)
Theorem profile_answer_is_applied_while_mounted (s : Account.auth)
    (authUser : string) (events : list Account.event) (fetched : Account.Profile) :
  Account.well_formed s →
  Account.mounted s = true →
  Forall (λ e, Account.answers (Account.next_await s) e = false) events →
  let s1 := Account.step s (Account.AuthStateChange "SIGNED_IN" (Some authUser)) in
  let s2 := Account.run s1 events in
  let s3 := Account.step s2
              (Account.Answer (Account.next_await s)
                 (Account.FetchedProfile (Resolved (Response.mk (Some fetched) None)))) in
  Account.user s1 = Some authUser
  ∧ (Forall (λ e, e ≠ Account.Unmount) events →
       Account.profile s3 = Some fetched
       ∧ Account.user s3 = Account.user s2
       ∧ Account.isLoading s3 = false
       ∧ Account.isVerified s3
         = bool_decide (Account.verification_status fetched = Account.approved))
  ∧ (Account.Unmount ∈ events →
       Account.user s3 = Account.user s2
       ∧ Account.profile s3 = Account.profile s2
       ∧ Account.isLoading s3 = Account.isLoading s2
       ∧ Account.error s3 = Account.error s2).
Proof.
  intros Hwf Hm Hev s1 s2 s3.
  set (w := Account.Suspended (Account.next_await s) Account.ListenerProfile).
  assert (Hs1 : s1 = Account.await Account.ListenerProfile
                       (Account.setError None (Account.setUser (Some authUser) s))).
  { subst s1. cbn [Account.step]. unfold Account.onAuthStateChange. by rewrite Hm. }
  assert (Hm1 : Account.mounted s1 = true).
  { subst s1. by rewrite step_mounted. }
  assert (Hwf1 : Account.well_formed s1).
  { subst s1. by apply step_wf. }
  assert (Hw1 : w ∈ Account.waiting s1).
  { rewrite Hs1. revert Hm. destruct s as [u p l e m ws n]. cbn. intros ->. cbn.
    apply elem_of_app. right. apply list_elem_of_here. }
  destruct (run_keeps_waiting events s1 w Hev Hwf1 Hw1) as [Hwf2 Hw2]. fold s2 in Hwf2, Hw2.
  pose proof (find_await_elem s2 w Hwf2 Hw2) as Hfind.
  assert (Hs3 : s3 = Account.setIsLoading false
                       (Account.setProfile (Some fetched)
                          (Account.set_waiting
                             (filter (λ w', Account.await_id w' ≠ Account.next_await s)
                                (Account.waiting s2)) s2))).
  { subst s3. cbn [Account.step]. cbn [Account.await_id w] in Hfind. by rewrite Hfind. }
  split; [|split].
  - rewrite Hs1. revert Hm. destruct s as [u p l e m ws n]. cbn. by intros ->.
  - intros Hstay.
    assert (Hm2 : Account.mounted s2 = true).
    { subst s2. by rewrite run_mounted. }
    rewrite Hs3. revert Hm2. destruct s2 as [u p l e m ws n]. cbn. intros ->. cbn.
    repeat split.
    unfold Account.isVerified. cbn.
    destruct (decide (Account.verification_status fetched = Account.approved)) as [E|E].
    + by rewrite !bool_decide_eq_true_2 by by rewrite E.
    + rewrite !bool_decide_eq_false_2; [done|done|]. by intros [= ?].
  - intros Hgone.
    assert (Hm2 : Account.mounted s2 = false).
    { subst s2. by apply run_unmounts. }
    rewrite Hs3. revert Hm2. destruct s2 as [u p l e m ws n]. cbn. by intros ->.
Qed.

Lemma profile_answer_is_applied_while_mounted_witness :
  let s := Account.run Account.mount
             [Account.Answer 0 (Account.Session (Resolved (Response.mk (Some None) None)))] in
  let s2 := Account.run s
              [Account.AuthStateChange "SIGNED_IN" (Some "A");
               Account.AuthStateChange "SIGNED_OUT" None;
               Account.AuthStateChange "SIGNED_IN" (Some "B")] in
  let s3 := Account.step s2
              (Account.Answer 1
                 (Account.FetchedProfile
                    (Resolved (Response.mk
                       (Some (Account.mkProfile "A" None Account.approved)) None)))) in
  Account.user s3 = Some "B"
  ∧ Account.profile s3 = Some (Account.mkProfile "A" None Account.approved)
  ∧ Account.isVerified s3 = true.
Proof.
  intros s s2 s3.
  assert (Hwf : Account.well_formed s).
  { split; [constructor|]. intros w Hw. by apply elem_of_nil in Hw. }
  assert (Hev : Forall (λ e, Account.answers (Account.next_await s) e = false)
                  [Account.AuthStateChange "SIGNED_OUT" None;
                   Account.AuthStateChange "SIGNED_IN" (Some "B")])
    by (repeat constructor).
  assert (Hstay : Forall (λ e, e ≠ Account.Unmount)
                    [Account.AuthStateChange "SIGNED_OUT" None;
                     Account.AuthStateChange "SIGNED_IN" (Some "B")])
    by (repeat constructor; discriminate).
  pose proof (profile_answer_is_applied_while_mounted s "A" _
                (Account.mkProfile "A" None Account.approved) Hwf eq_refl Hev)
    as (_ & Happlied & _).
  destruct (Happlied Hstay) as (H2 & _ & _ & H5).
  split; [reflexivity|]. split; [exact H2|exact H5].
Defined.


(** ** The card while the server catches up *)

Section PredictionFacts.
Import Card.

Lemma display_with_entry (c : card) (kind : option VoteType) :
  Vote.optimisticVotes (hook c) !! Post.id (post c) = Some kind →
  display c
  = (kind,
     (CardView.others green (post c) + CardView.one_if kind green)%Z,
     (CardView.others red (post c) + CardView.one_if kind red)%Z).
Proof.
  intros Hopt. unfold display, greenCount, redCount, effectiveVote, Vote.getEffectiveVote.
  rewrite Hopt. unfold CardView.others, CardView.one_if.
  destruct (Post.user_vote (post c)) as [[|]|], kind as [[|]|];
    repeat case_bool_decide; try done; cbn; repeat f_equal; lia.
Qed.

Lemma display_without_entry (c : card) :
  Vote.optimisticVotes (hook c) !! Post.id (post c) = None →
  display c
  = (Post.user_vote (post c),
     default 0%Z (Post.green_votes (post c)),
     default 0%Z (Post.red_votes (post c))).
Proof.
  intros Hopt. unfold display, greenCount, redCount, effectiveVote, Vote.getEffectiveVote.
  rewrite Hopt.
  destruct (Post.user_vote (post c)) as [[|]|];
    repeat case_bool_decide; try done; cbn; repeat f_equal; lia.
Qed.

End PredictionFacts.

(** X29: the optimistic display predicts the server's answer.  Let a card
    hold an optimistic entry for its post (a vote of some kind, or a
    removal), and let the server's next version of the post record just
    that: the viewer's vote is the entry, and each count is the votes of
    the others plus the viewer's.  Then the card shows the same vote and
    the same counts before the new version arrives, after it has arrived
    with the entry still in place, and after the entry has been cleared:
    nothing moves when the server catches up.  If the entry is cleared
    before the new version arrives, the card falls back to the vote and
    the counts of the version it has. *)
Theorem optimistic_display_predicts_the_server (c : Card.card) (kind : option VoteType)
    (newPost : Post) (settled : Vote.hook) :
  Vote.optimisticVotes (Card.hook c) !! Post.id (Card.post c) = Some kind →
  Vote.optimisticVotes settled !! Post.id (Card.post c) = None →
  Post.id newPost = Post.id (Card.post c) →
  Post.user_vote newPost = kind →
  default 0%Z (Post.green_votes newPost)
  = (CardView.others green (Card.post c) + CardView.one_if kind green)%Z →
  default 0%Z (Post.red_votes newPost)
  = (CardView.others red (Card.post c) + CardView.one_if kind red)%Z →
  Card.display (Card.rerender newPost c) = Card.display c
  ∧ Card.display (Card.set_hook settled (Card.rerender newPost c)) = Card.display c
  ∧ Card.display (Card.set_hook settled c)
    = (Post.user_vote (Card.post c),
       default 0%Z (Post.green_votes (Card.post c)),
       default 0%Z (Post.red_votes (Card.post c))).
Proof.
  intros Hopt Hnone Hid Hvote Hgreen Hred.
  rewrite (display_with_entry c kind Hopt).
  assert (Hre : Card.rerender newPost c = Card.Card newPost (Card.hook c) (Card.alerts c)).
  { unfold Card.rerender. by rewrite decide_True. }
  rewrite Hre. split; [|split].
  - rewrite (display_with_entry _ kind) by (cbn; by rewrite Hid).
    cbn [Card.post]. unfold CardView.others at 1 2. rewrite Hvote, Hgreen, Hred.
    repeat f_equal; lia.
  - rewrite display_without_entry by (cbn; by rewrite Hid).
    cbn [Card.post Card.set_hook]. by rewrite Hvote, Hgreen, Hred.
  - by rewrite display_without_entry.
Qed.

Lemma optimistic_display_predicts_the_server_witness :
  let c := Card.run (Card.mount (Examples.mkpost "P") (Some "u")) [(0, Card.Press green)] in
  Card.display c = (Some green, 1%Z, 0%Z)
  ∧ Card.display (Card.rerender Examples.voted_post c) = Card.display c.
Proof.
  intros c. split; [by vm_compute|].
  exact (proj1 (optimistic_display_predicts_the_server c (Some green) Examples.voted_post
                  (Vote.initial (Some "u")) eq_refl eq_refl eq_refl eq_refl eq_refl eq_refl)).
Defined.
